(* ===== verification/_CoqProject ===== *)
-Q . S2P
Prelude.v
PyValues.v
PQueue.v
Heapq.v
Graph.v
Dijkstra.v
Structure.v
Invariants.v
Refinement.v
Soundness.v
Optimality.v
Targets.v
Program.v
Reference.v
Independence.v
Demo.v
Console.v
Instances.v
