(* ===== verification/Prelude.v ===== *)
(** * Verification of [src/dijkstra.py]: shortest paths with a lazy-deletion heap

    ** The program

    The repository is one Python module, [src/dijkstra.py].  Its function
    [dijkstra(graph, start, end)] (lines 3-62) computes the least-cost path
    between two nodes of a directed graph given as a dict of dicts
    ([graph[u][v]] is the weight of the edge [u -> v]).  It keeps four
    pieces of state: the list [pq] used as a binary heap through
    [heapq.heappush]/[heapq.heappop], the dict [distances] of best known
    costs ([float('inf')] when unknown), the dict [predecessors], and the
    set [visited].  The [__main__] block (lines 64-118) builds two graphs
    and prints the result of two queries.

    ** The files, in dependency order

    - [Prelude] (this file): the [result] monad for code that may raise,
      a monadic fold for [for] loops, the tactics and the hint database
      [dijk], list lemmas shared by the components.
    - [PyValues]: Python values as the program uses them.  [PyLt] is
      Python's [<] ([int], [str], tuples compared lexicographically) with
      its laws [PyLtLaws]; [dist] is a number that is an [int] or
      [float('inf')]; [exn] are the exceptions the code can raise
      ([KeyError], [IndexError]).
    - [PQueue]: what the engine needs of [heapq], as an interface: the
      operations ([HeapOps]: [heappush], [heappop], the heap invariant)
      and their laws ([HeapLaws]: the invariant is kept, the contents
      change as a multiset should, [heappop] returns a least element).
      A reference implementation by sorted insertion discharges the laws.
    - [Heapq]: CPython's [heapq] on a list: [_siftdown], [_siftup],
      [heappush], [heappop], with indices as in the library.  [heapq] is
      not under [src/]; it is modelled from its documented algorithm.
      The loop invariants [sifting_down] and [sifting_up] give the laws
      of the interface ([heapq_laws]).
    - [Graph]: the [graph] argument as [gmap K (list (K * Z))] (the inner
      dict as its items in insertion order), edges, walks and their cost,
      the well-formedness conditions ([closed], [nonneg]), [edge_count],
      and the equivalence [same_edges] of graphs that list the same
      edges, which walks and shortest costs respect.
    - [Dijkstra]: the engine.  [state] is the four variables; [init_state]
      is lines 21-31; [relax] is the body of the [for] loop (lines 51-60);
      [expand] the [for] loop under its guard (lines 49-60); [reconstruct]
      the inner [while] (lines 38-41); [step] one iteration of the outer
      [while] (lines 33-60); [loop] iterates [step] with fuel; [dijkstra]
      is the function.  [reachable] is the step relation's closure.
    - [Structure]: the invariant [inv] of the [while] loop, which holds
      on every run, whatever the graph: the keys of the dicts, the
      predecessor chains (acyclic, through visited nodes, of the cost
      recorded in [distances]), the entries of [pq] against [distances],
      the relaxed out-edges of visited nodes, the edges that
      [predecessors] records.  Every operation that
      changes the state keeps it.  Termination: the measure
      [|pq| + sum of the out-degrees of unvisited nodes] decreases at
      each iteration, so the fuel is never exhausted.
    - [Invariants]: what [inv] says of the states the loop reaches, in
      terms of the graph; the entries of [predecessors]; the bound on
      the length of [pq]; the monotonicity of [visited] and
      [distances]; the termination of the path reconstruction from
      every discovered node.
    - [Refinement]: Dijkstra's algorithm stated on the three tables,
      without a queue ([t_step]: visit an unvisited node of least
      distance and relax its out-edges), and the proof that the engine
      implements it: an iteration is a step of the algorithm or, on a
      stale entry, leaves the tables unchanged.
    - [Soundness]: the results on every graph (weights of any sign,
      neighbours that may be no keys): the function returns; a finite
      cost comes with a path of that cost from [start] to [end] that
      repeats no node; [(inf, [])] means [end] cannot be reached; a
      [KeyError] names a node that is no key; [IndexError] is never
      raised.
    - [Optimality]: for non-negative weights the distances of visited
      nodes are least ([optimal]), and the contract
      ([dijkstra_correct]): the cost returned is that of a shortest walk.
      Consequences: the prefixes of the path returned are shortest, the
      distances popped never decrease, and the cost depends on the
      edges only, not on the order in which a node lists them.
    - [Targets]: two calls with the same graph and [start] go through
      the same states until one pops its target; so the result for a
      node of the path returned is the part of the path that leads to
      it ([dijkstra_prefix_target]).
    - [Program]: the engine linked with CPython's heap, as the program
      runs it, and the contract for that function
      ([dijkstra_heapq_correct]).
    - [Reference]: the cost by enumeration of the simple paths
      ([brute_force]), and the proof that the engine agrees with it.
    - [Independence]: the result is the same with every lawful queue,
      because Python orders the entries [(distance, node)] totally.
    - [Demo]: the two graphs of [__main__], the scenarios of the
      specification evaluated with CPython's heap, and a graph with a
      negative weight.
    - [Console]: the statements of [__main__] that print, lines 95-118.
      A program of type [io A] returns or raises and carries the lines
      written to standard output so far; [print] appends a line;
      [query] is one query of the block and [main_program] the block.
    - [Instances]: the theorems applied to the graphs of [Demo].

    ** How the components interact

    [Dijkstra] calls the queue through [HeapOps] only, and the theorems
    on the engine assume [HeapLaws] only.  [Heapq] and the sorted list
    of [PQueue] are two instances; [Demo], [Console] and [Instances] run
    the engine with [Heapq.heapq], as the program does.  [Console] calls
    the engine once per query and prints according to its result; an
    exception of the engine ends the block with what was printed so
    far.  The order on nodes enters through [PyLt]: the engine never
    compares nodes, the queue does, when two entries have the same
    distance.

    ** Modelling choices

    - Nodes are any type [K] with decidable equality, countable (so that
      it can key a [gmap]) and Python-comparable ([PyLt]); the demos take
      [K := string].  Weights and costs are Python [int]s, hence [Z]
      without bounds; floating-point weights are not modelled.
    - A Python dict used only through lookup, membership and assignment
      is a [gmap]; [graph[u].items()] is iterated in insertion order, so
      the inner dict is the list of its items.  Theorems do not assume
      the keys of an inner dict distinct: they hold for lists with
      repeated keys too.
    - An exception is a value: operations return [result (exn K) A].
    - Loops take fuel, and [None] means the fuel ran out, never a
      behaviour of the program.  [dijkstra] passes [2 + edge_count graph]
      to the outer loop: an iteration that continues pops an entry and
      pushes at most one entry per out-edge of a node that it visits, so
      there are at most [1 + edge_count graph] of them before the one
      that returns.  The path reconstruction gets [1 + |visited|]: the
      chain of [end] repeats no node and all its nodes but [end] are
      visited.  [_siftdown] gets [pos] and [_siftup] the length of the
      heap.  [Soundness.dijkstra_terminates],
      [Invariants.reconstruct_terminates] and the lemmas of [Heapq]
      prove that none runs out.  The enumeration of [Reference] gets
      the number of keys of the graph: a simple path has at most one
      node more ([Reference.is_path_length]).
    - Standard output is the list of the lines written, in order.

    ** What the theorems show, and where the code and its specification
       differ

    - On a graph with non-negative weights whose neighbours are keys,
      [dijkstra] returns the least cost with a path of that cost, or
      [(inf, [])] exactly when [end] is unreachable
      ([Optimality.dijkstra_correct], for every lawful queue;
      [Program.dijkstra_heapq_correct], for CPython's).  The cost is
      the one found by enumerating the simple paths
      ([Reference.dijkstra_brute_force]).  With a negative weight the
      cost can be wrong ([Demo.negative_weight_not_optimal]).
    - At the head of the loop the distance of every visited node is
      final ([Optimality.visited_shortest]) and [predecessors] is a
      tree of relaxed edges rooted at [start]
      ([Invariants.reachable_predecessor]).
    - Among paths of equal cost the one found first stays (line 57
      compares with [<]): from [A] to [C] in [city_graph] the result is
      [A, B, C], not [A, B, E, C] ([Demo.scenario_A_C]).  The result does
      not depend on how the heap breaks ties
      ([Independence.dijkstra_queue_independent]).
    - A neighbour that is no key of the graph is not treated as a node
      without out-edges: [distances[neighbor]] raises [KeyError]
      ([Soundness.dijkstra_KeyError], [Demo.scenario_keys_missing]), and
      when [end] cannot be reached the search runs into it
      ([Soundness.dijkstra_KeyError_complete]).  So does
      [predecessors[start]] when [start == end] is no key
      ([Soundness.dijkstra_start_missing]).
    - [__main__] prints the announcement of a query before it calls
      the engine: the line stays printed when the engine raises
      ([Console.query_output]).

    ** Not modelled

    - Floating-point weights: weights are [int]s.  With floats the
      sums of line 54 round, and the theorems on costs would have to be
      stated up to rounding.
    - Nodes that Python cannot compare ([TypeError] from [heappush] or
      [heappop] when two entries have the same distance): [PyLt] is a
      total comparison, as it is for the strings of [__main__].
    - Python's hashing and the layout of dicts in memory; the engine
      reads dicts by key only.
    - The terminal behind [print] (encoding, buffering): the output is
      the list of lines.
    - The running time of the heap operations. *)

From Stdlib Require Export ZArith Lia.
From stdpp Require Export base tactics option list gmap strings.

(** This file holds what every component shares: the [result] monad, the
    monadic fold that models a [for] loop whose body may raise, the
    tactics and the hint database of the development. *)

Declare Scope py_scope.
Delimit Scope py_scope with py.

Create HintDb dijk discriminated.
Create Rewrite HintDb dijk_rw.

(** ** Results of code that may raise *)

Inductive result (E A : Type) : Type :=
| Ok (a : A)
| Raise (e : E).

Arguments Ok {E A} a.
Arguments Raise {E A} e.

#[export] Instance result_ret {E} : MRet (result E) := λ A a, Ok a.

#[export] Instance result_bind {E} : MBind (result E) := λ A B f m,
  match m with
  | Ok a => f a
  | Raise e => Raise e
  end.

#[export] Instance result_fmap {E} : FMap (result E) := λ A B f m,
  match m with
  | Ok a => Ok (f a)
  | Raise e => Raise e
  end.

#[export] Instance result_eq_dec {E A} `{EqDecision E, EqDecision A} :
  EqDecision (result E A).
Proof. solve_decision. Defined.

Definition is_Ok {E A} (r : result E A) : Prop := ∃ a, r = Ok a.

#[export] Instance is_Ok_dec {E A} (r : result E A) : Decision (is_Ok r).
Proof.
  refine (match r with Ok a => left _ | Raise e => right _ end);
    [by exists a | by intros [a ?]].
Defined.

(** A [for] loop over a list whose body may raise: the first exception
    ends the loop. *)
Fixpoint foldM {E A B} (f : B → A → result E B) (l : list A) (b : B) :
    result E B :=
  match l with
  | [] => Ok b
  | x :: l' => b' ← f b x; foldM f l' b'
  end.

(** ** Tactics *)

(** Case analysis on the scrutinee of the first [match] (or [if]) of the
    goal or of a hypothesis, keeping the equation. *)
Ltac case_scrut :=
  match goal with
  | |- context [match ?x with _ => _ end] => destruct x eqn:?
  | H : context [match ?x with _ => _ end] |- _ => destruct x eqn:?
  end.

(** Simplify equations between results. *)
Ltac simpl_result :=
  repeat match goal with
  | H : Ok _ = Ok _ |- _ => injection H as H; try subst
  | H : Ok _ = Raise _ |- _ => discriminate H
  | H : Raise _ = Ok _ |- _ => discriminate H
  | H : Raise _ = Raise _ |- _ => injection H as H; try subst
  | H : mbind _ (Ok _) = _ |- _ => simpl in H
  | H : mbind _ (Raise _) = _ |- _ => simpl in H
  end.

(** Prove a decidable proposition by evaluating its decision procedure. *)
Ltac by_decide :=
  match goal with
  | |- ?P => apply (bool_decide_unpack P); vm_compute; exact I
  end.

(** ** Lemmas on [result] and [foldM] *)

Section result_lemmas.
Context {E A B : Type}.
Implicit Types (f : B → A → result E B) (l : list A) (b : B).

Lemma bind_Ok_inv {C} (m : result E B) (k : B → result E C) c :
  m ≫= k = Ok c → ∃ b, m = Ok b ∧ k b = Ok c.
Proof. destruct m; simpl; [eauto | done]. Qed.

Lemma bind_Raise_inv {C} (m : result E B) (k : B → result E C) e :
  m ≫= k = Raise e → m = Raise e ∨ ∃ b, m = Ok b ∧ k b = Raise e.
Proof. destruct m; simpl; [eauto | intros [= ->]; eauto]. Qed.

Lemma foldM_nil f b : foldM f [] b = Ok b.
Proof. done. Qed.

Lemma foldM_cons f x l b : foldM f (x :: l) b = f b x ≫= foldM f l.
Proof. done. Qed.

Lemma foldM_app f l1 l2 b :
  foldM f (l1 ++ l2) b = foldM f l1 b ≫= foldM f l2.
Proof.
  revert b; induction l1 as [|x l1 IH]; intros b; simpl; [done |].
  destruct (f b x); simpl; auto.
Qed.

(** The loop invariant rule: a property kept by every iteration that
    succeeds holds after a loop that succeeds. *)
Lemma foldM_invariant (P : B → Prop) f l b b' :
  (∀ b1 x b2, x ∈ l → P b1 → f b1 x = Ok b2 → P b2) →
  P b → foldM f l b = Ok b' → P b'.
Proof.
  revert b; induction l as [|x l IH]; intros b Hf Hb; simpl.
  - by intros [= <-].
  - intros (b1 & Hx & Hl)%bind_Ok_inv.
    eapply IH; [| | done]; [intros; eapply Hf; eauto using list_elem_of_further |].
    eapply Hf; eauto using list_elem_of_here.
Qed.

(** The same rule with the prefix of the list processed so far. *)
Lemma foldM_invariant_prefix (P : list A → B → Prop) f l b b' :
  (∀ l1 x l2 b1 b2, l = l1 ++ x :: l2 → P l1 b1 → f b1 x = Ok b2 →
     P (l1 ++ [x]) b2) →
  P [] b → foldM f l b = Ok b' → P l b'.
Proof.
  intros Hstep Hb.
  enough (∀ l1 l2 b1, l = l1 ++ l2 → P l1 b1 → foldM f l2 b1 = Ok b' →
            P l b') as Hgen by (eapply (Hgen []); eauto).
  intros l1 l2; revert l1; induction l2 as [|x l2 IH]; intros l1 b1 -> H1; simpl.
  - intros [= <-]. by rewrite app_nil_r.
  - intros (b2 & Hx & Hl)%bind_Ok_inv.
    eapply (IH (l1 ++ [x])); [by rewrite <- app_assoc | eauto | done].
Qed.

(** A loop that raises raised in some iteration, after a prefix that
    succeeded. *)
Lemma foldM_Raise_inv f l b e :
  foldM f l b = Raise e →
  ∃ l1 x l2 b1, l = l1 ++ x :: l2 ∧ foldM f l1 b = Ok b1 ∧ f b1 x = Raise e.
Proof.
  revert b; induction l as [|x l IH]; intros b; simpl; [done |].
  intros [Hx | (b1 & Hx & Hl)]%bind_Raise_inv.
  - exists [], x, l, b. eauto.
  - destruct (IH _ Hl) as (l1 & y & l2 & b2 & -> & Hl1 & Hy).
    exists (x :: l1), y, l2, b2. simpl. rewrite Hx. eauto.
Qed.

(** A loop whose iterations all succeed succeeds. *)
Lemma foldM_is_Ok (P : B → Prop) f l b :
  (∀ b1 x, x ∈ l → P b1 → ∃ b2, f b1 x = Ok b2 ∧ P b2) →
  P b → ∃ b', foldM f l b = Ok b' ∧ P b'.
Proof.
  revert b; induction l as [|x l IH]; intros b Hf Hb; simpl; [eauto |].
  destruct (Hf b x) as (b2 & -> & Hb2); [apply list_elem_of_here | done |].
  simpl. apply IH; [| done]. intros; apply Hf; eauto using list_elem_of_further.
Qed.

End result_lemmas.

(** A loop seen through a function that commutes with its body. *)
Lemma foldM_fmap {E A B C} (h : B → C)
    (f : B → A → result E B) (f' : C → A → result E C) l b :
  (∀ b x, h <$> f b x = f' (h b) x) →
  h <$> foldM f l b = foldM f' l (h b).
Proof.
  intros Hf. revert b. induction l as [|x l IH]; intros b; [done |].
  simpl. rewrite <- Hf. destruct (f b x); simpl; [apply IH | done].
Qed.

(** Two computations raise the same exception or return related
    values. *)
Definition result_rel {E A B} (R : A → B → Prop)
    (r1 : result E A) (r2 : result E B) : Prop :=
  match r1, r2 with
  | Ok a, Ok b => R a b
  | Raise e1, Raise e2 => e1 = e2
  | _, _ => False
  end.

(** Loops whose bodies are related are related. *)
Lemma foldM_rel {E A B1 B2} (R : B1 → B2 → Prop)
    (f1 : B1 → A → result E B1) (f2 : B2 → A → result E B2) l b1 b2 :
  (∀ b1 b2 x, R b1 b2 → result_rel R (f1 b1 x) (f2 b2 x)) →
  R b1 b2 → result_rel R (foldM f1 l b1) (foldM f2 l b2).
Proof.
  intros Hf. revert b1 b2. induction l as [|x l IH]; intros b1 b2 HR; [done |].
  simpl. specialize (Hf b1 b2 x HR).
  destruct (f1 b1 x), (f2 b2 x); simpl in *; by eauto.
Qed.

(** ** Lemmas on lists *)

Section list_lemmas.
Context {A : Type}.
Implicit Types (l : list A) (x : A).

Lemma elem_of_snoc l x y : y ∈ l ++ [x] ↔ y ∈ l ∨ y = x.
Proof. rewrite elem_of_app, list_elem_of_singleton. tauto. Qed.

(** Writing [y] over an [x] at index [i] trades an [x] for a [y]. *)
Lemma insert_cons_perm l i x y :
  i < length l → x :: <[i := y]> l ≡ₚ y :: <[i := x]> l.
Proof.
  revert i. induction l as [|z l IH]; intros [|i] ?; simpl in *;
    [lia.. | apply perm_swap |].
  rewrite (perm_swap z x), IH by lia. apply perm_swap.
Qed.

(** Moving the element at [q] to [pos] and writing [x] at [q] gives the
    elements of the list with [x] written at [pos]. *)
Lemma insert_move_perm l pos q p x :
  pos < length l → l !! q = Some p → q ≠ pos →
  <[q := x]> (<[pos := p]> l) ≡ₚ <[pos := x]> l.
Proof.
  revert pos q. induction l as [|z l IH]; intros [|pos] [|q] ? Hq ?;
    simpl in *; try done; try lia.
  - rewrite <- (list_insert_id l q p) at 2 by done.
    symmetry. apply insert_cons_perm. by eapply lookup_lt_Some.
  - injection Hq as ->. apply insert_cons_perm. lia.
  - f_equiv. apply IH; [lia | done | lia].
Qed.

End list_lemmas.

(** A list without repetition is no longer than a set that holds its
    elements. *)
Lemma NoDup_length_le_size `{Countable A} (l : list A) (X : gset A) :
  NoDup l → (∀ x, x ∈ l → x ∈ X) → length l ≤ size X.
Proof.
  intros Hl HX. rewrite <- (size_list_to_set (C := gset A) l) by done.
  apply subseteq_size. intros x Hx%elem_of_list_to_set. auto.
Qed.

#[export] Hint Resolve list_elem_of_here list_elem_of_further : dijk.
#[export] Hint Rewrite @foldM_nil @foldM_cons : dijk_rw.
