(* ===== verification/PyValues.v ===== *)
(** * Python values as [src/dijkstra.py] uses them

    - [PyLt]: Python's [<] as a boolean function, with the laws of a
      strict total order ([PyLtLaws]) and the instances the program needs:
      [int] ([Z]), [str] ([string], compared byte by byte, which on UTF-8
      text is the order of code points), and tuples, compared
      lexicographically as Python does.
    - [dist]: a cost, an [int] or [float('inf')].
    - [exn]: the exceptions that the code can raise. *)

From S2P Require Import Prelude.

(** ** Python's [<] *)

Class PyLt (A : Type) := py_lt : A → A → bool.
#[global] Hint Mode PyLt ! : typeclass_instances.

Notation "x ≺ y" := (py_lt x y = true) (at level 70) : py_scope.
Notation "x ⪯ y" := (py_lt y x = false) (at level 70) : py_scope.
#[global] Open Scope py_scope.

Class PyLtLaws (A : Type) `{PyLt A} : Prop := {
  py_lt_irrefl (x : A) : py_lt x x = false;
  py_lt_trans (x y z : A) : x ≺ y → y ≺ z → x ≺ z;
  py_lt_connex (x y : A) : x ⪯ y → y ⪯ x → x = y;
}.
#[global] Hint Mode PyLtLaws ! - : typeclass_instances.

#[export] Instance Z_py_lt : PyLt Z := Z.ltb.

#[export] Instance string_py_lt : PyLt string := String.ltb.

(** [(a1, b1) < (a2, b2)]: the first components that differ decide. *)
#[export] Instance prod_py_lt {A B} `{EqDecision A, PyLt A, PyLt B} :
    PyLt (A * B) := λ p q,
  if decide (p.1 = q.1) then py_lt p.2 q.2 else py_lt p.1 q.1.

(** ** Costs: an [int] or [float('inf')] *)

Inductive dist : Type :=
| Fin (z : Z)
| Inf.

#[export] Instance dist_eq_dec : EqDecision dist.
Proof. solve_decision. Defined.

#[export] Instance dist_py_lt : PyLt dist := λ a b,
  match a, b with
  | Fin x, Fin y => (x <? y)%Z
  | Fin _, Inf => true
  | Inf, _ => false
  end.

(** [dist_le a b]: [a <= b] as Python orders numbers. *)
Definition dist_le (a b : dist) : Prop :=
  match a, b with
  | Fin x, Fin y => (x ≤ y)%Z
  | _, Inf => True
  | Inf, Fin _ => False
  end.

#[export] Instance dist_le_dec a b : Decision (dist_le a b).
Proof. destruct a, b; simpl; apply _. Defined.

(** ** Exceptions *)

Inductive exn (K : Type) : Type :=
| KeyError (k : K)
| IndexError.

Arguments KeyError {K} k.
Arguments IndexError {K}.

#[export] Instance exn_eq_dec {K} `{EqDecision K} : EqDecision (exn K).
Proof. solve_decision. Defined.

(** ** The order derived from [<] *)

Section py_lt_laws.
Context `{PyLtLaws A}.
Implicit Types x y z : A.

Lemma py_lt_asym x y : x ≺ y → py_lt y x = false.
Proof.
  intros Hxy. destruct (py_lt y x) eqn:Hyx; [| done].
  pose proof (py_lt_trans _ _ _ Hxy Hyx) as Hxx.
  by rewrite py_lt_irrefl in Hxx.
Qed.

Lemma py_le_refl x : x ⪯ x.
Proof. apply py_lt_irrefl. Qed.

Lemma py_le_total x y : x ⪯ y ∨ y ⪯ x.
Proof.
  destruct (py_lt y x) eqn:Hyx; [| by left]. right. by apply py_lt_asym.
Qed.

Lemma py_lt_le_trans x y z : x ≺ y → y ⪯ z → x ≺ z.
Proof.
  intros Hxy Hyz. destruct (py_lt y z) eqn:Hlt; [by eapply py_lt_trans |].
  by rewrite <- (py_lt_connex y z).
Qed.

Lemma py_le_lt_trans x y z : x ⪯ y → y ≺ z → x ≺ z.
Proof.
  intros Hxy Hyz. destruct (py_lt x y) eqn:Hlt; [by eapply py_lt_trans |].
  by rewrite (py_lt_connex x y).
Qed.

Lemma py_le_trans x y z : x ⪯ y → y ⪯ z → x ⪯ z.
Proof.
  intros Hxy Hyz. destruct (py_lt z x) eqn:Hzx; [| done].
  pose proof (py_lt_le_trans _ _ _ Hzx Hxy) as Hzy. congruence.
Qed.

Lemma py_le_antisym x y : x ⪯ y → y ⪯ x → x = y.
Proof. apply py_lt_connex. Qed.

Lemma py_lt_le x y : x ≺ y → x ⪯ y.
Proof. apply py_lt_asym. Qed.

Lemma py_not_lt x y : py_lt x y ≠ true ↔ y ⪯ x.
Proof. by destruct (py_lt x y). Qed.

End py_lt_laws.

#[export] Hint Resolve py_le_refl py_lt_le : dijk.

(** ** The instances are lawful *)

#[export] Instance Z_py_lt_laws : PyLtLaws Z.
Proof.
  split; unfold py_lt, Z_py_lt; intros *; rewrite ?Z.ltb_lt, ?Z.ltb_ge; lia.
Qed.

Lemma string_compare_refl (s : string) : String.compare s s = Eq.
Proof.
  pose proof (String.compare_antisym s s). by destruct (String.compare s s).
Qed.

Lemma string_compare_Gt (s t : string) :
  String.compare s t = Gt ↔ String.compare t s = Lt.
Proof.
  rewrite (String.compare_antisym s t). by destruct (String.compare t s).
Qed.

Lemma ascii_compare_trans (a b c : Ascii.ascii) :
  Ascii.compare a b = Lt → Ascii.compare b c = Lt → Ascii.compare a c = Lt.
Proof. unfold Ascii.compare. rewrite !N.compare_lt_iff. lia. Qed.

Lemma string_compare_trans (s t u : string) :
  String.compare s t = Lt → String.compare t u = Lt → String.compare s u = Lt.
Proof.
  revert t u; induction s as [|a s IH]; intros [|b t] [|c u]; simpl; try done.
  destruct (Ascii.compare a b) eqn:Hab; [| | done];
    (destruct (Ascii.compare b c) eqn:Hbc; [| | done]).
  - apply Ascii.compare_eq_iff in Hab, Hbc. subst.
    rewrite (proj2 (N.compare_eq_iff _ _) eq_refl : Ascii.compare c c = Eq).
    apply IH.
  - apply Ascii.compare_eq_iff in Hab. subst. by rewrite Hbc.
  - apply Ascii.compare_eq_iff in Hbc. subst. by rewrite Hab.
  - by rewrite (ascii_compare_trans a b c).
Qed.

#[export] Instance string_py_lt_laws : PyLtLaws string.
Proof.
  split; unfold py_lt, string_py_lt, String.ltb.
  - intros s. by rewrite string_compare_refl.
  - intros s t u Hst Htu.
    rewrite (string_compare_trans s t u); [done | |].
    + by destruct (String.compare s t).
    + by destruct (String.compare t u).
  - intros s t Hts Hst. apply String.compare_eq_iff.
    destruct (String.compare s t) eqn:Hc; [done.. |].
    apply string_compare_Gt in Hc. by rewrite Hc in Hts.
Qed.

#[export] Instance prod_py_lt_laws {A B}
  `{EqDecision A, PyLtLaws A, PyLtLaws B} : PyLtLaws (A * B).
Proof.
  split; unfold py_lt, prod_py_lt.
  - intros [a b]; simpl. rewrite decide_True by done. apply py_lt_irrefl.
  - intros [a1 b1] [a2 b2] [a3 b3]; simpl.
    repeat case_decide; subst; try done; intros H12 H23.
    + by eapply py_lt_trans.
    + by rewrite (py_lt_asym _ _ H12) in H23.
    + by eapply py_lt_trans.
  - intros [a1 b1] [a2 b2]; simpl.
    repeat case_decide; subst; try done; intros Hle Hge.
    + f_equal. by apply py_lt_connex.
    + by destruct (py_lt_connex a1 a2).
Qed.

(** What the engine uses of the order on heap entries [(cost, node)]:
    the least entry has the least cost. *)
Lemma py_le_pair_fst {B} `{EqDecision B, PyLt B} (d1 d2 : Z) (u v : B) :
  (d1, u) ⪯ (d2, v) → (d1 ≤ d2)%Z.
Proof.
  unfold py_lt, prod_py_lt; simpl. case_decide; [lia |].
  unfold py_lt, Z_py_lt. rewrite Z.ltb_ge. lia.
Qed.

(** Among entries for the same node, the order is that of the costs. *)
Lemma py_le_pair_same {B} `{EqDecision B, PyLtLaws B} (d1 d2 : Z) (u : B) :
  (d1, u) ⪯ (d2, u) ↔ (d1 ≤ d2)%Z.
Proof.
  unfold py_lt at 1, prod_py_lt; simpl. case_decide; subst.
  - split; [lia | intros _; apply py_lt_irrefl].
  - unfold py_lt, Z_py_lt. rewrite Z.ltb_ge. lia.
Qed.

(** ** Lemmas on [dist] *)

Lemma dist_lt_Fin (x y : Z) : Fin x ≺ Fin y ↔ (x < y)%Z.
Proof. apply Z.ltb_lt. Qed.

Lemma dist_lt_Inf (x : Z) : Fin x ≺ Inf.
Proof. done. Qed.

Lemma dist_lt_spec (x : Z) (d : dist) :
  Fin x ≺ d ↔ ∀ y, d = Fin y → (x < y)%Z.
Proof.
  destruct d as [y|]; [rewrite dist_lt_Fin | ]; split; try done.
  - by intros ? ? [= <-].
  - eauto.
Qed.

Lemma dist_ge_spec (x : Z) (d : dist) :
  py_lt (Fin x) d = false ↔ ∃ y, d = Fin y ∧ (y ≤ x)%Z.
Proof.
  destruct d as [y|]; unfold py_lt, dist_py_lt.
  - rewrite Z.ltb_ge. split; [eauto | by intros (? & [= <-] & ?)].
  - split; [done | by intros (? & ? & ?)].
Qed.

#[export] Instance dist_le_refl : Reflexive dist_le.
Proof. intros [x|]; simpl; [lia | done]. Qed.

#[export] Instance dist_le_trans : Transitive dist_le.
Proof. intros [x|] [y|] [z|]; simpl; try done; lia. Qed.

#[export] Instance dist_py_lt_laws : PyLtLaws dist.
Proof.
  split; unfold py_lt, dist_py_lt.
  - intros [x|]; [apply Z.ltb_irrefl | done].
  - intros [x|] [y|] [z|]; rewrite ?Z.ltb_lt; try done; lia.
  - intros [x|] [y|]; rewrite ?Z.ltb_ge; try done. intros; f_equal; lia.
Qed.
