(* ===== verification/PQueue.v ===== *)
(** * The priority queue the engine relies on, as an interface

    [src/dijkstra.py] keeps its frontier in a Python list [pq] that it
    only touches through [heapq.heappush] and [heapq.heappop].  This file
    states what the engine needs of the two calls:

    - [HeapOps A]: the operations on a list of [A], and the invariant
      [is_heap] that the list satisfies between calls;
    - [HeapLaws A]: the laws.  The invariant holds of a one-element list
      and is kept by both operations; the contents change as a multiset
      ([≡ₚ]); [heappop] fails exactly on the empty list (Python raises
      [IndexError]) and on a heap returns an element that no element of
      the heap is smaller than.

    The theorems of the engine are proved from [HeapLaws] alone.  The
    section [sorted_queue] gives the reference implementation (insertion
    into a sorted list) and proves its laws; [Heapq] models CPython's
    binary heap.  [heappop_unique] shows that the laws determine what a
    queue returns: two lawful queues with the same contents pop the same
    element and are left with the same contents. *)

From S2P Require Import Prelude PyValues.
From stdpp Require Import sorting.

Class HeapOps (A : Type) := {
  heappush : list A → A → list A;
  heappop : list A → option (A * list A);
  is_heap : list A → Prop;
}.
#[global] Hint Mode HeapOps ! : typeclass_instances.

Class HeapLaws (A : Type) `{PyLt A, HeapOps A} : Prop := {
  is_heap_singleton (x : A) : is_heap [x];
  heappush_is_heap (h : list A) x : is_heap h → is_heap (heappush h x);
  heappush_perm (h : list A) x : heappush h x ≡ₚ x :: h;
  heappop_nil : heappop (A := A) [] = None;
  heappop_is_Some (h : list A) : h ≠ [] → is_Some (heappop h);
  heappop_is_heap (h : list A) x h' :
    is_heap h → heappop h = Some (x, h') → is_heap h';
  heappop_perm (h : list A) x h' : heappop h = Some (x, h') → h ≡ₚ x :: h';
  heappop_min (h : list A) x h' :
    is_heap h → heappop h = Some (x, h') → ∀ y, y ∈ h → x ⪯ y;
}.
#[global] Hint Mode HeapLaws ! - - : typeclass_instances.

(** ** Consequences of the laws *)

Section heap_laws.
Context `{HeapLaws A}.
Implicit Types (h : list A) (x y : A).

Lemma heappush_elem_of h x y : y ∈ heappush h x ↔ y = x ∨ y ∈ h.
Proof. by rewrite heappush_perm, elem_of_cons. Qed.

Lemma heappush_length h x : length (heappush h x) = S (length h).
Proof. by rewrite heappush_perm. Qed.

Lemma heappop_elem_of h x h' y :
  heappop h = Some (x, h') → y ∈ h ↔ y = x ∨ y ∈ h'.
Proof. intros Hpop. by rewrite (heappop_perm _ _ _ Hpop), elem_of_cons. Qed.

Lemma heappop_length h x h' :
  heappop h = Some (x, h') → length h = S (length h').
Proof. intros Hpop. by rewrite (heappop_perm _ _ _ Hpop). Qed.

Lemma heappop_singleton x : heappop [x] = Some (x, []).
Proof.
  destruct (heappop_is_Some [x]) as [[y h'] Hpop]; [done |].
  pose proof (heappop_perm _ _ _ Hpop) as Hperm.
  pose proof (Permutation_length Hperm) as Hlen.
  destruct h'; [| done]. by apply Permutation_singleton_inj in Hperm as ->.
Qed.

Lemma heappop_None h : heappop h = None ↔ h = [].
Proof.
  split; [| intros ->; apply heappop_nil].
  intros Hpop. destruct h as [|x h]; [done |].
  destruct (heappop_is_Some (x :: h)) as [? Hs]; [done | congruence].
Qed.

End heap_laws.

(** Two lawful queues with the same contents pop the same element. *)
Lemma heappop_unique `{PyLtLaws A} (O1 O2 : HeapOps A)
    `{!@HeapLaws A _ O1, !@HeapLaws A _ O2} (h1 h2 : list A) x1 x2 h1' h2' :
  h1 ≡ₚ h2 → @is_heap A O1 h1 → @is_heap A O2 h2 →
  @heappop A O1 h1 = Some (x1, h1') → @heappop A O2 h2 = Some (x2, h2') →
  x1 = x2 ∧ h1' ≡ₚ h2'.
Proof.
  intros Hperm Hh1 Hh2 Hp1 Hp2.
  assert (x1 = x2) as <-.
  { apply py_le_antisym.
    - eapply (heappop_min (H0 := O1)); [done.. |]. rewrite Hperm.
      eapply (heappop_elem_of (H0 := O2)); eauto.
    - eapply (heappop_min (H0 := O2)); [done.. |]. rewrite <- Hperm.
      eapply (heappop_elem_of (H0 := O1)); eauto. }
  split; [done |]. apply (Permutation_cons_inv (a := x1)).
  by rewrite <- (heappop_perm (H0 := O1) _ _ _ Hp1), Hperm,
    (heappop_perm (H0 := O2) _ _ _ Hp2).
Qed.


(** ** The reference implementation: a sorted list *)

Section sorted_queue.
Context `{PyLt A}.
Implicit Types (h : list A) (x y : A).

Definition py_le : relation A := λ x y, x ⪯ y.

Fixpoint sorted_insert (x : A) (h : list A) : list A :=
  match h with
  | [] => [x]
  | y :: h' => if py_lt x y then x :: h else y :: sorted_insert x h'
  end.

Definition sorted_pop (h : list A) : option (A * list A) :=
  match h with
  | [] => None
  | x :: h' => Some (x, h')
  end.

Definition sorted_queue : HeapOps A := {|
  heappush h x := sorted_insert x h;
  heappop := sorted_pop;
  is_heap := StronglySorted py_le;
|}.

Lemma sorted_insert_perm x h : sorted_insert x h ≡ₚ x :: h.
Proof.
  induction h as [|y h IH]; simpl; [done |].
  destruct (py_lt x y); [done |]. by rewrite IH, perm_swap.
Qed.

Lemma sorted_insert_sorted `{!PyLtLaws A} x h :
  StronglySorted py_le h → StronglySorted py_le (sorted_insert x h).
Proof.
  induction 1 as [|y h Hh IH Hy]; simpl; [by repeat constructor |].
  destruct (py_lt x y) eqn:Hxy.
  - constructor; [by constructor |]. constructor; [by apply py_lt_le |].
    eapply Forall_impl; [done |]. intros z Hz. unfold py_le in *.
    eapply py_le_trans; [| done]. by apply py_lt_le.
  - constructor; [done |]. rewrite sorted_insert_perm. by constructor.
Qed.

#[export] Instance sorted_queue_laws `{!PyLtLaws A} :
  @HeapLaws A _ sorted_queue.
Proof.
  split; simpl.
  - intros x. by repeat constructor.
  - intros h x. apply sorted_insert_sorted.
  - intros h x. apply sorted_insert_perm.
  - done.
  - by intros [|x h].
  - intros [|y h] x h' Hs [= <- <-]. by inversion Hs.
  - by intros [|y h] x h' [= <- <-].
  - intros [|y h] x h' Hs [= <- <-] z [->|Hz]%elem_of_cons.
    + apply py_le_refl.
    + inversion_clear Hs as [|? ? _ Hall]. by eapply Forall_forall in Hall.
Qed.

End sorted_queue.

Arguments sorted_queue A {_}.
