(* ===== verification/Heapq.v ===== *)
(** * CPython's [heapq] on a list

    [src/dijkstra.py] calls [heapq.heappush] and [heapq.heappop]; the
    module [heapq] belongs to the Python library, not to the repository.
    This file models its array-backed binary heap from the algorithm the
    library documents: [heap[k] <= heap[2*k+1]] and
    [heap[k] <= heap[2*k+2]] for all [k], counting elements from zero.

    - [siftdown] is [_siftdown(heap, startpos, pos)]: the item at [pos]
      moves towards [startpos] while it is smaller than its parent.
    - [siftup] is [_siftup(heap, pos)]: the smaller child is moved up
      until a leaf is hit, the item is put there and sifted down.
    - [heapq_push], [heapq_pop] are [heappush], [heappop].

    Indices are [nat], the list is read with [!!] and written with
    [<[i:=x]>].  Where Python would raise [IndexError] on an index out of
    range the functions return the heap unchanged; the lemmas of this
    file show that the indices stay in range.  The loops take fuel:
    [siftdown] passes [pos] (each iteration at least halves [pos]) and
    [siftup] passes the length of the heap (each iteration increases
    [pos]).

    The lemmas: both loops permute the list ([siftdown_perm],
    [siftup_perm]); [sifting_down] and [sifting_up] are their
    invariants, from which [heappush] and [heappop] keep the heap
    ordered ([heapq_push_ordered], [heapq_pop_ordered]); the first
    element of an ordered heap is a least one ([heap_ordered_root]).
    Together they are the laws of [PQueue] ([heapq_laws]). *)

From S2P Require Import Prelude PyValues PQueue.

Section heapq.
Context `{PyLt A}.
Implicit Types (heap : list A) (pos startpos endpos : nat) (item : A).

(** The loop of [_siftdown]: returns the heap and the final [pos]. *)
Fixpoint siftdown_loop (fuel : nat) (newitem : A) (startpos : nat)
    (heap : list A) (pos : nat) : list A * nat :=
  match fuel with
  | 0 => (heap, pos)
  | S fuel' =>
    if decide (startpos < pos) then
      let parentpos := (pos - 1) `div` 2 in
      match heap !! parentpos with
      | Some parent =>
        if py_lt newitem parent then
          siftdown_loop fuel' newitem startpos (<[pos := parent]> heap)
            parentpos
        else (heap, pos)
      | None => (heap, pos)
      end
    else (heap, pos)
  end.

Definition siftdown heap startpos pos : list A :=
  match heap !! pos with
  | Some newitem =>
    let '(heap', pos') := siftdown_loop pos newitem startpos heap pos in
    <[pos' := newitem]> heap'
  | None => heap
  end.

(** The child of [pos] that [_siftup] moves up: the right one unless the
    left one is smaller. *)
Definition smaller_child heap endpos pos : nat :=
  let childpos := 2 * pos + 1 in
  let rightpos := childpos + 1 in
  if decide (rightpos < endpos) then
    match heap !! childpos, heap !! rightpos with
    | Some l, Some r => if py_lt l r then childpos else rightpos
    | _, _ => childpos
    end
  else childpos.

(** The loop of [_siftup]: returns the heap and the final [pos]. *)
Fixpoint siftup_loop (fuel : nat) (endpos : nat) (heap : list A)
    (pos : nat) : list A * nat :=
  match fuel with
  | 0 => (heap, pos)
  | S fuel' =>
    if decide (2 * pos + 1 < endpos) then
      let childpos := smaller_child heap endpos pos in
      match heap !! childpos with
      | Some child =>
        siftup_loop fuel' endpos (<[pos := child]> heap) childpos
      | None => (heap, pos)
      end
    else (heap, pos)
  end.

Definition siftup heap pos : list A :=
  let endpos := length heap in
  match heap !! pos with
  | Some newitem =>
    let '(heap', pos') := siftup_loop endpos endpos heap pos in
    siftdown (<[pos' := newitem]> heap') pos pos'
  | None => heap
  end.

Definition heapq_push heap item : list A :=
  let heap := heap ++ [item] in
  siftdown heap 0 (length heap - 1).

Definition heapq_pop heap : option (A * list A) :=
  match last heap with
  | None => None
  | Some lastelt =>
    let heap := take (length heap - 1) heap in
    match heap with
    | [] => Some (lastelt, [])
    | returnitem :: _ => Some (returnitem, siftup (<[0 := lastelt]> heap) 0)
    end
  end.

(** The invariant of the library: no element is smaller than its
    parent. *)
Definition heap_ordered heap : Prop :=
  ∀ i j x y, heap !! i = Some x → heap !! j = Some y →
    j = 2 * i + 1 ∨ j = 2 * i + 2 → x ⪯ y.

Definition heapq : HeapOps A := {|
  heappush := heapq_push;
  heappop := heapq_pop;
  is_heap := heap_ordered;
|}.

(** [j] is a child of [i] in the array. *)
Definition child (i j : nat) : Prop := j = 2 * i + 1 ∨ j = 2 * i + 2.

(** The invariant of the loop of [_siftdown] for [startpos = 0]: the
    heap is ordered but for the edge that enters [pos], and [newitem] may
    be written at [pos] as far as the children of [pos] are concerned. *)
Record sifting_down (newitem : A) heap pos : Prop := {
  sd_range : pos < length heap;
  sd_ordered i j x y :
    heap !! i = Some x → heap !! j = Some y → child i j → j ≠ pos → x ⪯ y;
  sd_below j y : heap !! j = Some y → child pos j → newitem ⪯ y;
  sd_grand i j x y :
    heap !! i = Some x → heap !! j = Some y → child i pos → child pos j →
    x ⪯ y;
}.

(** The invariant of the loop of [_siftup]: the heap is ordered but for
    the edges that leave [pos]. *)
Record sifting_up heap pos : Prop := {
  su_range : pos < length heap;
  su_ordered i j x y :
    heap !! i = Some x → heap !! j = Some y → child i j → i ≠ pos → x ⪯ y;
  su_grand i j x y :
    heap !! i = Some x → heap !! j = Some y → child i pos → child pos j →
    x ⪯ y;
}.

End heapq.

Arguments heapq A {_}.

(** ** Indices *)

Lemma parent_child pos : 0 < pos → child ((pos - 1) `div` 2) pos.
Proof.
  intros. unfold child. pose proof (Nat.div_mod_eq (pos - 1) 2).
  pose proof (Nat.mod_upper_bound (pos - 1) 2). lia.
Qed.

Lemma child_parent i j : child i j → (j - 1) `div` 2 = i.
Proof.
  unfold child. intros. pose proof (Nat.div_mod_eq (j - 1) 2).
  pose proof (Nat.mod_upper_bound (j - 1) 2). lia.
Qed.

Lemma child_lt i j : child i j → i < j.
Proof. unfold child. lia. Qed.

Lemma child_inj i i' j : child i j → child i' j → i = i'.
Proof. unfold child. lia. Qed.

(** A lookup in a heap written at [pos]. *)
Ltac lookup_insert H :=
  apply list_lookup_insert_Some in H as [(<- & <- & ?)|[? H]].

(** ** [_siftdown] *)

Section siftdown.
Context `{PyLtLaws A}.
Implicit Types (heap : list A) (pos : nat) (newitem parent : A).

Lemma siftdown_loop_S fuel newitem startpos heap pos :
  siftdown_loop (S fuel) newitem startpos heap pos =
  if decide (startpos < pos) then
    match heap !! ((pos - 1) `div` 2) with
    | Some parent =>
      if py_lt newitem parent then
        siftdown_loop fuel newitem startpos (<[pos := parent]> heap)
          ((pos - 1) `div` 2)
      else (heap, pos)
    | None => (heap, pos)
    end
  else (heap, pos).
Proof. done. Qed.

Lemma sifting_down_step newitem heap pos parent :
  sifting_down newitem heap pos → 0 < pos →
  heap !! ((pos - 1) `div` 2) = Some parent → newitem ≺ parent →
  sifting_down newitem (<[pos := parent]> heap) ((pos - 1) `div` 2).
Proof.
  intros [Hr Ho Hb Hg] Hpos Hq Hlt.
  pose proof (parent_child pos Hpos) as Hc.
  pose proof (child_lt _ _ Hc) as Hqp. split.
  - rewrite length_insert. lia.
  - intros i j x y Hi Hj Hij Hne. lookup_insert Hi; lookup_insert Hj.
    + apply child_lt in Hij. lia.
    + eapply Hg; eauto.
    + rewrite <- (child_inj _ _ _ Hc Hij) in Hi. simplify_eq.
      apply py_le_refl.
    + eapply Ho; eauto.
  - intros j y Hj Hqj. lookup_insert Hj; [by apply py_lt_le |].
    apply py_lt_le. eapply py_lt_le_trans; [done |]. eapply Ho; eauto.
  - intros i j x y Hi Hj Hiq Hqj.
    pose proof (child_lt _ _ Hiq). lookup_insert Hi; [lia |].
    assert (x ⪯ parent) by (eapply Ho; eauto; lia).
    lookup_insert Hj; [done |].
    eapply py_le_trans; [done |]. eapply Ho; eauto.
Qed.

Lemma sifting_down_done newitem heap pos :
  sifting_down newitem heap pos →
  (∀ parent, 0 < pos → heap !! ((pos - 1) `div` 2) = Some parent →
     parent ⪯ newitem) →
  heap_ordered (<[pos := newitem]> heap).
Proof.
  intros [Hr Ho Hb Hg] Hp i j x y Hi Hj Hij.
  pose proof (child_lt _ _ Hij). lookup_insert Hi; lookup_insert Hj.
  - lia.
  - eapply Hb; eauto.
  - apply Hp; [lia |]. by rewrite (child_parent _ _ Hij).
  - eapply Ho; eauto.
Qed.

(** The loop moves items; with [newitem] written at the final [pos] the
    elements are those of the heap it started from. *)
Lemma siftdown_loop_perm fuel newitem startpos heap pos heap' pos' :
  pos < length heap →
  siftdown_loop fuel newitem startpos heap pos = (heap', pos') →
  <[pos' := newitem]> heap' ≡ₚ <[pos := newitem]> heap.
Proof.
  revert heap pos. induction fuel as [|fuel IH]; intros heap pos Hr;
    [by intros [= <- <-] |].
  rewrite siftdown_loop_S. case_decide as Hpos; [| by intros [= <- <-]].
  pose proof (child_lt _ _ (parent_child pos ltac:(lia))) as Hqp.
  destruct (heap !! _) as [parent|] eqn:Hq; [| by intros [= <- <-]].
  destruct (py_lt newitem parent); [| by intros [= <- <-]].
  intros ->%IH; [| rewrite length_insert; lia].
  apply insert_move_perm; [done.. | lia].
Qed.

Lemma siftdown_perm heap startpos pos : siftdown heap startpos pos ≡ₚ heap.
Proof.
  unfold siftdown. destruct (heap !! pos) as [newitem|] eqn:Hpos; [| done].
  destruct (siftdown_loop _ _ _ _ _) as [heap' pos'] eqn:Hloop.
  apply siftdown_loop_perm in Hloop as ->; [| by eapply lookup_lt_Some].
  by rewrite list_insert_id.
Qed.

(** With [startpos = 0] and enough fuel the loop leaves a heap. *)
Lemma siftdown_loop_ordered fuel newitem heap pos heap' pos' :
  pos ≤ fuel → sifting_down newitem heap pos →
  siftdown_loop fuel newitem 0 heap pos = (heap', pos') →
  heap_ordered (<[pos' := newitem]> heap').
Proof.
  revert heap pos. induction fuel as [|fuel IH]; intros heap pos Hf Hsd.
  { intros [= <- <-]. apply sifting_down_done; [done | lia]. }
  rewrite siftdown_loop_S. case_decide as Hpos;
    [| intros [= <- <-]; apply sifting_down_done; [done | lia]].
  pose proof (child_lt _ _ (parent_child pos Hpos)) as Hqp.
  destruct (heap !! _) as [parent|] eqn:Hq;
    [| apply lookup_ge_None in Hq; destruct Hsd; lia].
  destruct (py_lt newitem parent) eqn:Hlt.
  - apply IH; [lia | by apply sifting_down_step].
  - intros [= <- <-]. apply sifting_down_done; [done |].
    intros p _ Hp. by simplify_eq.
Qed.

Lemma siftdown_ordered heap pos newitem :
  heap !! pos = Some newitem → sifting_down newitem heap pos →
  heap_ordered (siftdown heap 0 pos).
Proof.
  intros Hpos Hsd. unfold siftdown. rewrite Hpos.
  destruct (siftdown_loop _ _ _ _ _) as [heap' pos'] eqn:Hloop.
  by apply siftdown_loop_ordered in Hloop.
Qed.

End siftdown.

(** ** [_siftup] *)

Section siftup.
Context `{PyLtLaws A}.
Implicit Types (heap : list A) (pos : nat) (newitem : A).

Lemma siftup_loop_S fuel endpos heap pos :
  siftup_loop (S fuel) endpos heap pos =
  if decide (2 * pos + 1 < endpos) then
    match heap !! smaller_child heap endpos pos with
    | Some c => siftup_loop fuel endpos (<[pos := c]> heap)
                  (smaller_child heap endpos pos)
    | None => (heap, pos)
    end
  else (heap, pos).
Proof. done. Qed.

(** The child chosen is a child, in range, and no other child is
    smaller. *)
Lemma smaller_child_spec heap pos :
  2 * pos + 1 < length heap →
  ∃ x, heap !! smaller_child heap (length heap) pos = Some x ∧
    child pos (smaller_child heap (length heap) pos) ∧
    ∀ j y, heap !! j = Some y → child pos j → x ⪯ y.
Proof.
  intros Hlen. unfold smaller_child, child.
  destruct (lookup_lt_is_Some_2 heap (2 * pos + 1)) as [l Hl]; [done |].
  case_decide as Hr.
  - destruct (lookup_lt_is_Some_2 heap (2 * pos + 1 + 1)) as [r Hr'];
      [done |].
    rewrite Hl, Hr'. destruct (py_lt l r) eqn:Hlt.
    + exists l. split_and!; [done | lia |].
      intros j y Hj [->| ->]; simplify_eq; [apply py_le_refl |].
      replace (2 * pos + 2) with (2 * pos + 1 + 1) in Hj by lia.
      simplify_eq. by apply py_lt_le.
    + exists r. split_and!; [done | lia |].
      intros j y Hj [->| ->]; simplify_eq; [done |].
      replace (2 * pos + 2) with (2 * pos + 1 + 1) in Hj by lia.
      simplify_eq. apply py_le_refl.
  - exists l. split_and!; [done | lia |].
    intros j y Hj [->| ->]; simplify_eq; [apply py_le_refl |].
    apply lookup_lt_Some in Hj. lia.
Qed.

Lemma sifting_up_step heap pos c x :
  sifting_up heap pos → heap !! c = Some x → child pos c →
  (∀ j y, heap !! j = Some y → child pos j → x ⪯ y) →
  sifting_up (<[pos := x]> heap) c.
Proof.
  intros [Hr Ho Hg] Hc Hpc Hmin. pose proof (child_lt _ _ Hpc). split.
  - rewrite length_insert. by eapply lookup_lt_Some.
  - intros i j a b Hi Hj Hij Hne. pose proof (child_lt _ _ Hij).
    lookup_insert Hi; lookup_insert Hj.
    + lia.
    + eapply Hmin; eauto.
    + eapply Hg; eauto.
    + eapply Ho; eauto.
  - intros i j a b Hi Hj Hic Hcj. pose proof (child_lt _ _ Hcj).
    rewrite (child_inj _ _ _ Hic Hpc) in Hi.
    rewrite list_lookup_insert_eq in Hi by done.
    rewrite list_lookup_insert_ne in Hj by lia. simplify_eq.
    eapply Ho; eauto. lia.
Qed.

(** At a leaf the item can be written and sifted down. *)
Lemma sifting_up_done newitem heap pos :
  sifting_up heap pos → length heap ≤ 2 * pos + 1 →
  sifting_down newitem (<[pos := newitem]> heap) pos.
Proof.
  intros [Hr Ho Hg] Hleaf.
  assert (∀ j y, <[pos := newitem]> heap !! j = Some y → ¬ child pos j).
  { intros j y Hj%lookup_lt_Some. rewrite length_insert in Hj.
    unfold child. lia. }
  split; [by rewrite length_insert | | naive_solver..].
  intros i j x y Hi Hj Hij Hne. lookup_insert Hi; [naive_solver |].
  rewrite list_lookup_insert_ne in Hj by done. eapply Ho; eauto.
Qed.

Lemma smaller_child_child heap endpos pos :
  child pos (smaller_child heap endpos pos).
Proof.
  unfold smaller_child, child. repeat case_match; lia.
Qed.

Lemma siftup_loop_perm fuel endpos heap pos heap' pos' newitem :
  siftup_loop fuel endpos heap pos = (heap', pos') →
  <[pos' := newitem]> heap' ≡ₚ <[pos := newitem]> heap.
Proof.
  revert heap pos. induction fuel as [|fuel IH]; intros heap pos;
    [by intros [= <- <-] |].
  rewrite siftup_loop_S. case_decide as Hpos; [| by intros [= <- <-]].
  pose proof (child_lt _ _ (smaller_child_child heap endpos pos)).
  destruct (heap !! _) as [x|] eqn:Hx; [| by intros [= <- <-]].
  intros ->%IH. apply insert_move_perm; [| done | lia].
  apply lookup_lt_Some in Hx. lia.
Qed.

Lemma siftup_perm heap pos : siftup heap pos ≡ₚ heap.
Proof.
  unfold siftup. destruct (heap !! pos) as [newitem|] eqn:Hpos; [| done].
  destruct (siftup_loop _ _ _ _) as [heap' pos'] eqn:Hloop.
  rewrite siftdown_perm. apply (siftup_loop_perm _ _ _ _ _ _ newitem) in Hloop.
  by rewrite Hloop, list_insert_id.
Qed.

(** With enough fuel the loop stops at a leaf. *)
Lemma siftup_loop_ordered fuel heap pos heap' pos' :
  length heap ≤ fuel + pos → sifting_up heap pos →
  siftup_loop fuel (length heap) heap pos = (heap', pos') →
  sifting_up heap' pos' ∧ length heap' ≤ 2 * pos' + 1.
Proof.
  revert heap pos. induction fuel as [|fuel IH]; intros heap pos Hf Hsu.
  { intros [= <- <-]. split; [done | lia]. }
  rewrite siftup_loop_S. case_decide as Hpos;
    [| intros [= <- <-]; split; [done | lia]].
  destruct (smaller_child_spec heap pos Hpos) as (x & Hx & Hc & Hmin).
  pose proof (child_lt _ _ Hc). rewrite Hx.
  rewrite <- (length_insert heap pos x) at 1.
  apply IH; [rewrite length_insert; lia | by eapply sifting_up_step].
Qed.

Lemma siftup_ordered heap : sifting_up heap 0 → heap_ordered (siftup heap 0).
Proof.
  intros Hsu. unfold siftup.
  destruct (lookup_lt_is_Some_2 heap 0) as [newitem ->];
    [by destruct Hsu |].
  destruct (siftup_loop _ _ _ _) as [heap' pos'] eqn:Hloop.
  apply siftup_loop_ordered in Hloop as [Hsu' Hleaf]; [| lia | done].
  apply (siftdown_ordered _ _ newitem); [| by apply sifting_up_done].
  apply list_lookup_insert_eq. by destruct Hsu'.
Qed.

End siftup.

(** ** The laws of the queue *)

Section heapq_laws.
Context `{PyLtLaws A}.
Implicit Types (heap t : list A) (x y : A).

(** No element of a heap is smaller than its first. *)
Lemma heap_ordered_root heap r i y :
  heap_ordered heap → heap !! 0 = Some r → heap !! i = Some y → r ⪯ y.
Proof.
  intros Ho Hr. revert y. induction (lt_wf i) as [i _ IH]. intros y Hi.
  destruct (decide (i = 0)) as [->|Hne]; [simplify_eq; apply py_le_refl |].
  pose proof (parent_child i ltac:(lia)) as Hc.
  pose proof (child_lt _ _ Hc). apply lookup_lt_Some in Hi as Hlt.
  destruct (lookup_lt_is_Some_2 heap ((i - 1) `div` 2)) as [z Hz]; [lia |].
  eapply py_le_trans; [by eapply IH |]. eapply Ho; eauto.
Qed.

Lemma heap_ordered_short heap : length heap ≤ 1 → heap_ordered heap.
Proof.
  intros Hlen i j x y Hi%lookup_lt_Some Hj%lookup_lt_Some. lia.
Qed.

Lemma heap_ordered_take n heap :
  heap_ordered heap → heap_ordered (take n heap).
Proof.
  intros Ho i j x y [Hi _]%lookup_take_Some [Hj _]%lookup_take_Some.
  by apply Ho.
Qed.

Lemma heapq_push_ordered heap x :
  heap_ordered heap → heap_ordered (heapq_push heap x).
Proof.
  intros Ho. unfold heapq_push. rewrite length_app, Nat.add_sub.
  apply (siftdown_ordered _ _ x); [by apply list_lookup_middle |].
  assert (∀ j y, (heap ++ [x]) !! j = Some y → ¬ child (length heap) j).
  { intros j y Hj%lookup_lt_Some. rewrite length_app in Hj. simpl in Hj.
    unfold child. lia. }
  split; [rewrite length_app; simpl; lia | | naive_solver..].
  intros i j a b Hi Hj Hij Hne. pose proof (child_lt _ _ Hij).
  apply lookup_lt_Some in Hj as Hlt. rewrite length_app in Hlt.
  simpl in Hlt. rewrite lookup_app_l in Hi, Hj by lia. by eapply Ho.
Qed.

Lemma heapq_push_perm heap x : heapq_push heap x ≡ₚ x :: heap.
Proof.
  unfold heapq_push. rewrite siftdown_perm. by rewrite Permutation_app_comm.
Qed.

(** [heappop] on the three shapes of a list. *)
Lemma heapq_pop_inv heap x heap' :
  heapq_pop heap = Some (x, heap') →
  (heap = [x] ∧ heap' = []) ∨
  ∃ t lastelt, heap = x :: t ++ [lastelt] ∧
    heap' = siftup (lastelt :: t) 0.
Proof.
  unfold heapq_pop. destruct (last heap) as [lastelt|] eqn:Hlast; [| done].
  apply last_Some in Hlast as [l ->].
  rewrite length_app, Nat.add_sub, take_app_length.
  destruct l as [|r t]; intros [= <- <-]; eauto.
Qed.

Lemma heapq_pop_ordered heap x heap' :
  heap_ordered heap → heapq_pop heap = Some (x, heap') → heap_ordered heap'.
Proof.
  intros Ho [[-> ->]|(t & lastelt & -> & ->)]%heapq_pop_inv;
    [by apply heap_ordered_short; simpl; lia |].
  apply siftup_ordered. split; [simpl; lia | | unfold child; lia].
  intros i j a b Hi Hj Hij Hne. pose proof (child_lt _ _ Hij).
  destruct i as [|i], j as [|j]; try lia. simpl in Hi, Hj.
  apply (Ho (S i) (S j)); [| | done]; simpl;
    by apply lookup_app_l_Some.
Qed.

Lemma heapq_pop_perm heap x heap' :
  heapq_pop heap = Some (x, heap') → heap ≡ₚ x :: heap'.
Proof.
  intros [[-> ->]|(t & lastelt & -> & ->)]%heapq_pop_inv; [done |].
  rewrite siftup_perm. f_equiv. by rewrite Permutation_app_comm.
Qed.

Lemma heapq_pop_min heap x heap' y :
  heap_ordered heap → heapq_pop heap = Some (x, heap') → y ∈ heap → x ⪯ y.
Proof.
  intros Ho Hpop [i Hi]%list_elem_of_lookup.
  apply (heap_ordered_root heap x i y); [done | | done].
  by destruct (heapq_pop_inv _ _ _ Hpop) as [[-> _]|(? & ? & -> & _)].
Qed.

Lemma heapq_pop_is_Some heap : heap ≠ [] → is_Some (heapq_pop heap).
Proof.
  intros Hne. unfold heapq_pop.
  destruct (last heap) eqn:Hlast; [| by apply last_None in Hlast].
  case_match; eauto.
Qed.

#[export] Instance heapq_laws : HeapLaws A (H0 := heapq A).
Proof.
  split; simpl.
  - intros x. by apply heap_ordered_short.
  - apply heapq_push_ordered.
  - apply heapq_push_perm.
  - done.
  - apply heapq_pop_is_Some.
  - apply heapq_pop_ordered.
  - apply heapq_pop_perm.
  - intros heap x heap' ? ? y ?. by eapply heapq_pop_min.
Qed.

End heapq_laws.
