(* ===== verification/Graph.v ===== *)
(** * Graphs as the engine receives them, and what a shortest path is

    The [graph] argument of [dijkstra] is a dict that maps a node to the
    dict of its out-edges, [{neighbor: weight}].  The outer dict is only
    read by key, so it is a [gmap]; the inner one is iterated with
    [.items()], so it is the list of its items in insertion order.

    This file holds the vocabulary of the specification: [edge], [walk]
    (a sequence of edges with its cost), [is_path] (the same for the list
    of nodes that the engine returns), [path_cost] (the executable check
    of a node list, [path_cost_spec]), the conditions [closed] (every
    neighbour is a key), [nonneg] (no negative weight) and [dict_like]
    (no neighbour listed twice) with their decision procedures,
    [edge_count] and [unvisited_degree] (the termination measure), and
    the lemma [walk_leaves] on a walk that leaves a set of nodes.
    [same_edges] is the equivalence of graphs that walks see: [walk],
    [reachable_from], [shortest] and [nonneg] respect it. *)

From S2P Require Import Prelude.

Abbreviation graph K := (gmap K (list (K * Z))).

Section graph.
Context `{Countable K}.
Implicit Types (g : graph K) (u v x y s e : K) (w c : Z) (p : list K).
Implicit Types (adj : list (K * Z)) (V : gset K).

(** ** Edges, walks, paths *)

Definition edge g u v w : Prop := ∃ adj, g !! u = Some adj ∧ (v, w) ∈ adj.

Inductive walk g : K → K → Z → Prop :=
| walk_nil u : walk g u u 0
| walk_step u v x w c : edge g u v w → walk g v x c → walk g u x (w + c).

Inductive is_path g : list K → Z → Prop :=
| is_path_one u : is_path g [u] 0
| is_path_cons u v p w c :
    edge g u v w → is_path g (v :: p) c → is_path g (u :: v :: p) (w + c).

Definition reachable_from g s e : Prop := ∃ c, walk g s e c.

(** Two graphs with the same edges: the order in which a node lists its
    neighbours does not matter, nor does a key without out-edges. *)
Definition same_edges g g' : Prop := ∀ u v w, edge g u v w ↔ edge g' u v w.

(** [c] is the least cost of a walk from [s] to [e]. *)
Definition shortest g s e c : Prop :=
  walk g s e c ∧ ∀ c', walk g s e c' → (c ≤ c')%Z.

(** The weight that [graph[u][v]] evaluates to. *)
Definition weight g u v : option Z :=
  adj ← g !! u; snd <$> (snd <$> list_find (λ kv, kv.1 = v) adj).

(** The cost of a list of nodes, when consecutive nodes are joined by
    edges. *)
Fixpoint path_cost g p : option Z :=
  match p with
  | [] => None
  | u :: p' =>
    match p' with
    | [] => Some 0%Z
    | v :: _ => w ← weight g u v; c ← path_cost g p'; Some (w + c)%Z
    end
  end.

(** ** Well-formedness *)

(** Every neighbour is a key of the graph. *)
Definition closed g : Prop :=
  map_Forall (λ _ adj, Forall (λ kv, kv.1 ∈ dom g) adj) g.

(** No weight is negative. *)
Definition nonneg g : Prop :=
  map_Forall (λ _ adj, Forall (λ kv, (0 ≤ kv.2)%Z) adj) g.

(** No neighbour is listed twice by a node, as in a Python dict. *)
Definition dict_like g : Prop :=
  map_Forall (λ _ adj, NoDup adj.*1) g.

#[export] Instance dict_like_dec g : Decision (dict_like g).
Proof. unfold dict_like. apply _. Defined.

#[export] Instance closed_dec g : Decision (closed g).
Proof. unfold closed. apply _. Defined.

#[export] Instance nonneg_dec g : Decision (nonneg g).
Proof. unfold nonneg. apply _. Defined.

(** ** Measures *)

Definition edge_count g : nat :=
  sum_list_with (λ kv, length kv.2) (map_to_list g).

(** The number of edges that leave a node outside [V]. *)
Definition unvisited_degree g V : nat :=
  sum_list_with (λ kv, if decide (kv.1 ∈ V) then 0 else length kv.2)
    (map_to_list g).

(** ** Lemmas *)

Lemma edge_lookup g u adj v w : g !! u = Some adj → (v, w) ∈ adj → edge g u v w.
Proof. unfold edge; eauto. Qed.

Lemma closed_spec g :
  closed g ↔ ∀ u v w, edge g u v w → v ∈ dom g.
Proof.
  unfold closed, edge. rewrite map_Forall_lookup. split.
  - intros Hc u v w (adj & Hu & Hv).
    by eapply (proj1 (Forall_forall _ _) (Hc _ _ Hu) (v, w)).
  - intros Hc u adj Hu. apply Forall_forall. intros [v w] Hv. eauto.
Qed.

Lemma nonneg_spec g :
  nonneg g ↔ ∀ u v w, edge g u v w → (0 ≤ w)%Z.
Proof.
  unfold nonneg, edge. rewrite map_Forall_lookup. split.
  - intros Hc u v w (adj & Hu & Hv).
    by eapply (proj1 (Forall_forall _ _) (Hc _ _ Hu) (v, w)).
  - intros Hc u adj Hu. apply Forall_forall. intros [v w] Hv. eauto.
Qed.

Lemma edge_source g u v w : edge g u v w → u ∈ dom g.
Proof. intros (adj & Hu & _). by apply elem_of_dom. Qed.

Lemma walk_edge g u v w : edge g u v w → walk g u v w.
Proof.
  intros He. replace w with (w + 0)%Z by lia. eauto using walk.
Qed.

Lemma walk_trans g u v x c1 c2 :
  walk g u v c1 → walk g v x c2 → walk g u x (c1 + c2).
Proof.
  induction 1 as [|u v y w c He Hw IH]; intros Hx; [done |].
  rewrite <- Z.add_assoc. eauto using walk.
Qed.

Lemma walk_snoc g u v x c w :
  walk g u v c → edge g v x w → walk g u x (c + w).
Proof. eauto using walk_trans, walk_edge. Qed.

Lemma walk_nonneg g u v c : nonneg g → walk g u v c → (0 ≤ c)%Z.
Proof.
  rewrite nonneg_spec. intros Hg. induction 1 as [|? ? ? ? ? He]; [done |].
  apply Hg in He. lia.
Qed.

(** A walk that can be continued starts at a key of the graph. *)
Lemma walk_source g s u v c w : walk g s u c → edge g u v w → s ∈ dom g.
Proof. destruct 1; eauto using edge_source. Qed.

(** A walk that starts from a node without out-edges goes nowhere. *)
Lemma walk_no_edges g u v c :
  (∀ x w, ¬ edge g u x w) → walk g u v c → v = u ∧ c = 0%Z.
Proof. intros Hu. destruct 1; [done | by edestruct Hu]. Qed.

(** A walk from inside [V] to outside of it crosses an edge that leaves
    [V]. *)
Lemma walk_leaves g V s e c :
  walk g s e c → s ∈ V → e ∉ V →
  ∃ x y w c1 c2,
    walk g s x c1 ∧ x ∈ V ∧ edge g x y w ∧ (y ∉ V) ∧ walk g y e c2 ∧
    (c = c1 + w + c2)%Z.
Proof.
  induction 1 as [u|u v x w c He Hw IH]; intros Hs Hx; [done |].
  destruct (decide (v ∈ V)) as [Hv|Hv].
  - destruct (IH Hv Hx) as (x' & y & w' & c1 & c2 & ? & ? & ? & ? & ? & ->).
    exists x', y, w', (w + c1)%Z, c2. split_and!; eauto using walk; lia.
  - exists u, v, w, 0%Z, c. split_and!; eauto using walk; lia.
Qed.

(** ** Paths as lists of nodes *)

Lemma is_path_nonempty g p c : is_path g p c → p ≠ [].
Proof. by destruct 1. Qed.

Lemma is_path_walk g p c :
  is_path g p c → ∃ s e, head p = Some s ∧ last p = Some e ∧ walk g s e c.
Proof.
  induction 1 as [u|u v p w c He Hp (s & e & Hs & He' & Hw)].
  - exists u, u. eauto using walk.
  - simpl in Hs. injection Hs as <-. exists u, e. eauto using walk.
Qed.

Lemma is_path_snoc g p u v w c :
  is_path g p c → last p = Some u → edge g u v w →
  is_path g (p ++ [v]) (c + w).
Proof.
  induction 1 as [x|x y p w' c He Hp IH]; simpl.
  - intros [= ->] Hv. replace (0 + w)%Z with (w + 0)%Z by lia.
    eauto using is_path.
  - intros Hl Hv. rewrite <- Z.add_assoc. constructor; [done |].
    by apply IH.
Qed.

Lemma weight_edge g u v w : weight g u v = Some w → edge g u v w.
Proof.
  unfold weight. destruct (g !! u) as [adj|] eqn:Hu; simpl; [| done].
  destruct (list_find _ adj) as [[i [v' w']]|] eqn:Hf; simpl; [| done].
  intros [= ->]. apply list_find_Some in Hf as (Hi & Hv & _). simpl in Hv.
  subst. exists adj. split; [done |]. by eapply list_elem_of_lookup_2.
Qed.

Lemma path_cost_cons g u v p :
  path_cost g (u :: v :: p) =
  w ← weight g u v; c ← path_cost g (v :: p); Some (w + c)%Z.
Proof. done. Qed.

Lemma path_cost_is_path g p c : path_cost g p = Some c → is_path g p c.
Proof.
  revert c; induction p as [|u [|v p] IH]; intros c; [done | |].
  - intros [= <-]. constructor.
  - rewrite path_cost_cons.
    intros (w & Hw & (c' & Hc & [= <-])%bind_Some)%bind_Some.
    constructor; eauto using weight_edge.
Qed.

(** ** Graphs with the same edges *)

#[export] Instance same_edges_equivalence : Equivalence same_edges.
Proof.
  split; [by intros g u v w | by intros g g' Hg u v w; rewrite (Hg u v w) |].
  intros g1 g2 g3 H1 H2 u v w. by rewrite (H1 u v w).
Qed.

Lemma walk_same_edges g g' s e c :
  same_edges g g' → walk g s e c → walk g' s e c.
Proof. intros Hg. induction 1; econstructor; eauto; by apply Hg. Qed.

(** Walks, and what is defined from them, depend on the edges only. *)
#[export] Instance walk_proper :
  Proper (same_edges ==> eq ==> eq ==> eq ==> iff) walk.
Proof.
  intros g g' Hg s ? <- e ? <- c ? <-.
  split; apply walk_same_edges; [done | by symmetry].
Qed.

#[export] Instance reachable_from_proper :
  Proper (same_edges ==> eq ==> eq ==> iff) reachable_from.
Proof.
  intros g g' Hg s ? <- e ? <-. unfold reachable_from.
  by setoid_rewrite Hg.
Qed.

#[export] Instance shortest_proper :
  Proper (same_edges ==> eq ==> eq ==> eq ==> iff) shortest.
Proof.
  intros g g' Hg s ? <- e ? <- c ? <-. unfold shortest.
  by setoid_rewrite Hg.
Qed.

#[export] Instance nonneg_proper : Proper (same_edges ==> iff) nonneg.
Proof.
  intros g g' Hg. rewrite !nonneg_spec.
  split; intros Hn u v w He; apply (Hn u v w); by apply Hg.
Qed.

(** The order in which a node lists its neighbours keeps the edges. *)
Lemma same_edges_insert_perm g x adj adj' :
  g !! x = Some adj → adj' ≡ₚ adj → same_edges (<[x := adj']> g) g.
Proof.
  intros Hx Hp u v w. unfold edge. destruct (decide (u = x)) as [->|Hne].
  - rewrite lookup_insert_eq, Hx. split; intros (? & [= <-] & Hin);
      eexists; (split; [done |]); [by rewrite <- Hp | by rewrite Hp].
  - by rewrite lookup_insert_ne.
Qed.

(** With the same keys, the same neighbours are keys. *)
Lemma closed_same_edges g g' :
  same_edges g g' → dom g = dom g' → closed g → closed g'.
Proof.
  rewrite !closed_spec. intros Hg Hd Hc u v w He%Hg. rewrite <- Hd. eauto.
Qed.

(** A path is a walk between its ends. *)
Lemma is_path_walk_ends g p s e c :
  is_path g p c → head p = Some s → last p = Some e → walk g s e c.
Proof. intros (s' & e' & ? & ? & ?)%is_path_walk ? ?. by simplify_eq. Qed.

Lemma is_path_cons_head g u v w p c :
  edge g u v w → is_path g p c → head p = Some v →
  is_path g (u :: p) (w + c).
Proof.
  intros He Hp Hh. destruct Hp; simplify_eq/=; eauto using is_path.
Qed.

(** A path splits at each of its nodes, and so does its cost. *)
Lemma is_path_split g p1 x p2 c :
  is_path g (p1 ++ x :: p2) c →
  ∃ c1 c2,
    is_path g (p1 ++ [x]) c1 ∧ is_path g (x :: p2) c2 ∧ c = (c1 + c2)%Z.
Proof.
  revert c. induction p1 as [|u p1 IH]; intros c Hp; simpl in *.
  { exists 0%Z, c. split_and!; [constructor | done | lia]. }
  inversion Hp as [|? v p w c' He Hp' [Hu Heq]]; subst; [by destruct p1 |].
  rewrite Heq in Hp'. apply IH in Hp' as (c1 & c2 & Hp1 & Hp2 & ->).
  exists (w + c1)%Z, c2. split_and!; [| done | lia].
  apply is_path_cons_head with v; [done.. |]. by destruct p1; simplify_eq/=.
Qed.

Lemma shortest_unique g s e c c' :
  shortest g s e c → shortest g s e c' → c = c'.
Proof.
  intros [Hw Hmin] [Hw' Hmin']. apply Hmin in Hw'. apply Hmin' in Hw. lia.
Qed.

(** A shortest walk is made of shortest walks. *)
Lemma shortest_prefix g s x e c1 c2 :
  shortest g s e (c1 + c2) → walk g s x c1 → walk g x e c2 →
  shortest g s x c1.
Proof.
  intros [_ Hmin] Hw1 Hw2. split; [done |]. intros c' Hw.
  pose proof (Hmin _ (walk_trans _ _ _ _ _ _ Hw Hw2)). lia.
Qed.

Lemma path_cost_walk g p s e c :
  path_cost g p = Some c → head p = Some s → last p = Some e →
  walk g s e c.
Proof. intros ?%path_cost_is_path. by apply is_path_walk_ends. Qed.



(** ** The termination measure *)

Lemma unvisited_degree_empty g : unvisited_degree g ∅ = edge_count g.
Proof. done. Qed.

Lemma unvisited_degree_mono g V u :
  unvisited_degree g ({[u]} ∪ V) ≤ unvisited_degree g V.
Proof.
  unfold unvisited_degree. induction (map_to_list g) as [|[k adj] l IH];
    simpl; [done |].
  repeat case_decide; try lia. set_solver.
Qed.

(** Visiting a node with out-edges [adj] frees [length adj] units. *)
Lemma unvisited_degree_visit g V u adj :
  g !! u = Some adj → u ∉ V →
  unvisited_degree g ({[u]} ∪ V) + length adj ≤ unvisited_degree g V.
Proof.
  intros Hu HV. unfold unvisited_degree.
  rewrite <- (insert_delete_id g u adj Hu) at 1 2.
  rewrite !(sum_list_with_Permutation_proper _ _ _
    (map_to_list_insert _ _ _ (lookup_delete_eq g u))). simpl.
  rewrite decide_True by set_solver. rewrite decide_False by done.
  enough (∀ l : list (K * list (K * Z)),
    sum_list_with (λ kv, if decide (kv.1 ∈ {[u]} ∪ V) then 0 else length kv.2) l
    ≤ sum_list_with (λ kv, if decide (kv.1 ∈ V) then 0 else length kv.2) l)
    as Hle by (specialize (Hle (map_to_list (delete u g))); lia).
  induction l as [|[k a] l IH]; simpl; [done |].
  repeat case_decide; try lia. set_solver.
Qed.

End graph.

#[export] Hint Constructors walk is_path : dijk.
#[export] Hint Resolve walk_edge walk_snoc walk_trans edge_lookup : dijk.
