(* ===== verification/Dijkstra.v ===== *)
(** * The shortest-path engine: [dijkstra] of [src/dijkstra.py]

    The function is modelled statement by statement.

    - [state] holds the four variables of the function: [pq],
      [distances], [predecessors], [visited].
    - [init_state] is the initialisation (lines 21-31).
    - [with_pq], [add_visited] and [improve] are the three ways the code
      changes the state: [heappop] (line 34), [visited.add] (line 46) and
      the three assignments of a relaxation (lines 58-60).
    - [relax] is the body of the [for] loop over the out-edges of the
      current node (lines 51-60), [expand] the loop under its guard
      [if current_node in graph] (lines 49-60).
    - [reconstruct] is the inner [while] that follows [predecessors]
      back from [end] (lines 38-42).
    - [step] is one iteration of [while pq] (lines 33-60), [loop] the
      iteration with fuel, [dijkstra] the whole function.

    Lookups [d[k]] that Python answers with [KeyError] return
    [Raise (KeyError k)].  The queue operations are those of a
    [HeapOps (Z * K)] instance: the theorems hold for every lawful one,
    and [Heapq] provides CPython's.

    [reachable] is the closure of [step] from [init_state]: the states
    at the head of the [while] loop.  The lemmas of this file are the
    equations and inversions of the definitions, one per branch of the
    code. *)

From S2P Require Import Prelude PyValues PQueue Graph.

Section dijkstra.
Context `{Countable K} `{HeapOps (Z * K)}.
Implicit Types (g : graph K) (start u v : K) (d w : Z).

Record state : Type := State {
  pq : list (Z * K);
  distances : gmap K dist;
  predecessors : gmap K (option K);
  visited : gset K;
}.

(** What the function returns, or the exception it raises. *)
Definition outcome : Type := result (exn K) (dist * list K).

(** Lines 21-31. *)
Definition init_state g start : state := {|
  pq := [(0%Z, start)];
  distances := <[start := Fin 0]> ((λ _, Inf) <$> g);
  predecessors := (λ _, None) <$> g;
  visited := ∅;
|}.

(** Line 34: [heappop] leaves [pq'] in [pq]. *)
Definition with_pq (st : state) (pq' : list (Z * K)) : state := {|
  pq := pq';
  distances := distances st;
  predecessors := predecessors st;
  visited := visited st;
|}.

(** Line 46: [visited.add(current_node)]. *)
Definition add_visited (current_node : K) (st : state) : state := {|
  pq := pq st;
  distances := distances st;
  predecessors := predecessors st;
  visited := {[current_node]} ∪ visited st;
|}.

(** Lines 58-60: the assignments of a relaxation that improves. *)
Definition improve (current_node neighbor : K) (new_distance : Z)
    (st : state) : state := {|
  pq := heappush (pq st) (new_distance, neighbor);
  distances := <[neighbor := Fin new_distance]> (distances st);
  predecessors := <[neighbor := Some current_node]> (predecessors st);
  visited := visited st;
|}.

(** Lines 51-60: the body of [for neighbor, weight in ...items()]. *)
Definition relax (current_node : K) (current_distance : Z)
    (st : state) (item : K * Z) : result (exn K) state :=
  let '(neighbor, weight) := item in
  if decide (neighbor ∈ visited st) then Ok st
  else
    let new_distance := (current_distance + weight)%Z in
    match distances st !! neighbor with
    | None => Raise (KeyError neighbor)
    | Some old =>
      if py_lt (Fin new_distance) old
      then Ok (improve current_node neighbor new_distance st)
      else Ok st
    end.

(** Lines 49-60: [if current_node in graph: for ... in graph[current_node]]. *)
Definition expand g (current_node : K) (current_distance : Z)
    (st : state) : result (exn K) state :=
  match g !! current_node with
  | Some items => foldM (relax current_node current_distance) items st
  | None => Ok st
  end.

(** Lines 38-41: [while current_node is not None], with fuel. *)
Fixpoint reconstruct (fuel : nat) (preds : gmap K (option K))
    (current_node : option K) (path : list K) :
    option (result (exn K) (list K)) :=
  match current_node with
  | None => Some (Ok path)
  | Some u =>
    match fuel with
    | 0 => None
    | S fuel' =>
      match preds !! u with
      | None => Some (Raise (KeyError u))
      | Some prev => reconstruct fuel' preds prev (path ++ [u])
      end
    end
  end.

(** The fuel that [step] gives to [reconstruct]. *)
Definition reconstruct_fuel (st : state) : nat := S (size (visited st)).

(** Lines 38-42: the [return] taken when [end] is popped. *)
Definition finish (current_distance : Z) (current_node : K) (st : state) :
    option outcome :=
  fmap (M := result (exn K)) (λ path, (Fin current_distance, reverse path))
    <$> reconstruct (reconstruct_fuel st) (predecessors st)
          (Some current_node) [].

Inductive step_result : Type :=
| Continue (st : state)
| Done (r : option outcome).

(** Lines 33-60 and 62: one iteration of [while pq], or its exit. *)
Definition step g (end_ : K) (st : state) : step_result :=
  match pq st with
  | [] => Done (Some (Ok (Inf, [])))
  | _ :: _ =>
    match heappop (pq st) with
    | None => Done (Some (Raise IndexError))
    | Some ((current_distance, current_node), pq') =>
      let st := with_pq st pq' in
      if decide (current_node = end_) then
        Done (finish current_distance current_node st)
      else if decide (current_node ∈ visited st) then Continue st
      else
        match expand g current_node current_distance
                (add_visited current_node st) with
        | Ok st' => Continue st'
        | Raise e => Done (Some (Raise e))
        end
    end
  end.

Fixpoint loop (fuel : nat) g (end_ : K) (st : state) : option outcome :=
  match fuel with
  | 0 => None
  | S fuel' =>
    match step g end_ st with
    | Done r => r
    | Continue st' => loop fuel' g end_ st'
    end
  end.

(** The fuel that [dijkstra] gives to [loop]. *)
Definition dijkstra_fuel g : nat := S (S (edge_count g)).

(** Lines 3-62. *)
Definition dijkstra g start (end_ : K) : option outcome :=
  loop (dijkstra_fuel g) g end_ (init_state g start).

(** The states at the head of the [while] loop. *)
Inductive reachable g start (end_ : K) : state → Prop :=
| reachable_init : reachable g start end_ (init_state g start)
| reachable_step st st' :
    reachable g start end_ st → step g end_ st = Continue st' →
    reachable g start end_ st'.

(** ** [relax], branch by branch *)

Lemma relax_visited u d st v w :
  v ∈ visited st → relax u d st (v, w) = Ok st.
Proof. intros Hv. unfold relax. by rewrite decide_True. Qed.

Lemma relax_KeyError u d st v w :
  v ∉ visited st → distances st !! v = None →
  relax u d st (v, w) = Raise (KeyError v).
Proof. intros Hv Hd. unfold relax. by rewrite decide_False, Hd. Qed.

Lemma relax_improve u d st v w old :
  v ∉ visited st → distances st !! v = Some old → Fin (d + w) ≺ old →
  relax u d st (v, w) = Ok (improve u v (d + w) st).
Proof. intros Hv Hd Hlt. unfold relax. by rewrite decide_False, Hd, Hlt. Qed.

Lemma relax_keep u d st v w old :
  v ∉ visited st → distances st !! v = Some old →
  py_lt (Fin (d + w)) old = false → relax u d st (v, w) = Ok st.
Proof. intros Hv Hd Hlt. unfold relax. by rewrite decide_False, Hd, Hlt. Qed.

(** The cases of a relaxation that does not raise. *)
Lemma relax_Ok_inv u d st v w st' :
  relax u d st (v, w) = Ok st' →
  (st' = st ∧
     (v ∈ visited st ∨
      ∃ old, distances st !! v = Some old ∧ py_lt (Fin (d + w)) old = false))
  ∨ (st' = improve u v (d + w) st ∧ (v ∉ visited st) ∧
     ∃ old, distances st !! v = Some old ∧ Fin (d + w) ≺ old).
Proof.
  unfold relax. case_decide as Hv; [intros [= <-]; eauto |].
  destruct (distances st !! v) as [old|] eqn:Hd; [| done].
  destruct (py_lt (Fin (d + w)) old) eqn:Hlt; intros [= <-]; eauto 10.
Qed.

Lemma relax_Raise_inv u d st v w e :
  relax u d st (v, w) = Raise e →
  e = KeyError v ∧ (v ∉ visited st) ∧ distances st !! v = None.
Proof.
  unfold relax. case_decide as Hv; [done |].
  destruct (distances st !! v) as [old|] eqn:Hd.
  - by destruct (py_lt (Fin (d + w)) old).
  - by intros [= <-].
Qed.

(** ** [step], branch by branch *)

Lemma step_empty g end_ st :
  pq st = [] → step g end_ st = Done (Some (Ok (Inf, []))).
Proof. intros Hq. unfold step. by rewrite Hq. Qed.

(** The cases of an iteration that goes on. *)
Lemma step_Continue_inv g end_ st st' :
  step g end_ st = Continue st' →
  ∃ d u pq', heappop (pq st) = Some ((d, u), pq') ∧ u ≠ end_ ∧
    ((u ∈ visited st ∧ st' = with_pq st pq') ∨
     ((u ∉ visited st) ∧
      expand g u d (add_visited u (with_pq st pq')) = Ok st')).
Proof.
  unfold step. destruct (pq st) as [|x q] eqn:Hq; [done |].
  destruct (heappop (x :: q)) as [[[d u] pq']|]; [| done].
  case_decide as He; [done |]. simpl. case_decide as Hv.
  - intros [= <-]. eauto 10.
  - destruct (expand _ _ _ _) as [st1|e] eqn:Hx; [| done].
    intros [= <-]. eauto 10.
Qed.

(** The cases of an iteration that leaves the loop. *)
Lemma step_Done_inv g end_ st r :
  step g end_ st = Done r →
  (pq st = [] ∧ r = Some (Ok (Inf, []))) ∨
  (pq st ≠ [] ∧ heappop (pq st) = None ∧ r = Some (Raise IndexError)) ∨
  (∃ d pq', heappop (pq st) = Some ((d, end_), pq') ∧
     r = finish d end_ (with_pq st pq')) ∨
  (∃ d u pq' e, heappop (pq st) = Some ((d, u), pq') ∧ u ≠ end_ ∧
     (u ∉ visited st) ∧
     expand g u d (add_visited u (with_pq st pq')) = Raise e ∧
     r = Some (Raise e)).
Proof.
  unfold step. destruct (pq st) as [|x q] eqn:Hq; [intros [= <-]; eauto |].
  destruct (heappop (x :: q)) as [[[d u] pq']|];
    [| intros [= <-]; right; left; eauto].
  case_decide as He; [subst; intros [= <-]; eauto 10 |].
  simpl. case_decide as Hv; [done |].
  destruct (expand _ _ _ _) as [st1|e] eqn:Hx; [done |].
  intros [= <-]. do 3 right. eauto 10.
Qed.

(** ** The equations of [loop] and [reconstruct] *)

Lemma loop_S fuel g end_ st :
  loop (S fuel) g end_ st =
  match step g end_ st with
  | Done r => r
  | Continue st' => loop fuel g end_ st'
  end.
Proof. done. Qed.

Lemma reconstruct_None fuel preds path :
  reconstruct fuel preds None path = Some (Ok path).
Proof. by destruct fuel. Qed.

(** More fuel does not change a result. *)
Lemma reconstruct_fuel_mono fuel fuel' preds cur path r :
  reconstruct fuel preds cur path = Some r → fuel ≤ fuel' →
  reconstruct fuel' preds cur path = Some r.
Proof.
  revert fuel' cur path; induction fuel as [|fuel IH];
    intros fuel' [u|] path; rewrite ?reconstruct_None; try done.
  destruct fuel' as [|fuel']; [lia |]. simpl.
  destruct (preds !! u); [| done]. intros. apply IH; [done | lia].
Qed.

Lemma loop_fuel_mono fuel fuel' g end_ st r :
  loop fuel g end_ st = Some r → fuel ≤ fuel' →
  loop fuel' g end_ st = Some r.
Proof.
  revert fuel' st; induction fuel as [|fuel IH]; intros fuel' st; [done |].
  destruct fuel' as [|fuel']; [lia |]. rewrite !loop_S.
  destruct (step g end_ st); [| done]. intros. apply IH; [done | lia].
Qed.

(** A result of [loop] comes from a reachable state whose step is the
    exit. *)
Lemma loop_Some_inv fuel g start end_ st r :
  reachable g start end_ st → loop fuel g end_ st = Some r →
  ∃ st', reachable g start end_ st' ∧ step g end_ st' = Done (Some r).
Proof.
  revert st; induction fuel as [|fuel IH]; intros st Hst; [done |].
  rewrite loop_S. destruct (step g end_ st) as [st'|r'] eqn:Hs.
  - apply IH. by econstructor.
  - intros ->. eauto.
Qed.

Lemma dijkstra_Some_inv g start end_ r :
  dijkstra g start end_ = Some r →
  ∃ st, reachable g start end_ st ∧ step g end_ st = Done (Some r).
Proof. apply loop_Some_inv. constructor. Qed.

End dijkstra.

Arguments state K {_ _}.
Arguments outcome K : clear implicits.
Arguments step_result K {_ _}.
