(* ===== verification/Structure.v ===== *)
(** * What holds on every run of the engine

    Nothing in this file assumes anything of the graph: weights may be
    negative and neighbours may be missing from the keys.  The queue is
    any lawful one ([HeapLaws]).

    - [chain]: the predecessor chain of a node, from the node back to
      [start], with the cost of the walk it describes.  [reconstruct]
      follows it ([reconstruct_chain]) and its reverse is a path of the
      graph ([chain_is_path]).
    - [inv]: the invariant of the [while] loop.  The list [pq] is a heap;
      the dicts have the keys of the graph ([distances] has [start] too);
      [end] is never visited and [start] is visited first; every finite
      distance is the cost of the node's chain, which has no repetition
      and runs through visited nodes; an unvisited node with a finite
      distance has an entry in [pq] with that distance; no entry of [pq]
      is below the distance of its node; the out-edges of the visited
      nodes were relaxed ([relaxed]); an entry of [predecessors] is an
      edge from a visited node whose relaxation gave the distance
      ([tree_edge]).
    - [init_inv], [relax_inv], [expand_inv], [step_inv], [reachable_inv]:
      the invariant holds initially and is kept by every operation that
      changes the state.
    - [measure]: [|pq|] plus the out-degrees of the unvisited nodes
      decreases at each iteration ([step_measure]); so [loop] returns
      when its fuel exceeds the measure ([loop_terminates]). *)

From S2P Require Import Prelude PyValues PQueue Graph Dijkstra.

Section structure.
Context `{Countable K, PyLt K} `{!HeapOps (Z * K)} `{!HeapLaws (Z * K)}.
Context (g : graph K) (start end_ : K).
Implicit Types (st : state K) (u v x y : K) (d w c : Z) (l : list K).
Implicit Types (P : gmap K (option K)) (D : gmap K dist) (V : gset K).

(** ** Predecessor chains *)

(** [chain P V v d l]: following [P] from [v] visits the nodes [l], the
    last of which is [start]; all but [v] are in [V]; the edges walked
    backwards cost [d] in total. *)
Inductive chain P V : K → Z → list K → Prop :=
| chain_start : chain P V start 0 [start]
| chain_step v u w du l :
    P !! v = Some (Some u) → u ∈ V → edge g u v w → chain P V u du l →
    chain P V v (du + w) (v :: l).

Lemma chain_head P V v d l : chain P V v d l → head l = Some v.
Proof. by destruct 1. Qed.

Lemma chain_last P V v d l : chain P V v d l → last l = Some start.
Proof.
  induction 1 as [|v u w du l _ _ _ Hc IH]; [done |].
  destruct Hc; by rewrite last_cons, IH.
Qed.

Lemma chain_tail_visited P V v d l x :
  chain P V v d l → x ∈ tail l → x ∈ V.
Proof.
  induction 1 as [|v u w du l _ Hu _ Hc IH]; simpl; [by intros ?%elem_of_nil |].
  pose proof (chain_head _ _ _ _ _ Hc). destruct l as [|y l]; simplify_eq/=.
  intros [->|Hx]%elem_of_cons; auto.
Qed.

Lemma chain_elem_of P V v d l x :
  chain P V v d l → x ∈ l → x = v ∨ x ∈ V.
Proof.
  intros Hc Hx. pose proof (chain_head _ _ _ _ _ Hc).
  destruct l as [|y l]; simplify_eq/=.
  apply elem_of_cons in Hx as [->|Hx]; eauto using chain_tail_visited.
Qed.

(** A chain survives changes to the dict outside of it and additions to
    the visited set. *)
Lemma chain_mono P P' V V' v d l :
  chain P V v d l → V ⊆ V' → (∀ x, x ∈ l → P' !! x = P !! x) →
  chain P' V' v d l.
Proof.
  intros Hc HV. induction Hc as [|v u w du l Hv Hu He Hc IH]; intros HP.
  - constructor.
  - apply (chain_step P' V' v u); [| set_solver | done |].
    + rewrite HP; [done | apply list_elem_of_here].
    + apply IH. intros; apply HP. by apply list_elem_of_further.
Qed.

(** The reverse of a chain is a path of the graph, of the chain's cost. *)
Lemma chain_is_path P V v d l : chain P V v d l → is_path g (reverse l) d.
Proof.
  induction 1 as [|v u w du l _ _ He Hc IH]; [constructor |].
  rewrite reverse_cons. eapply is_path_snoc; [done | | done].
  rewrite last_reverse. eapply chain_head, Hc.
Qed.

Lemma chain_walk P V v d l : chain P V v d l → walk g start v d.
Proof. induction 1; eauto with dijk. Qed.

Lemma chain_reverse_ends P V v d l :
  chain P V v d l → head (reverse l) = Some start ∧ last (reverse l) = Some v.
Proof.
  intros Hc. rewrite head_reverse, last_reverse.
  eauto using chain_head, chain_last.
Qed.

(** The rest of a chain is the chain of its first node. *)
Lemma chain_suffix P V v d l1 x l2 :
  chain P V v d (l1 ++ x :: l2) → ∃ dx, chain P V x dx (x :: l2).
Proof.
  revert v d. induction l1 as [|y l1 IH]; intros v d Hc; simpl in *.
  - pose proof (chain_head _ _ _ _ _ Hc). simplify_eq/=. eauto.
  - inversion Hc as [|? u w du l Hv Hu He Hc' Heq]; subst; [by destruct l1 |].
    eauto.
Qed.

(** [predecessors] determines the nodes of a chain. *)
Lemma chain_list_unique P V V' v d d' l l' :
  (∀ u, P !! start ≠ Some (Some u)) →
  chain P V v d l → chain P V' v d' l' → l = l'.
Proof.
  intros Hs Hc. revert d' l'.
  induction Hc as [|v u w du l Hv _ _ _ IH]; intros d' l' Hc';
    destruct Hc' as [|v' u' w' du' l' Hv' _ _ Hc']; try done.
  - by destruct (Hs u').
  - by destruct (Hs u).
  - simplify_eq. f_equal. eauto.
Qed.

(** A chain without repetition is no longer than [1 + |V|]. *)
Lemma chain_length P V v d l :
  chain P V v d l → NoDup l → length l ≤ S (size V).
Proof.
  intros Hc Hl. pose proof (chain_head _ _ _ _ _ Hc).
  destruct l as [|y l]; simplify_eq/=. apply le_n_S.
  apply NoDup_cons in Hl as [_ Hl].
  apply NoDup_length_le_size; [done |].
  intros x Hx. by eapply (chain_tail_visited _ _ _ _ _ _ Hc).
Qed.

(** [reconstruct] follows the chain: with enough fuel it returns the
    chain appended to [path], or raises [KeyError start] when [start] is
    no key of [predecessors]. *)
Lemma reconstruct_chain P V v d l fuel path :
  chain P V v d l → (∀ u, P !! start ≠ Some (Some u)) → length l ≤ fuel →
  reconstruct fuel P (Some v) path =
  Some (match P !! start with
        | Some _ => Ok (path ++ l)
        | None => Raise (KeyError start)
        end).
Proof.
  intros Hc Hs. revert fuel path.
  induction Hc as [|v u w du l Hv _ _ _ IH]; intros [|fuel] path Hf;
    simpl in *; try lia.
  - destruct (P !! start) as [[u|]|] eqn:Hp; [by destruct (Hs u) | |done].
    by rewrite reconstruct_None.
  - rewrite Hv, IH by lia. by rewrite <- app_assoc.
Qed.

(** ** The invariant of the [while] loop *)

(** The out-edges of [u] were relaxed: a neighbour is visited, or its
    distance is at most that of [u] plus the weight. *)
Definition relaxed st u : Prop :=
  ∀ v w du, distances st !! u = Some (Fin du) → edge g u v w →
    v ∈ visited st ∨
    ∃ dv, distances st !! v = Some (Fin dv) ∧ (dv ≤ du + w)%Z.

(** [predecessors[v] = u] records the relaxation of an edge from [u],
    visited, that gave [v] its distance. *)
Definition tree_edge st u v : Prop :=
  u ∈ visited st ∧
  ∃ du w, edge g u v w ∧ distances st !! u = Some (Fin du) ∧
    distances st !! v = Some (Fin (du + w)).

(** [inv_on X st]: the invariant, with [X] the nodes whose out-edges
    were relaxed.  At the head of the loop [X] is [visited st]; inside
    the [for] loop the current node is visited and not yet in [X]. *)
Record inv_on (X : gset K) st : Prop := Inv {
  inv_heap : is_heap (pq st);
  inv_dom_dist : dom (distances st) = dom g ∪ {[start]};
  inv_dom_pred : dom (predecessors st) = dom g;
  inv_end : end_ ∉ visited st;
  inv_start : distances st !! start = Some (Fin 0);
  inv_start_pred : ∀ u, predecessors st !! start ≠ Some (Some u);
  inv_first :
    start ∈ visited st ∨ (visited st = ∅ ∧ pq st = [(0%Z, start)]);
  inv_chain : ∀ v d, distances st !! v = Some (Fin d) →
    ∃ l, chain (predecessors st) (visited st) v d l ∧ NoDup l;
  inv_frontier : ∀ v d,
    v ∉ visited st → distances st !! v = Some (Fin d) → (d, v) ∈ pq st;
  inv_queue : ∀ d v, (d, v) ∈ pq st →
    ∃ d', distances st !! v = Some (Fin d') ∧ (d' ≤ d)%Z;
  inv_visited : ∀ u, u ∈ visited st → ∃ d, distances st !! u = Some (Fin d);
  inv_relaxed : ∀ u, u ∈ X → relaxed st u;
  inv_pred : ∀ v u, predecessors st !! v = Some (Some u) → tree_edge st u v;
}.

Definition inv st : Prop := inv_on (visited st) st.

(** *** Initially *)

Lemma init_dist_Fin v d :
  distances (init_state g start) !! v = Some (Fin d) → v = start ∧ d = 0%Z.
Proof.
  simpl. intros [[-> [= <-]]|[_ Hv]]%lookup_insert_Some; [done |].
  rewrite lookup_fmap in Hv. by destruct (g !! v).
Qed.

Lemma init_inv : inv (init_state g start).
Proof.
  split; simpl.
  - apply is_heap_singleton.
  - rewrite dom_insert_L, dom_fmap_L. set_solver.
  - by rewrite dom_fmap_L.
  - set_solver.
  - apply lookup_insert_eq.
  - intros u. rewrite lookup_fmap. by destruct (g !! start).
  - by right.
  - intros v d [-> ->]%init_dist_Fin. exists [start].
    split; [constructor | apply NoDup_singleton].
  - intros v d _ [-> ->]%init_dist_Fin. apply list_elem_of_here.
  - intros d v [= -> ->]%list_elem_of_singleton. exists 0%Z.
    by rewrite lookup_insert_eq.
  - set_solver.
  - set_solver.
  - intros v u. rewrite lookup_fmap. by destruct (g !! v).
Qed.

(** The set of relaxed nodes can be replaced by any set of relaxed
    nodes. *)
Lemma inv_on_relaxed X X' st :
  inv_on X st → (∀ u, u ∈ X' → relaxed st u) → inv_on X' st.
Proof. intros []. by split. Qed.

(** *** A relaxation that improves: lines 58-60 *)

(** Lowering the distance of [v] lowers no other distance and raises
    none. *)
Lemma insert_dist_le D v n old x dx :
  D !! v = Some old → Fin n ≺ old → D !! x = Some (Fin dx) →
  ∃ dx', <[v := Fin n]> D !! x = Some (Fin dx') ∧ (dx' ≤ dx)%Z.
Proof.
  intros Hv Hlt Hx. destruct (decide (x = v)) as [->|Hne].
  - rewrite lookup_insert_eq. exists n. split; [done |].
    simplify_eq. apply dist_lt_Fin in Hlt. lia.
  - rewrite lookup_insert_ne by done. eauto with lia.
Qed.

(** A chain that does not start at [v] does not see an assignment to
    [predecessors[v]], when [v] is not visited. *)
Lemma chain_insert P V v p x d l :
  chain P V x d l → v ∉ V → x ≠ v → chain (<[v := p]> P) V x d l.
Proof.
  intros Hc Hv Hx. eapply chain_mono; [done.. |].
  intros y [->| Hy]%(chain_elem_of _ _ _ _ _ _ Hc);
    rewrite lookup_insert_ne; set_solver.
Qed.

Section improve.
Context (X : gset K) (u v : K) (d w : Z) (st : state K) (old : dist).
Context (Hinv : inv_on X st) (HX : X ⊆ visited st).
Context (Hu : u ∈ visited st) (Hstart : start ∈ visited st).
Context (Hdu : distances st !! u = Some (Fin d)) (Hedge : edge g u v w).
Context (Hv : v ∉ visited st) (Hold : distances st !! v = Some old).
Context (Hlt : Fin (d + w) ≺ old).

Lemma improve_chain x dx :
  distances (improve u v (d + w) st) !! x = Some (Fin dx) →
  ∃ l, chain (predecessors (improve u v (d + w) st)) (visited st) x dx l ∧
       NoDup l.
Proof.
  simpl. intros [[<- [= <-]]|[Hne Hx]]%lookup_insert_Some.
  - destruct (inv_chain _ _ Hinv u d Hdu) as (l & Hc & Hl).
    assert (v ∉ l) as Hvl.
    { intros [->|?]%(chain_elem_of _ _ _ _ _ _ Hc); done. }
    exists (v :: l). split; [| by constructor].
    apply (chain_step _ _ v u); [apply lookup_insert_eq | done.. |].
    apply chain_insert; [done.. |]. by intros ->.
  - destruct (inv_chain _ _ Hinv x dx Hx) as (l & Hc & Hl).
    exists l. split; [| done]. by apply chain_insert.
Qed.

Lemma improve_queue d' x :
  (d', x) ∈ heappush (pq st) ((d + w)%Z, v) →
  ∃ d'', <[v := Fin (d + w)]> (distances st) !! x = Some (Fin d'') ∧
         (d'' ≤ d')%Z.
Proof.
  intros [[= -> ->]|Hq]%heappush_elem_of.
  - exists (d + w)%Z. by rewrite lookup_insert_eq.
  - destruct (inv_queue _ _ Hinv _ _ Hq) as (d1 & Hd1 & Hle).
    destruct (insert_dist_le _ _ _ _ _ _ Hold Hlt Hd1) as (d2 & ? & ?).
    exists d2. split; [done | lia].
Qed.

Lemma improve_relaxed x : x ∈ visited st → relaxed st x →
  relaxed (improve u v (d + w) st) x.
Proof.
  intros Hx Hr y w' dx. simpl. rewrite lookup_insert_ne by set_solver.
  intros Hdx He. destruct (Hr y w' dx Hdx He) as [?|(dy & Hdy & Hle)];
    [by left | right].
  destruct (insert_dist_le _ _ _ _ _ _ Hold Hlt Hdy) as (d2 & ? & ?).
  exists d2. split; [done | lia].
Qed.

Lemma improve_tree_edge x y :
  predecessors (improve u v (d + w) st) !! y = Some (Some x) →
  tree_edge (improve u v (d + w) st) x y.
Proof.
  unfold tree_edge. simpl.
  intros [[<- [= <-]]|[Hne (Hx & du & w' & ? & ? & ?)%(inv_pred _ _ Hinv)]]
    %lookup_insert_Some.
  - split; [done |]. exists d, w.
    rewrite lookup_insert_eq, lookup_insert_ne by set_solver. done.
  - split; [done |]. exists du, w'.
    rewrite !lookup_insert_ne by set_solver. done.
Qed.

Lemma improve_inv : inv_on X (improve u v (d + w) st).
Proof.
  assert (v ≠ start) as Hvs by set_solver.
  assert (v ∈ dom g) as Hvg.
  { apply elem_of_dom_2 in Hold. rewrite (inv_dom_dist _ _ Hinv) in Hold.
    set_solver. }
  split; simpl.
  - apply heappush_is_heap, Hinv.
  - rewrite dom_insert_lookup_L by done. apply Hinv.
  - rewrite dom_insert_L, (inv_dom_pred _ _ Hinv). set_solver.
  - apply Hinv.
  - rewrite lookup_insert_ne by done. apply Hinv.
  - intros u'. rewrite lookup_insert_ne by done. apply Hinv.
  - by left.
  - apply improve_chain.
  - intros x dx Hx [[<- [= <-]]|[Hne Hdx]]%lookup_insert_Some;
      apply heappush_elem_of; [by left | right].
    by apply Hinv.
  - apply improve_queue.
  - intros x Hx. rewrite lookup_insert_ne by set_solver. by apply Hinv.
  - intros x Hx. apply improve_relaxed; [set_solver |]. by apply Hinv.
  - intros y x. apply improve_tree_edge.
Qed.

End improve.

(** *** The [for] loop: lines 50-60 *)

(** The invariant of the [for] loop over the out-edges of [u], popped
    with distance [d]: [items] are the edges handled so far. *)
Record relaxing (X : gset K) (V : gset K) u d (items : list (K * Z)) st :
    Prop := Relaxing {
  relaxing_inv : inv_on X st;
  relaxing_visited : visited st = V;
  relaxing_dist : distances st !! u = Some (Fin d);
  relaxing_items : ∀ v w, (v, w) ∈ items →
    v ∈ V ∨ ∃ dv, distances st !! v = Some (Fin dv) ∧ (dv ≤ d + w)%Z;
}.

Lemma relax_inv X V u d items st v w st' :
  X ⊆ V → u ∈ V → start ∈ V → edge g u v w →
  relaxing X V u d items st → relax u d st (v, w) = Ok st' →
  relaxing X V u d (items ++ [(v, w)]) st'.
Proof.
  intros HX Hu Hs He [Hinv <- Hdu Hit] Hr.
  apply relax_Ok_inv in Hr as [[-> Hcase]|(-> & Hv & old & Hold & Hlt)].
  - split; [done.. |]. intros v' w' [?|[= -> ->]]%elem_of_snoc; [eauto |].
    destruct Hcase as [?|(old & Hold & (dv & -> & ?)%dist_ge_spec)]; eauto.
  - split; simpl; [by eapply improve_inv | done | |].
    + rewrite lookup_insert_ne by set_solver. done.
    + intros v' w' [Hin|[= -> ->]]%elem_of_snoc.
      * destruct (Hit _ _ Hin) as [?|(dv & Hdv & ?)]; [by left | right].
        destruct (insert_dist_le _ _ _ _ _ _ Hold Hlt Hdv) as (d2 & ? & ?).
        exists d2. split; [done | lia].
      * right. exists (d + w)%Z. by rewrite lookup_insert_eq.
Qed.

Lemma relaxing_nil X V u d st :
  inv_on X st → visited st = V → distances st !! u = Some (Fin d) →
  relaxing X V u d [] st.
Proof. split; [done.. |]. by intros ? ? ?%elem_of_nil. Qed.

Lemma foldM_relaxing X V u d items st st' :
  X ⊆ V → u ∈ V → start ∈ V → (∀ v w, (v, w) ∈ items → edge g u v w) →
  relaxing X V u d [] st → foldM (relax u d) items st = Ok st' →
  relaxing X V u d items st'.
Proof.
  intros HX Hu Hs Hedge. apply (foldM_invariant_prefix
    (λ items st, relaxing X V u d items st)).
  intros l1 [v w] l2 st1 st2 -> Hrel Hr. eapply relax_inv; eauto.
  apply Hedge. set_solver.
Qed.

(** After the loop, the current node is relaxed too. *)
Lemma expand_inv V u d st st' :
  u ∈ V → start ∈ V → visited st = V →
  inv_on (V ∖ {[u]}) st → distances st !! u = Some (Fin d) →
  expand g u d st = Ok st' → inv st'.
Proof.
  intros Hu Hs HV Hinv Hdu. unfold expand, inv.
  destruct (g !! u) as [adj|] eqn:Hg.
  - intros Hf. enough (relaxing (V ∖ {[u]}) V u d adj st') as [Hi HV' Hd Hit].
    { rewrite HV'. eapply inv_on_relaxed; [done |]. intros x Hx.
      destruct (decide (x = u)) as [->|]; [| apply Hi; set_solver].
      intros v w du Hdu' (adj' & ? & Hin). simplify_eq. rewrite HV'. eauto. }
    eapply foldM_relaxing; eauto using edge_lookup, relaxing_nil.
    set_solver.
  - intros [= <-]. rewrite HV. eapply inv_on_relaxed; [done |]. intros x Hx.
    destruct (decide (x = u)) as [->|]; [| apply Hinv; set_solver].
    intros v w du _ (adj & ? & _). congruence.
Qed.

(** The loop raises on an edge to a node that is no key of the graph. *)
Lemma expand_Raise_inv V u d st e :
  u ∈ V → start ∈ V → visited st = V →
  inv_on (V ∖ {[u]}) st → distances st !! u = Some (Fin d) →
  expand g u d st = Raise e →
  ∃ v w, e = KeyError v ∧ edge g u v w ∧ v ∉ dom g.
Proof.
  intros Hu Hs HV Hinv Hdu. unfold expand.
  destruct (g !! u) as [adj|] eqn:Hg; [| done].
  intros (l1 & [v w] & l2 & st1 & -> & Hl1 & Hr)%foldM_Raise_inv.
  apply relax_Raise_inv in Hr as (-> & _ & Hd).
  exists v, w. split_and!; [done | eapply edge_lookup; [done | set_solver] |].
  assert (relaxing (V ∖ {[u]}) V u d l1 st1) as [Hi _ _ _].
  { eapply foldM_relaxing; eauto using relaxing_nil; [set_solver |].
    intros; eapply edge_lookup; [done | set_solver]. }
  apply not_elem_of_dom in Hd. rewrite (inv_dom_dist _ _ Hi) in Hd.
  set_solver.
Qed.

(** *** [heappop]: line 34 *)

Section pop.
Context (st : state K) (d : Z) (u : K) (pq' : list (Z * K)).
Context (Hinv : inv st) (Hpop : heappop (pq st) = Some ((d, u), pq')).

Lemma pop_elem_of : (d, u) ∈ pq st.
Proof. apply (heappop_elem_of _ _ _ _ Hpop). by left. Qed.

(** The entry popped for an unvisited node carries its distance: the
    entry is not stale. *)
Lemma pop_dist : u ∉ visited st → distances st !! u = Some (Fin d).
Proof.
  intros Hu. destruct (inv_queue _ _ Hinv _ _ pop_elem_of) as (d' & Hd & Hle).
  pose proof (inv_frontier _ _ Hinv _ _ Hu Hd) as Hq.
  pose proof (heappop_min _ _ _ (inv_heap _ _ Hinv) Hpop _ Hq) as Hmin.
  apply py_le_pair_fst in Hmin. replace d with d' by lia. done.
Qed.

(** The first node popped is [start]. *)
Lemma pop_first : start ∈ {[u]} ∪ visited st.
Proof.
  destruct (inv_first _ _ Hinv) as [?|[_ Hq]]; [set_solver |].
  pose proof pop_elem_of as Hin. rewrite Hq in Hin.
  apply list_elem_of_singleton in Hin as [= _ ->]. set_solver.
Qed.

Lemma pop_other x dx : x ≠ u → (dx, x) ∈ pq st → (dx, x) ∈ pq'.
Proof.
  intros Hx [[= _ ?]|?]%(heappop_elem_of _ _ _ _ Hpop); done.
Qed.

(** A stale entry: lines 44-45. *)
Lemma pop_stale_inv : u ∈ visited st → inv (with_pq st pq').
Proof.
  intros Hu. destruct Hinv. split; simpl; try done.
  - by eapply heappop_is_heap.
  - left. set_solver.
  - intros x dx Hx Hdx. apply pop_other; [set_solver | auto].
  - intros d' x Hq. apply inv_queue0, (heappop_elem_of _ _ _ _ Hpop). auto.
Qed.

(** A node visited for the first time: line 46. *)
Lemma pop_visit_inv :
  u ∉ visited st → u ≠ end_ →
  inv_on (({[u]} ∪ visited st) ∖ {[u]}) (add_visited u (with_pq st pq')).
Proof.
  intros Hu He. pose proof pop_first. pose proof (pop_dist Hu).
  destruct Hinv. split; simpl; try done.
  - by eapply heappop_is_heap.
  - set_solver.
  - by left.
  - intros x dx Hx. destruct (inv_chain0 x dx Hx) as (l & Hc & Hl).
    exists l. split; [| done]. eapply chain_mono; [done | set_solver | done].
  - intros x dx Hx Hdx. apply pop_other; [set_solver |].
    apply inv_frontier0; [set_solver | done].
  - intros d' x Hq. apply inv_queue0, (heappop_elem_of _ _ _ _ Hpop). auto.
  - intros x [->%elem_of_singleton|Hx]%elem_of_union; eauto.
  - intros x Hx v w dx Hdx Hedge.
    destruct (inv_relaxed0 x) with v w dx as [?|?]; [set_solver | done.. | |];
      [left; set_solver | by right].
  - intros y x [Hx ?]%inv_pred0. split; [set_solver | done].
Qed.

End pop.

(** *** One iteration, and all of them *)

Lemma step_inv st st' : inv st → step g end_ st = Continue st' → inv st'.
Proof.
  intros Hinv (d & u & pq' & Hpop & He & [[Hu ->]|[Hu Hx]])%step_Continue_inv.
  - by eapply pop_stale_inv.
  - eapply expand_inv; [| | | by eapply pop_visit_inv | | done]; simpl.
    + set_solver.
    + by eapply pop_first.
    + done.
    + by eapply pop_dist.
Qed.

Lemma reachable_inv st : reachable g start end_ st → inv st.
Proof. induction 1; eauto using init_inv, step_inv. Qed.

(** ** Termination *)

(** The entries of [pq] plus the edges that can still be relaxed. *)
Definition measure st : nat :=
  length (pq st) + unvisited_degree g (visited st).

Lemma relax_length u d st item st' :
  relax u d st item = Ok st' →
  length (pq st') ≤ S (length (pq st)) ∧ visited st' = visited st.
Proof.
  destruct item as [v w].
  intros [[-> _]|(-> & _)]%relax_Ok_inv; simpl; [auto |].
  by rewrite heappush_length.
Qed.

(** The [for] loop pushes at most one entry for each edge. *)
Lemma foldM_relax_length u d items st st' :
  foldM (relax u d) items st = Ok st' →
  length (pq st') ≤ length (pq st) + length items ∧
  visited st' = visited st.
Proof.
  revert st; induction items as [|item items IH]; intros st; simpl.
  - intros [= <-]. auto with lia.
  - intros (st1 & [??]%relax_length & [??]%IH)%bind_Ok_inv.
    split; [lia | congruence].
Qed.

Lemma step_measure st st' :
  step g end_ st = Continue st' → measure st' < measure st.
Proof.
  intros (d & u & pq' & Hpop & _ & [[_ ->]|[Hu Hx]])%step_Continue_inv;
    apply heappop_length in Hpop; unfold measure; simpl; [lia |].
  unfold expand in Hx. destruct (g !! u) as [adj|] eqn:Hg.
  - apply foldM_relax_length in Hx as [Hlen ->]. simpl in *.
    pose proof (unvisited_degree_visit g _ _ _ Hg Hu). lia.
  - injection Hx as <-. simpl.
    pose proof (unvisited_degree_mono g (visited st) u). lia.
Qed.

(** The reconstruction of the path has enough fuel. *)
Lemma finish_is_Some st d pq' :
  inv st → heappop (pq st) = Some ((d, end_), pq') →
  ∃ l, chain (predecessors st) (visited st) end_ d l ∧ NoDup l ∧
    finish d end_ (with_pq st pq') =
    Some (match predecessors st !! start with
          | Some _ => Ok (Fin d, reverse l)
          | None => Raise (KeyError start)
          end).
Proof.
  intros Hinv Hpop.
  pose proof (pop_dist _ _ _ _ Hinv Hpop (inv_end _ _ Hinv)) as Hd.
  destruct (inv_chain _ _ Hinv _ _ Hd) as (l & Hc & Hl).
  exists l. split_and!; [done.. |]. unfold finish, reconstruct_fuel.
  cbn [with_pq predecessors visited].
  erewrite reconstruct_chain; eauto using chain_length, inv_start_pred.
  by destruct (predecessors st !! start).
Qed.

(** An iteration that leaves the loop leaves it with a result. *)
Lemma step_Done_is_Some st r :
  inv st → step g end_ st = Done r → is_Some r.
Proof.
  intros Hinv [(_ & ->)|[(_ & _ & ->)|[(d & pq' & Hpop & ->)|
    (? & ? & ? & ? & _ & _ & _ & _ & ->)]]]%step_Done_inv; try done.
  destruct (finish_is_Some _ _ _ Hinv Hpop) as (l & _ & _ & ->). done.
Qed.

Lemma loop_terminates fuel st :
  inv st → measure st < fuel → is_Some (loop fuel g end_ st).
Proof.
  revert st; induction fuel as [|fuel IH]; intros st Hinv Hm; [lia |].
  rewrite loop_S. destruct (step g end_ st) as [st'|r] eqn:Hs.
  - apply IH; [by eapply step_inv |].
    apply step_measure in Hs. lia.
  - by eapply step_Done_is_Some.
Qed.

End structure.
