(* ===== verification/Invariants.v ===== *)
(** * The states at the head of the [while] loop

    What the invariant of [Structure] says of the four variables of
    [dijkstra] in every state that the loop reaches ([reachable]), in
    terms of the graph.  The queue is any lawful one; nothing is assumed
    of the graph.

    - [reachable_keys]: the keys of the two dicts.
    - [reachable_distance_path]: a finite distance is the cost of a path
      from [start] without repetition.
    - [reachable_queue]: [pq] is a heap, holds the distance of every
      unvisited node that has a finite one, and no entry below the
      distance of its node.
    - [reachable_visited]: a visited node is not [end], can be reached
      from [start], and its out-edges were relaxed.
    - [reachable_queue_bound]: [pq] never holds more than [1 + |E|]
      entries.
    - [step_monotone]: an iteration adds to [visited] and lowers
      distances; it never removes or raises.
    - [step_visited_frozen]: the entries of a visited node never
      change.
    - [reachable_predecessor]: the entries of [predecessors] are
      relaxed edges from visited nodes.
    - [reconstruct_terminates]: following [predecessors] from a node
      with a finite distance ends at [start].
    - [expand_pq_elem_of]: the entries that the [for] loop pushes. *)

From S2P Require Import Prelude PyValues PQueue Graph Dijkstra Structure.

Section invariants.
Context `{Countable K, PyLt K} `{!HeapOps (Z * K)} `{!HeapLaws (Z * K)}.
Context (g : graph K) (start end_ : K).
Implicit Types (st : state K) (u v : K) (d w : Z).

(** C14: at the head of the loop [distances] has the keys of the graph
    and [start], and [predecessors] has the keys of the graph. *)
Theorem reachable_keys st :
  reachable g start end_ st →
  dom (distances st) = dom g ∪ {[start]} ∧ dom (predecessors st) = dom g.
Proof. intros []%reachable_inv. done. Qed.

(** C15: at the head of the loop every finite [distances[v]] is the cost
    of a path of the graph from [start] to [v] that repeats no node. *)
Theorem reachable_distance_path st v d :
  reachable g start end_ st → distances st !! v = Some (Fin d) →
  ∃ path, is_path g path d ∧ head path = Some start ∧
    last path = Some v ∧ NoDup path.
Proof.
  intros Hinv%reachable_inv Hd.
  destruct (inv_chain _ _ _ _ _ Hinv v d Hd) as (l & Hc & Hl).
  exists (reverse l). split_and!; [by eapply chain_is_path | | |].
  - by eapply chain_reverse_ends.
  - by eapply chain_reverse_ends.
  - by rewrite reverse_Permutation.
Qed.

(** C16: at the head of the loop [pq] satisfies the invariant of the
    queue; every entry [(d, v)] has [distances[v] <= d]; and an
    unvisited node with a finite distance has the entry with that
    distance. *)
Theorem reachable_queue st :
  reachable g start end_ st →
  is_heap (pq st) ∧
  (∀ d v, (d, v) ∈ pq st →
     ∃ d', distances st !! v = Some (Fin d') ∧ (d' ≤ d)%Z) ∧
  (∀ v d, v ∉ visited st → distances st !! v = Some (Fin d) →
     (d, v) ∈ pq st).
Proof. intros []%reachable_inv. done. Qed.

(** C17: a visited node is not [end], has a finite distance, can be
    reached from [start], and each of its neighbours is visited or has a
    distance that the edge cannot improve. *)
Theorem reachable_visited st u :
  reachable g start end_ st → u ∈ visited st →
  u ≠ end_ ∧ reachable_from g start u ∧
  ∃ du, distances st !! u = Some (Fin du) ∧
    ∀ v w, edge g u v w →
      v ∈ visited st ∨
      ∃ dv, distances st !! v = Some (Fin dv) ∧ (dv ≤ du + w)%Z.
Proof.
  intros Hinv%reachable_inv Hu.
  destruct (inv_visited _ _ _ _ _ Hinv u Hu) as [du Hdu].
  destruct (inv_chain _ _ _ _ _ Hinv u du Hdu) as (l & Hc & _).
  split_and!.
  - intros ->. by apply (inv_end _ _ _ _ _ Hinv).
  - exists du. by eapply chain_walk.
  - exists du. split; [done |]. intros v w He.
    by apply (inv_relaxed _ _ _ _ _ Hinv u Hu v w du).
Qed.

(** C29: what [predecessors] holds at the head of the loop.  An entry
    [predecessors[v] = u] records an edge from [u] to [v] whose
    relaxation gave [v] its distance: [u] is visited and
    [distances[v] = distances[u] + w] for a weight [w] of that edge.  An
    entry that is still [None] belongs to [start] or to a node that has
    not been discovered ([distances[v]] is [inf]).  A node without
    entry is no key of the graph. *)
Theorem reachable_predecessor st v :
  reachable g start end_ st →
  match predecessors st !! v with
  | Some (Some u) =>
    u ∈ visited st ∧
    ∃ du w, edge g u v w ∧ distances st !! u = Some (Fin du) ∧
      distances st !! v = Some (Fin (du + w))
  | Some None => v = start ∨ distances st !! v = Some Inf
  | None => v ∉ dom g
  end.
Proof.
  intros Hinv%reachable_inv.
  destruct (predecessors st !! v) as [[u|]|] eqn:Hp.
  - by apply (inv_pred _ _ _ _ _ Hinv).
  - assert (is_Some (distances st !! v)) as [[d|] Hd]; [| | by right].
    { apply elem_of_dom. rewrite (inv_dom_dist _ _ _ _ _ Hinv).
      apply elem_of_dom_2 in Hp. rewrite (inv_dom_pred _ _ _ _ _ Hinv) in Hp.
      set_solver. }
    destruct (inv_chain _ _ _ _ _ Hinv v d Hd) as (l & Hc & _).
    destruct Hc; [by left | congruence].
  - apply not_elem_of_dom in Hp. by rewrite (inv_dom_pred _ _ _ _ _ Hinv) in Hp.
Qed.

(** C18: the entries of [pq] and the out-edges of the unvisited nodes
    together never exceed [1 + |E|]; so [pq] never holds more than
    [1 + |E|] entries. *)
Theorem reachable_queue_bound st :
  reachable g start end_ st →
  length (pq st) + unvisited_degree g (visited st) ≤ S (edge_count g).
Proof.
  induction 1 as [|st st' _ IH Hs%(step_measure g)].
  - simpl. by rewrite unvisited_degree_empty.
  - unfold measure in Hs. lia.
Qed.

(** The [for] loop keeps [visited] and lowers distances. *)
Lemma relax_monotone u d st item st' :
  relax u d st item = Ok st' →
  visited st' = visited st ∧
  ∀ v dv, distances st !! v = Some (Fin dv) →
    ∃ dv', distances st' !! v = Some (Fin dv') ∧ (dv' ≤ dv)%Z.
Proof.
  destruct item as [x w].
  intros [[-> _]|(-> & _ & old & Hold & Hlt)]%relax_Ok_inv; simpl;
    (split; [done |]); intros v dv Hv; [by eauto with lia |].
  destruct (decide (v = x)) as [->|Hne].
  - rewrite lookup_insert_eq. simplify_eq.
    apply dist_lt_Fin in Hlt. eauto with lia.
  - rewrite lookup_insert_ne by done. eauto with lia.
Qed.

Lemma expand_monotone u d st st' :
  expand g u d st = Ok st' →
  visited st' = visited st ∧
  ∀ v dv, distances st !! v = Some (Fin dv) →
    ∃ dv', distances st' !! v = Some (Fin dv') ∧ (dv' ≤ dv)%Z.
Proof.
  unfold expand. destruct (g !! u) as [items|];
    [| intros [= <-]; by eauto with lia].
  apply (foldM_invariant (λ st', visited st' = visited st ∧
    ∀ v dv, distances st !! v = Some (Fin dv) →
      ∃ dv', distances st' !! v = Some (Fin dv') ∧ (dv' ≤ dv)%Z));
    [| by eauto with lia].
  intros st1 item st2 _ [HV HD] [HV' HD']%relax_monotone.
  split; [congruence |]. intros v dv (dv1 & Hv1 & ?)%HD.
  apply HD' in Hv1 as (dv2 & ? & ?). eauto with lia.
Qed.

(** C19: an iteration of the loop only adds to [visited] and only
    lowers distances: a node stays visited, and a finite distance stays
    finite and does not grow. *)
Theorem step_monotone st st' :
  step g end_ st = Continue st' →
  visited st ⊆ visited st' ∧
  ∀ v dv, distances st !! v = Some (Fin dv) →
    ∃ dv', distances st' !! v = Some (Fin dv') ∧ (dv' ≤ dv)%Z.
Proof.
  intros (d & u & pq' & _ & _ & [[_ ->]|[_ [HV HD]%expand_monotone]])
    %step_Continue_inv; simpl in *; [by eauto with lia |].
  split; [rewrite HV; set_solver | done].
Qed.

(** C38: the loop of lines 39-41 terminates from every node that has a
    finite distance, not only from [end]: following [predecessors]
    never cycles, the fuel [1 + |visited|] suffices, and the nodes
    collected are, reversed, a path of the graph from [start] with the
    distance as its cost.  When [start] is no key of [predecessors] the
    loop ends in [KeyError]. *)
Theorem reconstruct_terminates st v d :
  reachable g start end_ st → distances st !! v = Some (Fin d) →
  ∃ l, is_path g (reverse l) d ∧
    reconstruct (reconstruct_fuel st) (predecessors st) (Some v) [] =
    Some (match predecessors st !! start with
          | Some _ => Ok l
          | None => Raise (KeyError start)
          end).
Proof.
  intros Hinv%reachable_inv Hd.
  destruct (inv_chain _ _ _ _ _ Hinv v d Hd) as (l & Hc & Hl).
  exists l. split; [by eapply chain_is_path |].
  erewrite reconstruct_chain;
    eauto using chain_length, inv_start_pred.
Qed.

(** The [for] loop pushes entries for the edges it relaxes, with the
    distance of the node plus the weight. *)
Lemma relax_pq_elem_of u d st item st' x :
  relax u d st item = Ok st' → x ∈ pq st' →
  x ∈ pq st ∨ x = ((d + item.2)%Z, item.1).
Proof.
  destruct item as [v w].
  intros [[-> _]|(-> & _)]%relax_Ok_inv; simpl; [by left |].
  rewrite heappush_elem_of. tauto.
Qed.

Lemma expand_pq_elem_of u d st st' x :
  expand g u d st = Ok st' → x ∈ pq st' →
  x ∈ pq st ∨ ∃ v w, edge g u v w ∧ x = ((d + w)%Z, v).
Proof.
  revert x. unfold expand. destruct (g !! u) as [items|] eqn:Hu;
    [| intros x [= <-]; by left].
  intros x Hx. revert x. revert Hx.
  apply (foldM_invariant (λ st', ∀ x, x ∈ pq st' →
    x ∈ pq st ∨ ∃ v w, edge g u v w ∧ x = ((d + w)%Z, v))); [| by left].
  intros st1 [v w] st2 Hin IH Hr x
    [Hx1| ->]%(relax_pq_elem_of _ _ _ _ _ _ Hr); [by apply IH | right].
  exists v, w. split; [by exists items | done].
Qed.

(** The [for] loop writes at nodes that are not visited. *)
Lemma relax_frame u d st item st' :
  relax u d st item = Ok st' →
  visited st' = visited st ∧
  ∀ x, x ∈ visited st →
    distances st' !! x = distances st !! x ∧
    predecessors st' !! x = predecessors st !! x.
Proof.
  destruct item as [v w].
  intros [[-> _]|(-> & Hv & _)]%relax_Ok_inv; simpl; [done |].
  split; [done |]. intros x Hx.
  rewrite !lookup_insert_ne by set_solver. done.
Qed.

Lemma expand_frame u d st st' :
  expand g u d st = Ok st' →
  visited st' = visited st ∧
  ∀ x, x ∈ visited st →
    distances st' !! x = distances st !! x ∧
    predecessors st' !! x = predecessors st !! x.
Proof.
  unfold expand. destruct (g !! u) as [adj|]; [| by intros [= <-]].
  apply (foldM_invariant (λ st', visited st' = visited st ∧
    ∀ x, x ∈ visited st →
      distances st' !! x = distances st !! x ∧
      predecessors st' !! x = predecessors st !! x)); [| done].
  intros st1 item st2 _ [HV HD] [HV' HD']%relax_frame.
  split; [congruence |]. intros x Hx.
  destruct (HD x Hx) as [<- <-]. apply HD'. by rewrite HV.
Qed.

(** C20: once a node is visited its entries in [distances] and in
    [predecessors] never change: an iteration of the loop leaves them as
    they are. *)
Theorem step_visited_frozen st st' x :
  step g end_ st = Continue st' → x ∈ visited st →
  distances st' !! x = distances st !! x ∧
  predecessors st' !! x = predecessors st !! x.
Proof.
  intros (d & u & pq' & _ & _ & [[_ ->]|[_ [_ HD]%expand_frame]])
    %step_Continue_inv Hx; [done |].
  apply HD. simpl. set_solver.
Qed.

End invariants.
