(* ===== verification/Refinement.v ===== *)
(** * The engine refines Dijkstra's algorithm on tables

    Dijkstra's algorithm needs no queue to be stated: among the nodes
    that are not visited, take one of least distance, visit it, and
    relax its out-edges.  This file states that algorithm on the three
    tables ([tables]: distances, predecessors, visited) as the relation
    [t_step], and proves that the engine of [src/dijkstra.py], which
    finds the node in a heap that may hold stale entries, implements it:

    - [tables_of]: the tables of a state of the engine ([pq] forgotten).
    - [relax_tables], [expand_tables]: the [for] loop of the engine acts
      on the tables as the relaxation of the algorithm does.
    - [pop_closest]: an entry popped for an unvisited node names a node
      of least distance among the unvisited ones.
    - [step_refines]: an iteration of the [while] loop is a step of the
      algorithm, or leaves the tables as they are (a stale entry).
    - [reachable_refines]: the tables at the head of the loop are
      reached by steps of the algorithm from the initial tables.
    - [exit_refines]: the result is the distance of [end] when [end] is
      a node of least distance, and [inf] when no unvisited node has a
      finite distance. *)

From S2P Require Import Prelude PyValues PQueue Graph Dijkstra Structure.
From stdpp Require Import relations.

Section refinement.
Context `{Countable K, PyLt K} `{!HeapOps (Z * K)} `{!HeapLaws (Z * K)}.
Context (g : graph K) (start end_ : K).
Implicit Types (st : state K) (u v : K) (d w : Z).

(** ** The algorithm on tables *)

Record tables : Type := Tables {
  t_distances : gmap K dist;
  t_predecessors : gmap K (option K);
  t_visited : gset K;
}.
Implicit Types (t : tables).

Definition tables_of st : tables := {|
  t_distances := distances st;
  t_predecessors := predecessors st;
  t_visited := visited st;
|}.

Definition t_visit u t : tables := {|
  t_distances := t_distances t;
  t_predecessors := t_predecessors t;
  t_visited := {[u]} ∪ t_visited t;
|}.

Definition t_improve u v d t : tables := {|
  t_distances := <[v := Fin d]> (t_distances t);
  t_predecessors := <[v := Some u]> (t_predecessors t);
  t_visited := t_visited t;
|}.

(** The relaxation of one edge out of [u], which has distance [d]. *)
Definition t_relax u d t (item : K * Z) : result (exn K) tables :=
  if decide (item.1 ∈ t_visited t) then Ok t
  else
    match t_distances t !! item.1 with
    | None => Raise (KeyError item.1)
    | Some old =>
      if py_lt (Fin (d + item.2)) old
      then Ok (t_improve u item.1 (d + item.2) t)
      else Ok t
    end.

Definition t_expand u d t : result (exn K) tables :=
  foldM (t_relax u d) (default [] (g !! u)) (t_visit u t).

(** [u] is an unvisited node of least distance, [d]. *)
Definition closest t u d : Prop :=
  u ∉ t_visited t ∧ t_distances t !! u = Some (Fin d) ∧
  ∀ v dv, v ∉ t_visited t → t_distances t !! v = Some (Fin dv) → (d ≤ dv)%Z.

(** No unvisited node has a finite distance. *)
Definition exhausted t : Prop :=
  ∀ v dv, v ∉ t_visited t → t_distances t !! v ≠ Some (Fin dv).

(** A step of the algorithm: visit a closest node other than [end]. *)
Inductive t_step : relation tables :=
| t_step_visit t u d t' :
    closest t u d → u ≠ end_ → t_expand u d t = Ok t' → t_step t t'.

(** What the algorithm answers. *)
Inductive t_answer t : dist → Prop :=
| t_answer_found d : closest t end_ d → t_answer t (Fin d)
| t_answer_none : exhausted t → t_answer t Inf.

(** ** The operations of the engine on the tables *)

Lemma relax_tables u d st item :
  tables_of <$> relax u d st item = t_relax u d (tables_of st) item.
Proof.
  destruct item as [v w]. unfold relax, t_relax. simpl.
  case_decide; [done |]. destruct (distances st !! v) as [old|]; [| done].
  by destruct (py_lt _ old).
Qed.

Lemma expand_tables u d st :
  tables_of <$> expand g u d (add_visited u st) =
  t_expand u d (tables_of st).
Proof.
  unfold expand, t_expand. destruct (g !! u) as [items|]; [| done].
  apply (foldM_fmap tables_of). intros. apply relax_tables.
Qed.

(** The entry popped for an unvisited node is a closest node. *)
Lemma pop_closest st d u pq' :
  inv g start end_ st → heappop (pq st) = Some ((d, u), pq') →
  u ∉ visited st → closest (tables_of st) u d.
Proof.
  intros Hinv Hpop Hu. split_and!; [done | by eapply pop_dist |].
  simpl. intros v dv Hv Hdv.
  pose proof (inv_frontier _ _ _ _ _ Hinv v dv Hv Hdv) as Hin.
  by pose proof (heappop_min _ _ _ (inv_heap _ _ _ _ _ Hinv) Hpop _ Hin)
    as Hmin%py_le_pair_fst.
Qed.

(** ** The refinement *)

(** An iteration of the [while] loop that continues is a step of
    Dijkstra's algorithm on the tables (it visits an unvisited node of
    least distance and relaxes its out-edges), or it leaves the tables
    unchanged (the entry popped was stale). *)
Lemma step_refines st st' :
  inv g start end_ st → step g end_ st = Continue st' →
  tables_of st' = tables_of st ∨ t_step (tables_of st) (tables_of st').
Proof.
  intros Hinv
    (d & u & pq' & Hpop & He & [[Hu ->]|[Hu Hx]])%step_Continue_inv;
    [by left | right].
  apply (t_step_visit _ u d); [by eapply pop_closest | done |].
  change (tables_of st) with (tables_of (with_pq st pq')).
  by rewrite <- expand_tables, Hx.
Qed.

(** C22: the engine refines Dijkstra's algorithm on tables: the tables
    at the head of the [while] loop are reached from the initial tables
    by steps of the algorithm, each of which visits an unvisited node of
    least distance and relaxes its out-edges. *)
Theorem reachable_refines st :
  reachable g start end_ st →
  rtc t_step (tables_of (init_state g start)) (tables_of st).
Proof.
  induction 1 as [|st st' Hst IH Hs]; [done |].
  apply reachable_inv in Hst.
  destruct (step_refines st st' Hst Hs) as [->|?]; [done |].
  by eapply rtc_r.
Qed.

(** C23: when the engine returns a cost, it is the answer of the
    algorithm on the tables: the distance of [end], which is then a
    node of least distance among the unvisited ones, or [inf] when no
    unvisited node has a finite distance. *)
Theorem exit_refines st (cost : dist) (path : list K) :
  inv g start end_ st →
  step g end_ st = Done (Some (Ok (cost, path))) →
  t_answer (tables_of st) cost.
Proof.
  intros Hinv [(Hq & ?)|[(_ & _ & ?)|[(d & pq' & Hpop & Hr)|
    (? & ? & ? & ? & _ & _ & _ & _ & ?)]]]%step_Done_inv; simplify_eq.
  - apply t_answer_none. intros v dv Hv Hdv.
    pose proof (inv_frontier _ _ _ _ _ Hinv v dv Hv Hdv) as Hin.
    rewrite Hq in Hin. by apply elem_of_nil in Hin.
  - destruct (finish_is_Some _ _ _ _ _ _ Hinv Hpop) as (l & _ & _ & Hf).
    rewrite Hf in Hr. destruct (predecessors st !! start); simplify_eq.
    apply t_answer_found. eapply pop_closest; eauto using inv_end.
Qed.

End refinement.
