(* ===== verification/Soundness.v ===== *)
(** * What [dijkstra] returns on every graph

    The theorems of this file assume a lawful queue and nothing else:
    weights may be negative and neighbours may be missing from the keys
    of the graph.

    - [exit]: the four ways out of the [while] loop; [dijkstra_returns]:
      the function returns, and what it returns is one of them, taken
      in a state that satisfies the invariant.
    - [exit_Fin], [exit_Inf], [exit_KeyError], [exit_closed]: what the
      invariant says of each way out.
    - [dijkstra_terminates]: the function returns with the fuel it is
      given, and more fuel gives the same result.
    - [dijkstra_no_IndexError]: [heappop] is never called on an empty
      list.
    - [dijkstra_sound]: a finite cost comes with a path of the graph from
      [start] to [end] whose edges sum to that cost.
    - [dijkstra_Inf]: the result [(inf, [])] means that no walk leads
      from [start] to [end].
    - [dijkstra_KeyError]: a [KeyError] names a node that is no key of
      the graph: [start] itself, or the head of an edge that leaves a
      node reachable from [start].
    - [dijkstra_KeyError_complete]: when [end] cannot be reached, a
      neighbour that is no key, listed by a reachable node, makes the
      function raise.
    - [dijkstra_closed_Ok], [dijkstra_complete]: on a graph whose
      neighbours are keys nothing is raised and a reachable target is
      found.
    - [dijkstra_start_is_end], [dijkstra_start_missing],
      [dijkstra_start_isolated]: the results for [start == end] and for a
      [start] that is no key. *)

From S2P Require Import Prelude PyValues PQueue Graph Dijkstra Structure.

Section soundness.
Context `{Countable K, PyLt K} `{!HeapOps (Z * K)} `{!HeapLaws (Z * K)}.
Context (g : graph K) (start end_ : K).
Implicit Types (st : state K) (u v k : K) (d w c : Z) (path l : list K).
Implicit Types (r : outcome K).

(** ** The ways out of the loop *)

Inductive exit st : outcome K → Prop :=
| exit_empty : pq st = [] → exit st (Ok (Inf, []))
| exit_found d pq' l :
    heappop (pq st) = Some ((d, end_), pq') →
    chain g start (predecessors st) (visited st) end_ d l → NoDup l →
    is_Some (predecessors st !! start) →
    exit st (Ok (Fin d, reverse l))
| exit_start_missing d pq' :
    heappop (pq st) = Some ((d, end_), pq') →
    predecessors st !! start = None →
    exit st (Raise (KeyError start))
| exit_raise d u pq' v w :
    heappop (pq st) = Some ((d, u), pq') → u ≠ end_ → u ∉ visited st →
    distances st !! u = Some (Fin d) → edge g u v w → v ∉ dom g →
    exit st (Raise (KeyError v)).

Lemma step_Done_exit st r :
  inv g start end_ st → step g end_ st = Done (Some r) → exit st r.
Proof.
  intros Hinv [(? & ?)|[(Hq & Hpop & _)|[(d & pq' & Hpop & Hr)|
    (d & u & pq' & e & Hpop & ? & ? & Hx & ?)]]]%step_Done_inv;
    simplify_eq.
  - by constructor.
  - apply heappop_is_Some in Hq as [? ?]. congruence.
  - destruct (finish_is_Some _ _ _ _ _ _ Hinv Hpop) as (l & Hc & Hl & Hf).
    rewrite Hf in Hr. injection Hr as ->.
    destruct (predecessors st !! start) eqn:Hp;
      eauto using exit_found, exit_start_missing.
  - pose proof (pop_dist _ _ _ _ _ _ _ Hinv Hpop) as Hd.
    eapply expand_Raise_inv in Hx as (v & w & -> & ? & ?);
      [by econstructor; eauto | | | | by eapply pop_visit_inv | simpl; eauto];
      simpl; [set_solver | by eapply pop_first | done].
Qed.

Lemma dijkstra_exit r :
  dijkstra g start end_ = Some r →
  ∃ st, inv g start end_ st ∧ exit st r.
Proof.
  intros (st & Hst%reachable_inv & Hs)%dijkstra_Some_inv.
  eauto using step_Done_exit.
Qed.

(** The function returns, by one of the ways out. *)
Lemma dijkstra_returns :
  ∃ r st, dijkstra g start end_ = Some r ∧ inv g start end_ st ∧ exit st r.
Proof.
  destruct (loop_terminates g start end_ (dijkstra_fuel g)
    (init_state g start)) as [r Hr]; [apply init_inv | |].
  { unfold measure, dijkstra_fuel. simpl. rewrite unvisited_degree_empty.
    lia. }
  destruct (dijkstra_exit r Hr) as (st & ? & ?). eauto.
Qed.

(** ** What each way out means *)

Lemma exit_Fin st d path :
  exit st (Ok (Fin d, path)) →
  is_path g path d ∧ head path = Some start ∧ last path = Some end_.
Proof.
  inversion 1 as [|? ? l ? Hc| |]; subst.
  split; [by eapply chain_is_path | by eapply chain_reverse_ends].
Qed.

Lemma exit_NoDup st (cost : dist) path :
  exit st (Ok (cost, path)) → NoDup path.
Proof.
  inversion 1; subst; [apply NoDup_nil_2 | by rewrite reverse_Permutation].
Qed.

(** When the queue is empty, every node reachable from [start] is
    visited. *)
Lemma empty_visited st x :
  inv g start end_ st → pq st = [] → reachable_from g start x →
  x ∈ visited st.
Proof.
  intros Hinv Hq [c Hw]. apply dec_stable. intros Hx.
  assert (start ∈ visited st) as Hs.
  { destruct (inv_first _ _ _ _ _ Hinv) as [?|[_ ?]]; [done | congruence]. }
  destruct (walk_leaves _ _ _ _ _ Hw Hs Hx)
    as (u & y & w & c1 & c2 & _ & Hu & He & Hy & _).
  destruct (inv_visited _ _ _ _ _ Hinv u Hu) as [du Hdu].
  destruct (inv_relaxed _ _ _ _ _ Hinv u Hu y w du Hdu He)
    as [?|(dy & Hdy & _)]; [done |].
  pose proof (inv_frontier _ _ _ _ _ Hinv y dy Hy Hdy) as Hin.
  rewrite Hq in Hin. by apply elem_of_nil in Hin.
Qed.

Lemma empty_unreachable st :
  inv g start end_ st → pq st = [] → ¬ reachable_from g start end_.
Proof.
  intros Hinv Hq Hreach. apply (inv_end _ _ _ _ _ Hinv).
  by apply empty_visited.
Qed.

(** When the queue is empty, the neighbours of the nodes reachable from
    [start] have a distance. *)
Lemma empty_neighbour st u v w :
  inv g start end_ st → pq st = [] → reachable_from g start u →
  edge g u v w → v ∈ dom (distances st).
Proof.
  intros Hinv Hq Hu%(empty_visited st) He; [| done..].
  destruct (inv_visited _ _ _ _ _ Hinv u Hu) as [du Hdu].
  destruct (inv_relaxed _ _ _ _ _ Hinv u Hu v w du Hdu He)
    as [[dv Hdv]%(inv_visited _ _ _ _ _ Hinv)|(dv & Hdv & _)];
    by eapply elem_of_dom_2.
Qed.

Lemma exit_Inf st path :
  inv g start end_ st → exit st (Ok (Inf, path)) →
  path = [] ∧ ¬ reachable_from g start end_.
Proof. intros Hinv Hex. inversion Hex; eauto using empty_unreachable. Qed.

Lemma exit_KeyError st k :
  inv g start end_ st → exit st (Raise (KeyError k)) →
  k ∉ dom g ∧
  (k = start ∨ ∃ u w, reachable_from g start u ∧ edge g u k w).
Proof.
  intros Hinv Hex.
  inversion Hex as [| |? ? ? Hp|d u ? v w ? ? ? Hd]; subst.
  - split; [| by left]. apply not_elem_of_dom in Hp.
    by rewrite (inv_dom_pred _ _ _ _ _ Hinv) in Hp.
  - split; [done | right]. exists u, w. split; [| done].
    destruct (inv_chain _ _ _ _ _ Hinv u d Hd) as (l & Hc & _).
    exists d. by eapply chain_walk.
Qed.

(** On a graph whose neighbours are keys, with [start] a key, every way
    out returns. *)
Lemma exit_closed st r :
  closed g → start ∈ dom g → inv g start end_ st → exit st r →
  ∃ (cost : dist) path, r = Ok (cost, path).
Proof.
  intros Hc Hs Hinv Hex. destruct r as [[cost path]|[k|]]; [eauto | |].
  - apply (exit_KeyError _ _ Hinv) in Hex as [Hk [->|(u & w & _ & He)]];
      [done |].
    rewrite closed_spec in Hc. by apply Hc in He.
  - inversion Hex.
Qed.

(** ** The function *)

(** C4: [dijkstra] returns on every graph, for every [start] and [end]:
    the fuel [dijkstra_fuel] given to the [while] loop suffices, and the
    loop returns the same with any larger fuel. *)
Theorem dijkstra_terminates :
  ∃ r, dijkstra g start end_ = Some r ∧
    ∀ fuel, dijkstra_fuel g ≤ fuel →
      loop fuel g end_ (init_state g start) = Some r.
Proof.
  destruct dijkstra_returns as (r & _ & Hr & _). exists r.
  split; [done |]. intros fuel. by apply loop_fuel_mono.
Qed.

(** C12: [heapq.heappop] never raises [IndexError] in [dijkstra]: the
    loop pops from a list that the test [while pq] found non-empty. *)
Theorem dijkstra_no_IndexError :
  dijkstra g start end_ ≠ Some (Raise IndexError).
Proof. intros (st & _ & Hex)%dijkstra_exit. inversion Hex. Qed.

(** C3: a result [(d, path)] with [d] finite is sound on every graph:
    [path] is a path of the graph that starts at [start] and ends at
    [end], and its weights add up to [d]. *)
Theorem dijkstra_sound d path :
  dijkstra g start end_ = Some (Ok (Fin d, path)) →
  is_path g path d ∧ head path = Some start ∧ last path = Some end_.
Proof. intros (st & _ & Hex)%dijkstra_exit. by eapply exit_Fin. Qed.

(** C5: the result [(float('inf'), [])] of line 62 is returned only when
    no walk of the graph leads from [start] to [end]; the path returned
    with an infinite cost is always empty. *)
Theorem dijkstra_Inf path :
  dijkstra g start end_ = Some (Ok (Inf, path)) →
  path = [] ∧ ¬ reachable_from g start end_.
Proof. intros (st & Hinv & Hex)%dijkstra_exit. by eapply exit_Inf. Qed.

(** C6: a [KeyError] raised by [dijkstra] names a node that is no key of
    the graph; the node is [start] (raised at [predecessors[start]] when
    [start == end]) or a neighbour listed by a node reachable from
    [start] (raised at [distances[neighbor]]). *)
Theorem dijkstra_KeyError k :
  dijkstra g start end_ = Some (Raise (KeyError k)) →
  k ∉ dom g ∧
  (k = start ∨ ∃ u w, reachable_from g start u ∧ edge g u k w).
Proof. intros (st & Hinv & Hex)%dijkstra_exit. by eapply exit_KeyError. Qed.

(** C7: when every neighbour is a key of the graph and [start] is a key,
    [dijkstra] raises nothing: it returns a cost and a path. *)
Theorem dijkstra_closed_Ok :
  closed g → start ∈ dom g →
  ∃ (cost : dist) path, dijkstra g start end_ = Some (Ok (cost, path)).
Proof.
  intros Hc Hs. destruct dijkstra_returns as (r & st & Hr & Hinv & Hex).
  destruct (exit_closed st r Hc Hs Hinv Hex) as (cost & path & ->). eauto.
Qed.

(** C8: on such a graph a target that can be reached from [start] is
    found: the cost returned is finite. *)
Theorem dijkstra_complete :
  closed g → start ∈ dom g → reachable_from g start end_ →
  ∃ d path, dijkstra g start end_ = Some (Ok (Fin d, path)).
Proof.
  intros Hc Hs Hreach. destruct dijkstra_returns as (r & st & Hr & Hinv & Hex).
  destruct (exit_closed st r Hc Hs Hinv Hex) as ([d|] & path & ->); [eauto |].
  by apply exit_Inf in Hex as [_ ?].
Qed.

(** C24: on such a graph a target that cannot be reached from [start]
    gives [(inf, [])], whatever the sign of the weights. *)
Theorem dijkstra_unreachable :
  closed g → start ∈ dom g → ¬ reachable_from g start end_ →
  dijkstra g start end_ = Some (Ok (Inf, [])).
Proof.
  intros Hc Hs Hreach. destruct dijkstra_returns as (r & st & Hr & Hinv & Hex).
  destruct (exit_closed st r Hc Hs Hinv Hex) as ([d|] & path & ->).
  - apply exit_Fin in Hex as ((s & e & ? & ? & ?)%is_path_walk & ? & ?).
    destruct Hreach. exists d. by simplify_eq.
  - by apply exit_Inf in Hex as [-> _].
Qed.

(** C34: a neighbour that is no key of the graph is not skipped: when
    [end] cannot be reached and a node that can be reached from [start]
    lists a neighbour that is no key, the search does not end in
    [(inf, [])]; it raises [KeyError]. *)
Theorem dijkstra_KeyError_complete u v w :
  ¬ reachable_from g start end_ →
  reachable_from g start u → edge g u v w → v ∉ dom g →
  ∃ k, dijkstra g start end_ = Some (Raise (KeyError k)).
Proof.
  intros Hreach Hu He Hv.
  destruct dijkstra_returns as ([[[d|] path]|[k|]] & st & -> & Hinv & Hex).
  - apply exit_Fin in Hex as (Hp & Hh & Hl). destruct Hreach.
    exists d. by eapply is_path_walk_ends.
  - inversion Hex as [Hq| | |]; subst.
    pose proof (empty_neighbour st u v w Hinv Hq Hu He) as Hd.
    rewrite (inv_dom_dist _ _ _ _ _ Hinv) in Hd.
    destruct Hu as [c Hw]. pose proof (walk_source _ _ _ _ _ _ Hw He).
    set_solver.
  - by exists k.
  - inversion Hex.
Qed.

(** C25: the path returned repeats no node, on every graph. *)
Theorem dijkstra_path_NoDup (cost : dist) path :
  dijkstra g start end_ = Some (Ok (cost, path)) → NoDup path.
Proof. intros (st & _ & Hex)%dijkstra_exit. by eapply exit_NoDup. Qed.

End soundness.

(** ** The first iterations, computed *)

Section first_steps.
Context `{Countable K, PyLt K} `{!HeapOps (Z * K)} `{!HeapLaws (Z * K)}.
Context (g : graph K) (start : K).

Lemma step_init_start :
  step g start (init_state g start) =
  Done (finish 0 start (with_pq (init_state g start) [])).
Proof.
  unfold step. simpl. rewrite heappop_singleton. by rewrite decide_True.
Qed.

(** C9: for [start == end] with [start] a key of the graph the result is
    [(0, [start])]. *)
Theorem dijkstra_start_is_end :
  start ∈ dom g → dijkstra g start start = Some (Ok (Fin 0, [start])).
Proof.
  intros [adj Hs]%elem_of_dom. unfold dijkstra, dijkstra_fuel.
  rewrite loop_S, step_init_start. unfold finish. simpl.
  by rewrite lookup_fmap, Hs.
Qed.

(** C10: for [start == end] with [start] no key of the graph, the read
    of [predecessors[start]] on line 41 raises [KeyError]. *)
Theorem dijkstra_start_missing :
  start ∉ dom g → dijkstra g start start = Some (Raise (KeyError start)).
Proof.
  intros Hs%not_elem_of_dom. unfold dijkstra, dijkstra_fuel.
  rewrite loop_S, step_init_start. unfold finish. simpl.
  by rewrite lookup_fmap, Hs.
Qed.

(** C11: a [start] that is no key of the graph reaches no other node:
    the result for a different [end] is [(inf, [])]. *)
Theorem dijkstra_start_isolated (end_ : K) :
  start ∉ dom g → start ≠ end_ → dijkstra g start end_ = Some (Ok (Inf, [])).
Proof.
  intros Hs%not_elem_of_dom Hne. unfold dijkstra, dijkstra_fuel.
  rewrite loop_S. unfold step at 1. simpl. rewrite heappop_singleton.
  rewrite decide_False by done. simpl. rewrite decide_False by set_solver.
  unfold expand. by rewrite Hs.
Qed.

End first_steps.
