(* ===== verification/Optimality.v ===== *)
(** * The cost returned is the least: the contract of the engine

    With non-negative weights ([nonneg]) the distance of every visited
    node is the least cost of a walk from [start] ([optimal]).  The
    invariant is kept because the entry popped is the least of the
    queue: a cheaper walk would leave the visited set through an edge
    whose head has a smaller entry in the queue ([pop_optimal]).

    - [dijkstra_shortest]: the cost returned is the cost of a shortest
      walk: no walk from [start] to [end] costs less.
    - [dijkstra_correct]: on a closed graph with non-negative weights
      and [start] among its keys, the function returns the cost of a
      shortest walk with a path of that cost, or [(inf, [])] when [end]
      cannot be reached ([dijkstra_cases] is the same with what else is
      known of the path).
    - [visited_shortest]: the distance of a visited node is final.
    - [dijkstra_path_prefix]: the prefixes of the path returned are
      shortest.
    - [pops_nondecreasing]: the distances popped never decrease.
    - [dijkstra_cost_ext]: the cost depends on the edges only. *)

From S2P Require Import Prelude PyValues PQueue Graph Dijkstra Structure.
From S2P Require Import Invariants Soundness.

Section optimality.
Context `{Countable K, PyLt K} `{!HeapOps (Z * K)} `{!HeapLaws (Z * K)}.
Context (g : graph K) (start end_ : K) (Hnonneg : nonneg g).
Implicit Types (st : state K) (u v : K) (d w c : Z) (path : list K).

(** The distance of a visited node is the least cost of a walk to it. *)
Definition optimal st : Prop :=
  ∀ u du c, u ∈ visited st → distances st !! u = Some (Fin du) →
    walk g start u c → (du ≤ c)%Z.

(** The entry popped for an unvisited node is below the cost of every
    walk to that node. *)
Lemma pop_optimal st d u pq' c :
  inv g start end_ st → optimal st →
  heappop (pq st) = Some ((d, u), pq') → u ∉ visited st →
  walk g start u c → (d ≤ c)%Z.
Proof.
  intros Hinv Hopt Hpop Hu Hw.
  destruct (inv_first _ _ _ _ _ Hinv) as [Hs|[_ Hq]].
  - destruct (walk_leaves _ _ _ _ _ Hw Hs Hu)
      as (x & y & w & c1 & c2 & Hw1 & Hx & He & Hy & Hw2 & ->).
    destruct (inv_visited _ _ _ _ _ Hinv x Hx) as [dx Hdx].
    destruct (inv_relaxed _ _ _ _ _ Hinv x Hx y w dx Hdx He)
      as [?|(dy & Hdy & Hle)]; [done |].
    pose proof (inv_frontier _ _ _ _ _ Hinv y dy Hy Hdy) as Hin.
    pose proof (heappop_min _ _ _ (inv_heap _ _ _ _ _ Hinv) Hpop _ Hin)
      as Hmin%py_le_pair_fst.
    pose proof (Hopt x dx c1 Hx Hdx Hw1).
    pose proof (walk_nonneg _ _ _ _ Hnonneg Hw2). lia.
  - pose proof (pop_elem_of _ _ _ _ Hpop) as Hin. rewrite Hq in Hin.
    apply list_elem_of_singleton in Hin as [= -> ->].
    by eapply walk_nonneg.
Qed.

Lemma step_optimal st st' :
  inv g start end_ st → optimal st → step g end_ st = Continue st' →
  optimal st'.
Proof.
  intros Hinv Hopt
    (d & u & pq' & Hpop & He & [[Hu ->]|[Hu Hx]])%step_Continue_inv; [done |].
  apply expand_frame in Hx as [HV HD]. simpl in *.
  intros x dx c. rewrite HV. intros Hx. destruct (HD x Hx) as [-> _].
  apply elem_of_union in Hx as [->%elem_of_singleton|Hx]; [| by apply Hopt].
  rewrite (pop_dist _ _ _ _ _ _ _ Hinv Hpop Hu). intros [= <-].
  by eapply pop_optimal.
Qed.

Lemma reachable_optimal st : reachable g start end_ st → optimal st.
Proof.
  induction 1 as [|st st' Hst IH Hs]; [by intros u du c ?%elem_of_empty |].
  eauto using step_optimal, reachable_inv.
Qed.

(** ** The ways out, with the distances optimal *)

(** The way out is taken in a state whose distances are optimal. *)
Lemma dijkstra_exit_optimal r :
  dijkstra g start end_ = Some r →
  ∃ st, inv g start end_ st ∧ optimal st ∧ exit g start end_ st r.
Proof.
  intros (st & Hst & Hs)%dijkstra_Some_inv.
  pose proof (reachable_inv _ _ _ _ Hst). exists st.
  split_and!; [done | by apply reachable_optimal | by apply step_Done_exit].
Qed.

Lemma exit_optimal st d path c :
  inv g start end_ st → optimal st →
  exit g start end_ st (Ok (Fin d, path)) →
  walk g start end_ c → (d ≤ c)%Z.
Proof.
  intros Hinv Hopt Hex. inversion Hex as [|? pq' l Hpop| |]; subst.
  eapply pop_optimal; eauto using inv_end.
Qed.

Lemma exit_shortest st d path :
  inv g start end_ st → optimal st →
  exit g start end_ st (Ok (Fin d, path)) →
  shortest g start end_ d.
Proof.
  intros Hinv Hopt Hex. split; [| intros c; by eapply exit_optimal].
  apply exit_Fin in Hex as ((s & e & ? & ? & ?)%is_path_walk & ? & ?).
  by simplify_eq.
Qed.

(** The two results in the contract, with what is known of each. *)
Lemma dijkstra_cases :
  closed g → start ∈ dom g →
  (∃ d path,
     dijkstra g start end_ = Some (Ok (Fin d, path)) ∧
     shortest g start end_ d ∧ is_path g path d ∧
     head path = Some start ∧ last path = Some end_ ∧ NoDup path)
  ∨ (dijkstra g start end_ = Some (Ok (Inf, [])) ∧
     ¬ reachable_from g start end_).
Proof.
  intros Hc Hs. destruct (dijkstra_returns g start end_) as (r & _ & Hr & _).
  destruct (dijkstra_exit_optimal r Hr) as (st & Hinv & Hopt & Hex).
  destruct (exit_closed _ _ _ _ _ Hc Hs Hinv Hex) as ([d|] & path & ->).
  - left. exists d, path. pose proof (exit_Fin _ _ _ _ _ _ Hex).
    pose proof (exit_NoDup _ _ _ _ _ _ Hex).
    pose proof (exit_shortest _ _ _ Hinv Hopt Hex). naive_solver.
  - right. by destruct (exit_Inf _ _ _ _ _ Hinv Hex) as [-> ?].
Qed.

(** ** The contract *)

(** C2: with non-negative weights a finite cost returned is the cost of
    a shortest walk from [start] to [end], whether or not the neighbours
    are keys of the graph: a walk of that cost exists and no walk costs
    less. *)
Theorem dijkstra_shortest d path :
  dijkstra g start end_ = Some (Ok (Fin d, path)) → shortest g start end_ d.
Proof.
  intros (st & ? & ? & ?)%dijkstra_exit_optimal. by eapply exit_shortest.
Qed.

(** C1: the contract of [dijkstra].  On a graph with non-negative
    weights whose neighbours are keys, with [start] a key, the function
    returns.  It returns [(d, path)] where [d] is the cost of a shortest
    walk from [start] to [end] and [path] is a path of the graph from
    [start] to [end] of cost [d]; or it returns [(inf, [])] and [end]
    cannot be reached from [start]. *)
Theorem dijkstra_correct :
  closed g → start ∈ dom g →
  (∃ d path,
     dijkstra g start end_ = Some (Ok (Fin d, path)) ∧
     shortest g start end_ d ∧ is_path g path d ∧
     head path = Some start ∧ last path = Some end_)
  ∨ (dijkstra g start end_ = Some (Ok (Inf, [])) ∧
     ¬ reachable_from g start end_).
Proof.
  intros Hc Hs.
  destruct (dijkstra_cases Hc Hs) as [(d & path & ? & ? & ? & ? & ? & _)|?];
    [left; by exists d, path | by right].
Qed.

(** C28: with non-negative weights the distance of a visited node is
    final: at the head of the loop [distances[u]] of every visited [u]
    is the cost of a shortest walk from [start] to [u]. *)
Theorem visited_shortest st u :
  reachable g start end_ st → u ∈ visited st →
  ∃ d, distances st !! u = Some (Fin d) ∧ shortest g start u d.
Proof.
  intros Hst Hu. pose proof (reachable_inv _ _ _ _ Hst) as Hinv.
  destruct (inv_visited _ _ _ _ _ Hinv u Hu) as [d Hd].
  destruct (inv_chain _ _ _ _ _ Hinv u d Hd) as (l & Hc & _).
  exists d. split; [done |]. split; [by eapply chain_walk |].
  intros c. by apply (reachable_optimal st Hst).
Qed.

(** C39: with non-negative weights every prefix of the path returned is
    a shortest path to its last node: the path reaches each of its
    nodes at the least cost. *)
Theorem dijkstra_path_prefix d p1 x p2 :
  dijkstra g start end_ = Some (Ok (Fin d, p1 ++ x :: p2)) →
  ∃ c, is_path g (p1 ++ [x]) c ∧ head (p1 ++ [x]) = Some start ∧
    shortest g start x c.
Proof.
  intros (st & Hinv & Hopt & Hex)%dijkstra_exit_optimal.
  pose proof (exit_shortest _ _ _ Hinv Hopt Hex) as Hsh.
  apply exit_Fin in Hex as (Hp & Hh & Hl).
  apply is_path_split in Hp as (c1 & c2 & Hp1 & Hp2 & ->).
  assert (head (p1 ++ [x]) = Some start) as Hh1 by by destruct p1.
  rewrite last_app_cons in Hl.
  exists c1. split_and!; [done.. |].
  apply (shortest_prefix _ _ _ _ _ _ Hsh).
  - apply (is_path_walk_ends _ _ _ _ _ Hp1 Hh1), last_snoc.
  - by apply (is_path_walk_ends _ _ _ _ _ Hp2).
Qed.

(** C36: with non-negative weights the distances popped never decrease:
    the distance that an iteration pops is at most the distance that
    the next iteration pops. *)
Theorem pops_nondecreasing st st' d u pq1 d' u' pq2 :
  reachable g start end_ st →
  heappop (pq st) = Some ((d, u), pq1) →
  step g end_ st = Continue st' →
  heappop (pq st') = Some ((d', u'), pq2) → (d ≤ d')%Z.
Proof.
  intros Hinv%reachable_inv Hpop
    (d0 & u0 & pq0 & Hpop0 & _ & Hcase)%step_Continue_inv Hpop'.
  rewrite Hpop in Hpop0. injection Hpop0 as <- <- <-.
  assert (∀ x, x ∈ pq1 → (d ≤ x.1)%Z) as Hold.
  { intros [dx x] Hx. apply (py_le_pair_fst d dx u x).
    apply (heappop_min _ _ _ (inv_heap _ _ _ _ _ Hinv) Hpop).
    apply (heappop_elem_of _ _ _ _ Hpop). by right. }
  assert ((d', u') ∈ pq st') as Hin.
  { apply (heappop_elem_of _ _ _ _ Hpop'). by left. }
  destruct Hcase as [[_ ->]|[_ Hx]]; [by apply (Hold (d', u')) |].
  destruct (expand_pq_elem_of _ _ _ _ _ _ Hx Hin)
    as [Hin1|(v & w & He & [= -> ->])]; [by apply (Hold (d', u')) |].
  rewrite nonneg_spec in Hnonneg. apply Hnonneg in He. lia.
Qed.

End optimality.

(** ** The cost depends on the edges only *)

Section extensional.
Context `{Countable K, PyLt K} `{!HeapOps (Z * K)} `{!HeapLaws (Z * K)}.
Context (g g' : graph K) (start end_ : K).

(** C37: the cost does not depend on the order in which the nodes list
    their neighbours: with non-negative weights, two graphs with the
    same keys and the same edges give the same cost (the paths may
    differ when several cost the same). *)
Theorem dijkstra_cost_ext :
  nonneg g → closed g → start ∈ dom g →
  dom g = dom g' → same_edges g g' →
  ∃ (cost : dist) path path',
    dijkstra g start end_ = Some (Ok (cost, path)) ∧
    dijkstra g' start end_ = Some (Ok (cost, path')).
Proof.
  intros Hn Hc Hs Hdom Hg.
  assert (nonneg g') as Hn' by by rewrite <- Hg.
  pose proof (closed_same_edges _ _ Hg Hdom Hc) as Hc'.
  destruct (dijkstra_cases g start end_ Hn Hc Hs)
    as [(d & path & -> & Hsh & _)|[-> Hreach]];
    (destruct (dijkstra_cases g' start end_ Hn' Hc')
      as [(d' & path' & -> & Hsh' & _)|[-> Hreach']]; [by rewrite <- Hdom | |]).
  - exists (Fin d), path, path'. rewrite <- Hg in Hsh'.
    by rewrite (shortest_unique _ _ _ _ _ Hsh Hsh').
  - destruct Hreach'. rewrite <- Hg. destruct Hsh as [? _]. by exists d.
  - destruct Hreach. rewrite Hg. destruct Hsh' as [? _]. by exists d'.
  - by exists Inf, [], [].
Qed.

End extensional.
