(* ===== verification/Targets.v ===== *)
(** * The search does not look at its target until it pops it

    [end] occurs once in the loop of [dijkstra]: in the test of line 37.
    Two calls with the same graph and the same [start] therefore go
    through the same states until one of them pops its target.  A node
    on the path that [dijkstra] returns for [end] was popped, and
    visited, before [end]; a call with that node as its target stops
    there, and returns the part of the path that leads to it.

    - [step_target]: an iteration that pops a node other than the two
      targets is the same for both.
    - [reachable_target]: a state of the search for [e] in which [x] is
      not visited is a state of the search for [x].
    - [visited_popped]: a visited node was popped in an earlier state,
      and its chain of predecessors has not changed since.
    - [reachable_Done_dijkstra]: the result of the function is the one
      of the state whose iteration leaves the loop.
    - [dijkstra_prefix_target]: the result for a node of the path
      returned. *)

From S2P Require Import Prelude PyValues PQueue Graph Dijkstra Structure.
From S2P Require Import Invariants Soundness.

Section targets.
Context `{Countable K, PyLt K} `{!HeapOps (Z * K)} `{!HeapLaws (Z * K)}.
Context (g : graph K) (start : K).
Implicit Types (st : state K) (e x y u : K) (d : Z) (l p : list K).
Implicit Types (r : outcome K).

(** ** One iteration *)

Lemma step_target e x st st' d u pq' :
  heappop (pq st) = Some ((d, u), pq') → u ≠ x →
  step g e st = Continue st' → step g x st = Continue st'.
Proof.
  unfold step. intros Hpop Hu. destruct (pq st); [done |]. rewrite Hpop.
  case_decide; [done |]. by rewrite (decide_False (P := u = x)).
Qed.

(** Line 37, taken. *)
Lemma step_found x st d pq' :
  heappop (pq st) = Some ((d, x), pq') →
  step g x st = Done (finish d x (with_pq st pq')).
Proof.
  unfold step. intros Hpop. pose proof (heappop_length _ _ _ Hpop).
  destruct (pq st); [done |]. rewrite Hpop. by rewrite decide_True.
Qed.

(** The node popped is visited after the iteration, and its entry in
    [predecessors] and those of the visited nodes are as before. *)
Lemma step_popped e st st' d u pq' :
  heappop (pq st) = Some ((d, u), pq') → step g e st = Continue st' →
  {[u]} ∪ visited st ⊆ visited st' ∧
  ∀ y, y ∈ {[u]} ∪ visited st →
    predecessors st' !! y = predecessors st !! y.
Proof.
  intros Hpop (d' & u' & pq'' & Hpop' & _ & Hcase)%step_Continue_inv.
  rewrite Hpop in Hpop'. injection Hpop' as <- <- <-.
  destruct Hcase as [[Hu ->]|[_ [HV HD]%expand_frame]]; simpl in *.
  - split; [set_solver | done].
  - rewrite HV. split; [done |]. intros y Hy. by destruct (HD y Hy).
Qed.

(** The visited set grows by the node popped, if at all. *)
Lemma step_visited_new e st st' d u pq' x :
  heappop (pq st) = Some ((d, u), pq') → step g e st = Continue st' →
  x ∈ visited st' → x ∉ visited st → x = u.
Proof.
  intros Hpop (d' & u' & pq'' & Hpop' & _ & Hcase)%step_Continue_inv.
  rewrite Hpop in Hpop'. injection Hpop' as <- <- <-.
  destruct Hcase as [[_ ->]|[_ [HV _]%expand_frame]]; simpl in *;
    [done |]. rewrite HV. set_solver.
Qed.

(** ** The states of two searches *)

Lemma reachable_target e x st :
  reachable g start e st → x ∉ visited st → reachable g start x st.
Proof.
  induction 1 as [|st st' Hst IH Hs]; intros Hx; [constructor |].
  destruct (step_Continue_inv _ _ _ _ Hs) as (d & u & pq' & Hpop & _).
  destruct (step_popped _ _ _ _ _ _ Hpop Hs) as [HV _].
  apply reachable_step with st; [apply IH; set_solver |].
  eapply step_target; [done | set_solver | done].
Qed.

(** A visited node was popped in an earlier state; the nodes visited
    then are still visited, and their predecessors and its own are
    unchanged. *)
Lemma visited_popped e x st :
  reachable g start e st → x ∈ visited st →
  ∃ st0 d pq',
    reachable g start e st0 ∧ x ∉ visited st0 ∧
    heappop (pq st0) = Some ((d, x), pq') ∧
    ∀ y, y ∈ {[x]} ∪ visited st0 →
      y ∈ visited st ∧ predecessors st !! y = predecessors st0 !! y.
Proof.
  induction 1 as [|st st' Hst IH Hs]; intros Hx; [set_solver |].
  destruct (step_Continue_inv _ _ _ _ Hs) as (d & u & pq' & Hpop & _).
  destruct (step_popped _ _ _ _ _ _ Hpop Hs) as [HV HP].
  destruct (decide (x ∈ visited st)) as [Hin|Hout].
  - destruct (IH Hin) as (st0 & d0 & pq0 & ? & ? & ? & Hfr).
    exists st0, d0, pq0. split_and!; [done.. |]. intros y [Hy <-]%Hfr.
    split; [set_solver | apply HP; set_solver].
  - pose proof (step_visited_new _ _ _ _ _ _ _ Hpop Hs Hx Hout) as ->.
    exists st, d, pq'. split_and!; [done.. |]. intros y Hy.
    split; [set_solver | by apply HP].
Qed.

(** ** The result is the one of the state that leaves the loop *)

Lemma reachable_loop e st :
  reachable g start e st → ∀ fuel r, loop fuel g e st = Some r →
  ∃ fuel', loop fuel' g e (init_state g start) = Some r.
Proof.
  induction 1 as [|st st' Hst IH Hs]; intros fuel r Hr; [eauto |].
  apply (IH (S fuel)). by rewrite loop_S, Hs.
Qed.

Lemma reachable_Done_dijkstra e st r :
  reachable g start e st → step g e st = Done (Some r) →
  dijkstra g start e = Some r.
Proof.
  intros Hst Hs.
  destruct (reachable_loop e st Hst 1 r) as [fuel Hr]; [by rewrite loop_S, Hs |].
  destruct (dijkstra_returns g start e) as (r' & _ & Hr' & _).
  rewrite Hr'. unfold dijkstra in Hr'.
  apply (loop_fuel_mono _ (fuel + dijkstra_fuel g)) in Hr; [| lia].
  apply (loop_fuel_mono _ (fuel + dijkstra_fuel g)) in Hr'; [| lia].
  congruence.
Qed.

(** ** The result for a node of the path *)

(** The search for a node that the search for [e] has visited returns
    the chain of that node. *)
Lemma visited_result e x st dx lx :
  reachable g start e st → x ∈ visited st →
  is_Some (predecessors st !! start) →
  chain g start (predecessors st) (visited st) x dx lx →
  ∃ c, dijkstra g start x = Some (Ok (Fin c, reverse lx)).
Proof.
  intros Hst Hx Hs Hc.
  destruct (visited_popped e x st Hst Hx)
    as (st0 & d0 & pq0 & Hst0 & Hx0 & Hpop & Hfr).
  apply (reachable_target e x) in Hst0; [| done].
  pose proof (reachable_inv _ _ _ _ Hst0) as Hinv0.
  destruct (finish_is_Some _ _ _ _ _ _ Hinv0 Hpop) as (l0 & Hc0 & _ & Hf).
  assert (is_Some (predecessors st0 !! start)) as [p Hp].
  { apply elem_of_dom. rewrite (inv_dom_pred _ _ _ _ _ Hinv0).
    rewrite <- (inv_dom_pred _ _ _ _ _ (reachable_inv _ _ _ _ Hst)).
    by apply elem_of_dom. }
  rewrite Hp in Hf. exists d0.
  apply (reachable_Done_dijkstra x st0); [done |].
  rewrite (step_found x st0 d0 pq0 Hpop), Hf. do 5 f_equal.
  apply (chain_list_unique g start (predecessors st) (visited st)
    (visited st) x d0 dx); [| | done].
  - apply (inv_start_pred _ _ _ _ _ (reachable_inv _ _ _ _ Hst)).
  - eapply chain_mono; [done | intros y Hy; apply Hfr; set_solver |].
    intros y [->|Hy]%(chain_elem_of _ _ _ _ _ _ _ _ Hc0); apply Hfr;
      set_solver.
Qed.

(** C31: the results for two targets agree.  When [dijkstra] returns a
    path for [end], then for every node [x] of that path the call with
    [x] as the target returns the part of the path that leads to [x]. *)
Theorem dijkstra_prefix_target e d p1 x p2 :
  dijkstra g start e = Some (Ok (Fin d, p1 ++ x :: p2)) →
  ∃ c, dijkstra g start x = Some (Ok (Fin c, p1 ++ [x])).
Proof.
  intros Hr. destruct (dijkstra_Some_inv _ _ _ _ Hr) as (st & Hst & Hs).
  apply (step_Done_exit _ _ _ _ _ (reachable_inv _ _ _ _ Hst)) in Hs.
  inversion Hs as [|? pq' l Hpop Hc Hnd Hsome [Hd Hl]| |]; subst.
  apply (f_equal reverse) in Hl.
  rewrite reverse_involutive, reverse_app, reverse_cons in Hl.
  rewrite <- (assoc_L (++)) in Hl. simpl in Hl. subst l.
  destruct (chain_suffix _ _ _ _ _ _ _ _ _ Hc) as [dx Hcx].
  destruct p2 as [|y p2 _] using rev_ind.
  { simpl in Hc. pose proof (chain_head _ _ _ _ _ _ _ Hc). simplify_eq/=.
    by exists d. }
  destruct (visited_result e x st dx (x :: reverse p1)) as [c Hx];
    [done | | done | done |].
  - apply (chain_tail_visited _ _ _ _ _ _ _ _ Hc).
    rewrite reverse_app. simpl. set_solver.
  - exists c. by rewrite Hx, reverse_cons, reverse_involutive.
Qed.

End targets.
