(* ===== verification/Program.v ===== *)
(** * The program as it runs: the engine on CPython's heap

    [src/dijkstra.py] imports [heapq] (line 1) and calls
    [heapq.heappush] and [heapq.heappop] on the list [pq].  The theorems
    on the engine are proved for every queue that satisfies [HeapLaws];
    [Heapq.heapq_laws] shows that the heap of CPython does, for entries
    that Python compares totally.  This file links the two: it states
    the contract for [dijkstra] run with [Heapq.heapq], which is the
    function that the program calls.

    - [reachable_heap_ordered]: at the head of the loop the list [pq] is
      a heap in CPython's sense, [heap[k] <= heap[2*k+1]] and
      [heap[k] <= heap[2*k+2]].
    - [pop_least]: the entry that line 34 reads is a least entry of
      [pq].
    - [dijkstra_heapq_correct]: the contract, for the function as the
      program runs it. *)

From S2P Require Import Prelude PyValues PQueue Heapq Graph Dijkstra.
From S2P Require Import Structure Soundness Optimality.

Section program.
Context `{Countable K, PyLt K, !PyLtLaws K}.
Context (g : graph K) (start end_ : K).
Implicit Types (st : state K) (u : K) (d : Z).

#[local] Existing Instance heapq.

Lemma reachable_heap_ordered st :
  reachable g start end_ st → heap_ordered (pq st).
Proof. intros Hinv%reachable_inv. exact (inv_heap _ _ _ _ _ Hinv). Qed.

Lemma pop_least st d u pq' x :
  reachable g start end_ st → heapq_pop (pq st) = Some ((d, u), pq') →
  x ∈ pq st → (d, u) ⪯ x.
Proof.
  intros Hst%reachable_heap_ordered Hpop. by apply (heapq_pop_min (pq st) _ pq').
Qed.

(** C13: the contract for the function as the program runs it, with the
    [heapq] of CPython as the queue and nodes that Python compares
    totally.  On a graph with non-negative weights whose neighbours are
    keys, with [start] a key, it returns the cost of a shortest walk
    from [start] to [end] with a path of that cost that repeats no node,
    or it returns [(inf, [])] and [end] cannot be reached. *)
Theorem dijkstra_heapq_correct :
  nonneg g → closed g → start ∈ dom g →
  (∃ d path,
     dijkstra (H0 := heapq (Z * K)) g start end_ = Some (Ok (Fin d, path)) ∧
     shortest g start end_ d ∧ is_path g path d ∧
     head path = Some start ∧ last path = Some end_ ∧ NoDup path)
  ∨ (dijkstra (H0 := heapq (Z * K)) g start end_ = Some (Ok (Inf, [])) ∧
     ¬ reachable_from g start end_).
Proof. apply dijkstra_cases. Qed.

End program.
