(* ===== verification/Reference.v ===== *)
(** * A reference for the cost: the least over all simple paths

    The cost that [dijkstra] returns can be checked by enumeration, as
    the specification suggests for small graphs.  This file gives the
    enumeration and proves that the engine agrees with it.

    - [simple_paths fuel g seen u e]: the paths of the graph from [u]
      to [e] that repeat no node and avoid [seen], with their costs.
      Each recursive call adds a key of the graph to [seen], so the
      number of keys is enough fuel ([simple_paths_complete] asks for
      [length p <= 1 + fuel], [is_path_length] gives it).
    - [least_cost]: the least cost in a list of paths, [inf] when the
      list is empty.
    - [brute_force g s e]: the least cost of a simple path from [s] to
      [e].
    - [simple_paths_sound], [simple_paths_complete]: the enumeration
      lists paths of the graph, and lists every simple one.
    - [dijkstra_brute_force]: with non-negative weights the cost that
      the engine returns is the one found by enumeration. *)

From S2P Require Import Prelude PyValues PQueue Graph Dijkstra Structure.
From S2P Require Import Soundness Optimality.

Section reference.
Context `{Countable K}.
Implicit Types (g : graph K) (u v s e : K) (w c : Z) (p : list K).
Implicit Types (seen : gset K) (l : list (list K * Z)).

Fixpoint simple_paths (fuel : nat) g seen u e : list (list K * Z) :=
  if decide (u = e) then [([u], 0%Z)]
  else
    match fuel with
    | 0 => []
    | S fuel' =>
      item ← default [] (g !! u);
      if decide (item.1 ∈ {[u]} ∪ seen) then []
      else (λ pc, (u :: pc.1, (item.2 + pc.2)%Z)) <$>
             simple_paths fuel' g ({[u]} ∪ seen) item.1 e
    end.

Definition dist_min (a b : dist) : dist := if py_lt b a then b else a.

Definition least_cost l : dist := foldr (λ pc, dist_min (Fin pc.2)) Inf l.

Definition brute_force g s e : dist :=
  least_cost (simple_paths (size (dom g)) g ∅ s e).

(** ** The least cost of a list *)

Lemma dist_min_le_l (a b : dist) : dist_min a b ⪯ a.
Proof.
  unfold dist_min. destruct (py_lt b a) eqn:Hlt; [| apply py_le_refl].
  by apply py_lt_le.
Qed.

Lemma dist_min_le_r (a b : dist) : dist_min a b ⪯ b.
Proof.
  unfold dist_min. destruct (py_lt b a) eqn:Hlt; [apply py_le_refl | done].
Qed.

Lemma least_cost_le l p c : (p, c) ∈ l → least_cost l ⪯ Fin c.
Proof.
  induction l as [|pc l IH]; [by intros ?%elem_of_nil |].
  intros [<-|Hin]%elem_of_cons; simpl; [apply dist_min_le_l |].
  eapply py_le_trans; [apply dist_min_le_r | by apply IH].
Qed.

Lemma least_cost_elem_of l :
  (l = [] ∧ least_cost l = Inf) ∨ ∃ p c, (p, c) ∈ l ∧ least_cost l = Fin c.
Proof.
  induction l as [|[p c] l IH]; [by left | right]. simpl. unfold dist_min.
  destruct (py_lt _ _) eqn:Hlt; [| by exists p, c; split; [left |]].
  destruct IH as [[_ Hl]|(p' & c' & ? & ?)];
    [by rewrite Hl in Hlt | exists p', c'; split; [by right | done]].
Qed.

(** ** The enumeration *)

Lemma simple_paths_sound fuel g seen u e p c :
  u ∉ seen → (p, c) ∈ simple_paths fuel g seen u e →
  is_path g p c ∧ head p = Some u ∧ last p = Some e ∧ NoDup p ∧
  ∀ x, x ∈ p → x ∉ seen.
Proof.
  revert seen u p c. induction fuel as [|fuel IH]; intros seen u p c Hu;
    simpl; case_decide as He;
    try (intros [= -> ->]%list_elem_of_singleton; subst;
         split_and!; [constructor | done.. | apply NoDup_singleton
                     | by intros x ->%list_elem_of_singleton]);
    [by intros ?%elem_of_nil |].
  intros ([v w] & Hin & Hitem)%list_elem_of_bind. simpl in Hin.
  case_decide as Hv; [by apply elem_of_nil in Hin |].
  apply list_elem_of_fmap in Hin as ([p' c'] & [= -> ->] & Hin).
  apply IH in Hin as (Hp & Hh & Hl & Hnd & Hseen); [| done]. simpl.
  destruct p' as [|v' p']; simplify_eq/=.
  assert (edge g u v w) as Hedge.
  { destruct (g !! u) as [adj|] eqn:Hadj; [| by apply elem_of_nil in Hitem].
    by exists adj. }
  split_and!; [by constructor | done | done | |].
  - apply NoDup_cons. split; [| done]. intros Hin%Hseen. set_solver.
  - intros x [->|Hx%Hseen]%elem_of_cons; [done | set_solver].
Qed.

Lemma simple_paths_complete g p c :
  is_path g p c → ∀ fuel seen u e,
  head p = Some u → last p = Some e → NoDup p →
  (∀ x, x ∈ p → x ∉ seen) → length p ≤ S fuel →
  (p, c) ∈ simple_paths fuel g seen u e.
Proof.
  induction 1 as [u'|u' v p w c [adj [Hadj Hin]] Hp IH];
    intros fuel seen u e [= <-] Hl Hnd Hseen Hlen.
  { injection Hl as <-. destruct fuel; simpl; rewrite decide_True by done;
      apply list_elem_of_here. }
  apply NoDup_cons in Hnd as [Hu' Hnd].
  assert (u' ≠ e) as Hne.
  { intros ->. apply Hu'. rewrite last_cons_cons in Hl.
    by apply last_Some_elem_of. }
  destruct fuel as [|fuel]; simpl in *; [lia |].
  rewrite decide_False by done. apply list_elem_of_bind.
  exists (v, w). rewrite Hadj. split; [| done]. simpl.
  rewrite decide_False by (pose proof (Hseen v); set_solver).
  apply (list_elem_of_fmap_2' _ _ (v :: p, c)); [| done].
  apply IH; [done | done | done | | lia].
  intros x Hx. pose proof (Hseen x). set_solver.
Qed.

(** The nodes of a path, but for the last, are keys of the graph. *)
Lemma is_path_init_dom g p c :
  is_path g p c → ∀ q x, p = q ++ [x] → ∀ y, y ∈ q → y ∈ dom g.
Proof.
  induction 1 as [u|u v p w c He Hp IH]; intros [|z q] x Hq y Hy;
    simplify_eq/=; try by apply elem_of_nil in Hy.
  - by destruct q.
  - apply elem_of_cons in Hy as [->|Hy]; [by eapply edge_source |].
    by eapply (IH q x).
Qed.

Lemma is_path_length g p c :
  is_path g p c → NoDup p → length p ≤ S (size (dom g)).
Proof.
  intros Hp Hnd. destruct (last p) as [x|] eqn:Hl;
    [| apply last_None in Hl as ->; simpl; lia].
  apply last_Some in Hl as [q ->].
  apply NoDup_app in Hnd as (Hq & _ & _).
  rewrite length_app, Nat.add_1_r. apply le_n_S.
  apply NoDup_length_le_size; [done |]. by eapply is_path_init_dom.
Qed.

End reference.

(** ** The engine against the reference *)

Section equivalence.
Context `{Countable K, PyLt K} `{!HeapOps (Z * K)} `{!HeapLaws (Z * K)}.
Context (g : graph K) (start end_ : K).

(** C35: with non-negative weights, on a graph whose neighbours are
    keys and with [start] a key, the cost that [dijkstra] returns is the
    cost found by enumerating the simple paths from [start] to [end] and
    taking the least ([inf] when there is none). *)
Theorem dijkstra_brute_force :
  nonneg g → closed g → start ∈ dom g →
  ∃ path,
    dijkstra g start end_ = Some (Ok (brute_force g start end_, path)).
Proof.
  intros Hn Hc Hs. unfold brute_force.
  set (l := simple_paths (size (dom g)) g ∅ start end_).
  assert (∀ p c, (p, c) ∈ l → walk g start end_ c) as Hsound.
  { intros p c (Hp & Hh & Hl & _)%simple_paths_sound; [| set_solver].
    by eapply is_path_walk_ends. }
  destruct (dijkstra_cases g start end_ Hn Hc Hs)
    as [(d & path & -> & [_ Hmin] & Hp & Hh & Hl & Hnd)|[-> Hreach]].
  - exists path. do 3 f_equal.
    assert ((path, d) ∈ l) as Hin.
    { apply simple_paths_complete;
        [done.. | set_solver | by eapply is_path_length]. }
    pose proof (least_cost_le _ _ _ Hin) as Hle.
    destruct (least_cost_elem_of l) as [[Hnil _]|(p & c & Hin' & Heq)];
      [rewrite Hnil in Hin; by apply elem_of_nil in Hin |].
    rewrite Heq in Hle |- *. apply dist_ge_spec in Hle as (y & [= <-] & ?).
    apply Hsound, Hmin in Hin'. f_equal. lia.
  - exists []. do 3 f_equal.
    destruct (least_cost_elem_of l) as [[_ ->]|(p & c & Hin & _)]; [done |].
    destruct Hreach. exists c. by eapply Hsound.
Qed.

End equivalence.
