(* ===== verification/Independence.v ===== *)
(** * The result does not depend on the queue

    [src/dijkstra.py] pushes pairs [(distance, node)]; Python compares
    them lexicographically, so two different entries are never equal in
    the order and the entry that [heappop] returns is determined by the
    contents of the queue ([heappop_unique]).  Hence the function
    computes the same result with every lawful queue: with CPython's
    binary heap ([Heapq.heapq]) and with the sorted list of [PQueue].

    - [similar]: two states that differ in the layout of [pq] only.  On
      the states of one queue it is symmetric and transitive
      ([similar_per]), and reflexive where [pq] is a heap.
    - [relax_similar], [expand_similar], [step_similar], [loop_similar]:
      the operations of the engine take similar states to similar states
      and to equal results.
    - [dijkstra_queue_independent]: the results are equal. *)

From S2P Require Import Prelude PyValues PQueue Graph Dijkstra.

Section independence.
Context `{Countable K, PyLt K, !PyLtLaws K}.
Context (O1 O2 : HeapOps (Z * K)).
Context `{!@HeapLaws (Z * K) _ O1, !@HeapLaws (Z * K) _ O2}.
Implicit Types (g : graph K) (u v : K) (d : Z) (st : state K).

(** The states agree but for the order of the entries of [pq]. *)
Record similar (st1 st2 : state K) : Prop := {
  sim_heap1 : @is_heap _ O1 (pq st1);
  sim_heap2 : @is_heap _ O2 (pq st2);
  sim_pq : pq st1 ≡ₚ pq st2;
  sim_distances : distances st1 = distances st2;
  sim_predecessors : predecessors st1 = predecessors st2;
  sim_visited : visited st1 = visited st2;
}.

Definition similar_step (r1 r2 : step_result K) : Prop :=
  match r1, r2 with
  | Continue st1, Continue st2 => similar st1 st2
  | Done r1, Done r2 => r1 = r2
  | _, _ => False
  end.

Lemma init_similar g start : similar (init_state g start) (init_state g start).
Proof. split; simpl; try done; apply is_heap_singleton. Qed.

Lemma improve_similar u v d st1 st2 :
  similar st1 st2 →
  similar (improve (H0 := O1) u v d st1) (improve (H0 := O2) u v d st2).
Proof.
  intros [? ? Hpq Hd Hp Hv]. split; simpl; try congruence.
  - by apply heappush_is_heap.
  - by apply heappush_is_heap.
  - by rewrite !heappush_perm, Hpq.
Qed.

Lemma relax_similar u d st1 st2 item :
  similar st1 st2 →
  result_rel similar (relax (H0 := O1) u d st1 item)
    (relax (H0 := O2) u d st2 item).
Proof.
  intros Hsim. destruct item as [v w]. unfold relax.
  rewrite (sim_visited _ _ Hsim), (sim_distances _ _ Hsim).
  case_decide; [done |]. destruct (distances st2 !! v) as [old|]; [| done].
  destruct (py_lt _ old); [| done]. by apply improve_similar.
Qed.

Lemma expand_similar g u d st1 st2 :
  similar st1 st2 →
  result_rel similar (expand (H0 := O1) g u d st1)
    (expand (H0 := O2) g u d st2).
Proof.
  intros Hsim. unfold expand. destruct (g !! u) as [items|]; [| done].
  apply foldM_rel; [| done]. intros. by apply relax_similar.
Qed.

(** Similar queues pop the same entry. *)
Lemma pop_similar st1 st2 x pq1 :
  similar st1 st2 → @heappop _ O1 (pq st1) = Some (x, pq1) →
  ∃ pq2, @heappop _ O2 (pq st2) = Some (x, pq2) ∧
    similar (with_pq st1 pq1) (with_pq st2 pq2).
Proof.
  intros [Hh1 Hh2 Hpq Hd Hp Hv] Hpop1.
  destruct (@heappop_is_Some _ _ O2 _ (pq st2)) as [[y pq2] Hpop2].
  { intros Hnil. rewrite Hnil in Hpq. apply Permutation_nil_r in Hpq.
    rewrite Hpq, heappop_nil in Hpop1. done. }
  destruct (heappop_unique O1 O2 _ _ _ _ _ _ Hpq Hh1 Hh2 Hpop1 Hpop2)
    as [<- Hpq']. exists pq2. split; [done |].
  split; simpl; try done; by eapply heappop_is_heap.
Qed.

Lemma add_visited_similar u st1 st2 :
  similar st1 st2 → similar (add_visited u st1) (add_visited u st2).
Proof. intros [? ? ? ? ? Hv]. split; simpl; try done. by rewrite Hv. Qed.

Lemma finish_similar d u st1 st2 :
  similar st1 st2 → finish d u st1 = finish d u st2.
Proof.
  intros [_ _ _ _ Hp Hv]. unfold finish, reconstruct_fuel. by rewrite Hp, Hv.
Qed.

Lemma step_similar g end_ st1 st2 :
  similar st1 st2 →
  similar_step (step (H0 := O1) g end_ st1) (step (H0 := O2) g end_ st2).
Proof.
  intros Hsim. unfold step. pose proof (sim_pq _ _ Hsim) as Hpq.
  destruct (pq st1) as [|e1 q1] eqn:Hq1.
  { apply Permutation_nil_l in Hpq. by rewrite <- Hpq. }
  destruct (pq st2) as [|e2 q2] eqn:Hq2;
    [by apply Permutation_nil_r in Hpq |].
  rewrite <- Hq1, <- Hq2.
  destruct (@heappop_is_Some _ _ O1 _ (pq st1)) as [[[d u] pq1] Hpop1];
    [congruence |].
  destruct (pop_similar _ _ _ _ Hsim Hpop1) as (pq2 & Hpop2 & Hsim').
  rewrite Hpop1, Hpop2. case_decide; [by apply finish_similar |].
  simpl. rewrite (sim_visited _ _ Hsim). case_decide; [done |].
  pose proof (expand_similar g u d _ _ (add_visited_similar u _ _ Hsim'))
    as Hx.
  destruct (expand _ _ _ _), (expand _ _ _ _); simpl in *; by subst.
Qed.

Lemma loop_similar fuel g end_ st1 st2 :
  similar st1 st2 →
  loop (H0 := O1) fuel g end_ st1 = loop (H0 := O2) fuel g end_ st2.
Proof.
  revert st1 st2. induction fuel as [|fuel IH]; intros st1 st2 Hsim; [done |].
  simpl. pose proof (step_similar g end_ _ _ Hsim) as Hs.
  destruct (step _ _ st1), (step _ _ st2); simpl in *; try done; eauto.
Qed.

(** C21: [dijkstra] returns the same with every lawful queue: the
    entries [(distance, node)] are totally ordered, so the layout of the
    list [pq] and the way [heappush] and [heappop] maintain it do not
    show in the result.  In particular CPython's binary heap and the
    sorted list give the same cost and the same path. *)
Theorem dijkstra_queue_independent g start end_ :
  dijkstra (H0 := O1) g start end_ = dijkstra (H0 := O2) g start end_.
Proof. apply loop_similar, init_similar. Qed.

End independence.

(** ** [similar] on the states of one queue is an equivalence *)

Section similar_equiv.
Context `{Countable K, PyLt K} (O : HeapOps (Z * K)).

Lemma similar_sym (O' : HeapOps (Z * K)) (st1 st2 : state K) :
  similar O O' st1 st2 → similar O' O st2 st1.
Proof. intros []. by split. Qed.

Lemma similar_trans (O' O'' : HeapOps (Z * K)) (st1 st2 st3 : state K) :
  similar O O' st1 st2 → similar O' O'' st2 st3 → similar O O'' st1 st3.
Proof. intros [] []. split; try done; etrans; done. Qed.

#[export] Instance similar_per : RelationClasses.PER (similar O O).
Proof.
  split; [intros ? ?; apply similar_sym | intros ? ? ?; apply similar_trans].
Qed.

End similar_equiv.
