(* ===== verification/Instances.v ===== *)
(** * The theorems at the graphs of [__main__]

    The engine as it runs: with CPython's heap ([Heapq.heapq], lawful by
    [heapq_laws]) and node names that are strings, compared as Python
    compares them.  Each lemma of this file applies a theorem of the
    development to [city_graph], [cities] or a variation, with the
    hypotheses of the theorem evaluated.

    [state_after n g start end] is the state at the head of the [while]
    loop after [n] iterations. *)

From S2P Require Import Prelude PyValues PQueue Heapq Graph Dijkstra.
From S2P Require Import Structure Invariants Refinement Soundness Optimality.
From S2P Require Import Targets Program Reference Independence Demo Console.

#[local] Existing Instance heapq.
#[local] Open Scope string_scope.
#[local] Open Scope Z_scope.

Definition state_after (n : nat) (g : graph string) (start end_ : string) :
    state string :=
  Nat.iter n (λ st, match step g end_ st with
                    | Continue st' => st'
                    | Done _ => st
                    end) (init_state g start).

Lemma state_after_reachable n g start end_ :
  reachable g start end_ (state_after n g start end_).
Proof.
  induction n as [|n IH]; simpl; [constructor |].
  destruct (step g end_ _) eqn:Hs; [by econstructor | done].
Qed.

(** [city_graph] with a neighbour that is no key. *)
Definition city_graph_Q : graph string := <["D" := [("Q", 1)]]> city_graph.

(** [city_graph] where ["C"] lists a neighbour that is no key. *)
Definition city_graph_CQ : graph string := <["C" := [("Q", 1)]]> city_graph.

(** [city_graph] with the neighbours of ["A"] in the other order. *)
Definition city_graph_swapped : graph string :=
  <["A" := [("D", 2); ("B", 1)]]> city_graph.

Lemma city_graph_C_isolated : ¬ reachable_from city_graph "C" "A".
Proof.
  intros [c Hw]. apply walk_no_edges in Hw as [? _]; [done |].
  intros x w (adj & Hadj & Hin). vm_compute in Hadj.
  injection Hadj as <-. by apply elem_of_nil in Hin.
Qed.

Lemma city_graph_CQ_unreachable : ¬ reachable_from city_graph_CQ "C" "A".
Proof.
  intros [c Hw]. inversion Hw as [|? v ? w c' (adj & Hadj & Hin) Hw']; subst.
  vm_compute in Hadj. injection Hadj as <-.
  apply list_elem_of_singleton in Hin as [= -> ->].
  apply walk_no_edges in Hw' as [? _]; [done |].
  intros x w' (adj & Hadj & _). by vm_compute in Hadj.
Qed.

Lemma cities_walk_Boston_DC : walk cities "Boston" "Washington DC" 450.
Proof.
  by apply (path_cost_walk _
    ["Boston"; "New York"; "Philadelphia"; "Washington DC"]).
Qed.

(** ** The contract *)

Lemma dijkstra_correct_witness :
  (∃ d path,
     dijkstra city_graph "A" "C" = Some (Ok (Fin d, path)) ∧
     shortest city_graph "A" "C" d ∧ is_path city_graph path d ∧
     head path = Some "A" ∧ last path = Some "C")
  ∨ (dijkstra city_graph "A" "C" = Some (Ok (Inf, [])) ∧
     ¬ reachable_from city_graph "A" "C").
Proof.
  apply dijkstra_correct;
    [exact city_graph_nonneg | exact city_graph_closed | by_decide].
Defined.

Lemma dijkstra_heapq_correct_witness :
  (∃ d path,
     dijkstra (H0 := heapq (Z * string)) cities "Boston" "Washington DC" =
       Some (Ok (Fin d, path)) ∧
     shortest cities "Boston" "Washington DC" d ∧ is_path cities path d ∧
     head path = Some "Boston" ∧ last path = Some "Washington DC" ∧
     NoDup path)
  ∨ (dijkstra (H0 := heapq (Z * string)) cities "Boston" "Washington DC" =
       Some (Ok (Inf, [])) ∧
     ¬ reachable_from cities "Boston" "Washington DC").
Proof.
  apply dijkstra_heapq_correct;
    [exact cities_nonneg | exact cities_closed | by_decide].
Defined.

Lemma dijkstra_shortest_witness : shortest cities "New York" "Columbus" 585.
Proof.
  apply (dijkstra_shortest cities "New York" "Columbus" cities_nonneg 585
    ["New York"; "Philadelphia"; "Pittsburgh"; "Columbus"]).
  by vm_compute.
Defined.

(** ** Results on every graph *)

Lemma dijkstra_sound_witness :
  is_path cities ["New York"; "Philadelphia"; "Pittsburgh"; "Columbus"] 585 ∧
  head ["New York"; "Philadelphia"; "Pittsburgh"; "Columbus"] =
    Some "New York" ∧
  last ["New York"; "Philadelphia"; "Pittsburgh"; "Columbus"] =
    Some "Columbus".
Proof. apply (dijkstra_sound cities "New York" "Columbus"). by vm_compute. Defined.

Lemma dijkstra_terminates_witness :
  ∃ r, dijkstra cities "Boston" "Washington DC" = Some r ∧
    ∀ fuel, (dijkstra_fuel cities ≤ fuel)%nat →
      loop fuel cities "Washington DC" (init_state cities "Boston") = Some r.
Proof. apply dijkstra_terminates. Defined.

Lemma dijkstra_Inf_witness :
  @nil string = [] ∧ ¬ reachable_from city_graph "C" "A".
Proof. apply (dijkstra_Inf city_graph "C" "A"). by vm_compute. Defined.

Lemma dijkstra_KeyError_witness :
  "Q" ∉ dom city_graph_Q ∧
  ("Q" = "A" ∨
   ∃ u w, reachable_from city_graph_Q "A" u ∧ edge city_graph_Q u "Q" w).
Proof. apply (dijkstra_KeyError city_graph_Q "A" "C"). by vm_compute. Defined.

Lemma dijkstra_KeyError_complete_witness :
  ∃ k, dijkstra city_graph_CQ "C" "A" = Some (Raise (KeyError k)).
Proof.
  apply (dijkstra_KeyError_complete city_graph_CQ "C" "A" "C" "Q" 1);
    [exact city_graph_CQ_unreachable | exists 0; constructor
    | by eapply edge_lookup; [by vm_compute | left] | by_decide].
Defined.

Lemma dijkstra_closed_Ok_witness :
  ∃ (cost : dist) path,
    dijkstra cities "Montreal" "Charlotte" = Some (Ok (cost, path)).
Proof. apply dijkstra_closed_Ok; [exact cities_closed | by_decide]. Defined.

Lemma dijkstra_complete_witness :
  ∃ d path,
    dijkstra cities "Boston" "Washington DC" = Some (Ok (Fin d, path)).
Proof.
  apply dijkstra_complete; [exact cities_closed | by_decide |].
  exists 450. exact cities_walk_Boston_DC.
Defined.

Lemma dijkstra_no_IndexError_witness :
  dijkstra city_graph "C" "A" ≠ Some (Raise IndexError).
Proof. apply dijkstra_no_IndexError. Defined.

Lemma dijkstra_start_is_end_witness :
  dijkstra city_graph "A" "A" = Some (Ok (Fin 0, ["A"])).
Proof. apply dijkstra_start_is_end. by_decide. Defined.

Lemma dijkstra_start_missing_witness :
  dijkstra city_graph "Z" "Z" = Some (Raise (KeyError "Z")).
Proof. apply dijkstra_start_missing. by_decide. Defined.

Lemma dijkstra_start_isolated_witness :
  dijkstra city_graph "Z" "A" = Some (Ok (Inf, [])).
Proof. apply dijkstra_start_isolated; [by_decide | done]. Defined.

(** ** The states of the loop *)

Lemma reachable_keys_witness :
  dom (distances (state_after 2 city_graph "Z" "C")) =
    dom city_graph ∪ {["Z"]} ∧
  dom (predecessors (state_after 2 city_graph "Z" "C")) = dom city_graph.
Proof. apply (reachable_keys city_graph "Z" "C"), state_after_reachable. Defined.

Lemma reachable_distance_path_witness :
  ∃ path, is_path city_graph path 2 ∧ head path = Some "A" ∧
    last path = Some "E" ∧ NoDup path.
Proof.
  apply (reachable_distance_path city_graph "A" "C"
    (state_after 2 city_graph "A" "C"));
    [apply state_after_reachable | by vm_compute].
Defined.

Lemma reachable_queue_witness :
  is_heap (pq (state_after 2 city_graph "A" "C")) ∧
  (∀ d v, (d, v) ∈ pq (state_after 2 city_graph "A" "C") →
     ∃ d', distances (state_after 2 city_graph "A" "C") !! v =
             Some (Fin d') ∧ d' ≤ d) ∧
  (∀ v d, v ∉ visited (state_after 2 city_graph "A" "C") →
     distances (state_after 2 city_graph "A" "C") !! v = Some (Fin d) →
     (d, v) ∈ pq (state_after 2 city_graph "A" "C")).
Proof. apply (reachable_queue city_graph "A" "C"), state_after_reachable. Defined.

Lemma reachable_visited_witness :
  "B" ≠ "C" ∧ reachable_from city_graph "A" "B" ∧
  ∃ du, distances (state_after 2 city_graph "A" "C") !! "B" =
          Some (Fin du) ∧
    ∀ v w, edge city_graph "B" v w →
      v ∈ visited (state_after 2 city_graph "A" "C") ∨
      ∃ dv, distances (state_after 2 city_graph "A" "C") !! v =
              Some (Fin dv) ∧ dv ≤ du + w.
Proof.
  apply (reachable_visited city_graph "A" "C");
    [apply state_after_reachable | by_decide].
Defined.

Lemma reachable_queue_bound_witness :
  (length (pq (state_after 3 cities "New York" "Columbus")) +
   unvisited_degree cities
     (visited (state_after 3 cities "New York" "Columbus")) ≤
   S (edge_count cities))%nat.
Proof.
  apply (reachable_queue_bound cities "New York" "Columbus"),
    state_after_reachable.
Defined.

Lemma step_monotone_witness :
  visited (state_after 1 city_graph "A" "C") ⊆
    visited (state_after 2 city_graph "A" "C") ∧
  ∀ v dv,
    distances (state_after 1 city_graph "A" "C") !! v = Some (Fin dv) →
    ∃ dv', distances (state_after 2 city_graph "A" "C") !! v =
             Some (Fin dv') ∧ dv' ≤ dv.
Proof. apply (step_monotone city_graph "C"). by vm_compute. Defined.

Lemma step_visited_frozen_witness :
  distances (state_after 3 city_graph "A" "C") !! "B" =
    distances (state_after 2 city_graph "A" "C") !! "B" ∧
  predecessors (state_after 3 city_graph "A" "C") !! "B" =
    predecessors (state_after 2 city_graph "A" "C") !! "B".
Proof.
  apply (step_visited_frozen city_graph "C"); [by vm_compute | by_decide].
Defined.

(** ** The algorithm on tables *)

Lemma reachable_refines_witness :
  rtc (t_step city_graph "C")
    (tables_of (init_state city_graph "A"))
    (tables_of (state_after 3 city_graph "A" "C")).
Proof.
  apply (reachable_refines city_graph "A" "C"), state_after_reachable.
Defined.

Lemma exit_refines_witness :
  t_answer "C" (tables_of (state_after 4 city_graph "A" "C")) (Fin 5).
Proof.
  apply (exit_refines city_graph "A" "C" _ (Fin 5) ["A"; "B"; "C"]);
    [apply reachable_inv, state_after_reachable | by vm_compute].
Defined.

(** ** Paths *)

Lemma dijkstra_unreachable_witness :
  dijkstra city_graph "C" "A" = Some (Ok (Inf, [])).
Proof.
  apply dijkstra_unreachable;
    [exact city_graph_closed | by_decide | exact city_graph_C_isolated].
Defined.

Lemma dijkstra_path_NoDup_witness :
  NoDup ["New York"; "Philadelphia"; "Pittsburgh"; "Columbus"].
Proof.
  apply (dijkstra_path_NoDup cities "New York" "Columbus" (Fin 585)).
  by vm_compute.
Defined.


Lemma reachable_predecessor_witness :
  "B" ∈ visited (state_after 2 city_graph "A" "C") ∧
  ∃ du w, edge city_graph "B" "E" w ∧
    distances (state_after 2 city_graph "A" "C") !! "B" = Some (Fin du) ∧
    distances (state_after 2 city_graph "A" "C") !! "E" = Some (Fin (du + w)).
Proof.
  exact (reachable_predecessor city_graph "A" "C" _ "E"
    (state_after_reachable 2 city_graph "A" "C")).
Defined.

Lemma reconstruct_terminates_witness :
  ∃ l, is_path city_graph (reverse l) 2 ∧
    reconstruct (reconstruct_fuel (state_after 2 city_graph "A" "C"))
      (predecessors (state_after 2 city_graph "A" "C")) (Some "E") [] =
    Some (match predecessors (state_after 2 city_graph "A" "C") !! "A" with
          | Some _ => Ok l
          | None => Raise (KeyError "A")
          end).
Proof.
  apply (reconstruct_terminates city_graph "A" "C");
    [apply state_after_reachable | by vm_compute].
Defined.

(** ** The cost *)

Lemma dijkstra_brute_force_witness :
  ∃ path,
    dijkstra city_graph "A" "C" =
    Some (Ok (brute_force city_graph "A" "C", path)).
Proof.
  apply dijkstra_brute_force;
    [exact city_graph_nonneg | exact city_graph_closed | by_decide].
Defined.

Lemma pops_nondecreasing_witness : 1 ≤ 2.
Proof.
  apply (pops_nondecreasing city_graph "A" "C" city_graph_nonneg
    (state_after 1 city_graph "A" "C") (state_after 2 city_graph "A" "C")
    1 "B" [(2, "D")] 2 "D" [(2, "E"); (5, "C")]);
    [apply state_after_reachable | by vm_compute..].
Defined.

Lemma visited_shortest_witness :
  ∃ d, distances (state_after 3 city_graph "A" "C") !! "D" = Some (Fin d) ∧
    shortest city_graph "A" "D" d.
Proof.
  apply (visited_shortest city_graph "A" "C" city_graph_nonneg);
    [apply state_after_reachable | by_decide].
Defined.

Lemma dijkstra_path_prefix_witness :
  ∃ c, is_path cities ["New York"; "Philadelphia"; "Pittsburgh"] c ∧
    head ["New York"; "Philadelphia"; "Pittsburgh"] = Some "New York" ∧
    shortest cities "New York" "Pittsburgh" c.
Proof.
  apply (dijkstra_path_prefix cities "New York" "Columbus" cities_nonneg 585
    ["New York"; "Philadelphia"] "Pittsburgh" ["Columbus"]).
  by vm_compute.
Defined.

Lemma dijkstra_prefix_target_witness :
  ∃ c, dijkstra cities "New York" "Pittsburgh" =
    Some (Ok (Fin c, ["New York"; "Philadelphia"; "Pittsburgh"])).
Proof.
  apply (dijkstra_prefix_target cities "New York" "Columbus" 585
    ["New York"; "Philadelphia"] "Pittsburgh" ["Columbus"]).
  by vm_compute.
Defined.

Lemma dijkstra_cost_ext_witness :
  ∃ (cost : dist) path path',
    dijkstra city_graph "A" "C" = Some (Ok (cost, path)) ∧
    dijkstra city_graph_swapped "A" "C" = Some (Ok (cost, path')).
Proof.
  apply dijkstra_cost_ext;
    [exact city_graph_nonneg | exact city_graph_closed | by_decide
    | by_decide | symmetry].
  apply (same_edges_insert_perm _ _ [("B", 1); ("D", 2)]);
    [by vm_compute | apply Permutation_swap].
Defined.

(** ** The console *)

Lemma query_output_witness :
  query city_graph_Q "A" "C" =
  Some (Io (Raise (KeyError "Q")) [announce "A" "C"]).
Proof.
  apply (query_output city_graph_Q "A" "C" (Raise (KeyError "Q"))).
  by vm_compute.
Defined.

(** ** The queue *)

Lemma dijkstra_queue_independent_witness :
  dijkstra (H0 := heapq (Z * string)) cities "New York" "Columbus" =
  dijkstra (H0 := sorted_queue (Z * string)) cities "New York" "Columbus".
Proof. apply (dijkstra_queue_independent _ _). Defined.
